(** * aippt: template round-trip pipeline

    A shallow embedding of the text pipeline of the repository
    (modules/extractor.py, modules/llm_client.py, modules/md_utils.py,
    modules/ppt_builder.py, modules/image_utils.py) together with the
    properties stated for it.

    Python [str] values are lists of Unicode code points; the character
    classes of the [re] module and of [str.strip] are given by their code
    point tables. *)

From Stdlib Require Import NArith ZArith Lia Ascii String Decimal DecimalNat.
From stdpp Require Import base option list gmap sets.

Local Open Scope N_scope.
Local Open Scope nat_scope.
Local Open Scope list_scope.

(** ** Python text primitives *)

Module Py.

Abbreviation char := N.
Abbreviation str := (list N).
Abbreviation bytes := (list Byte.byte).

(** A literal: every ASCII character of the Rocq string is one code point. *)
Definition lit (s : string) : str := map N_of_ascii (list_ascii_of_string s).

Global Arguments lit : simpl never.

Definition NL : char := 10%N.

(** [str.isspace] on one character, which is also the class [\s] of [re]
    for [str] patterns. *)
Definition isspace (c : char) : bool :=
  ((9 <=? c) && (c <=? 13) || (28 <=? c) && (c <=? 32) || (c =? 133)
   || (c =? 160) || (c =? 5760) || (8192 <=? c) && (c <=? 8202)
   || (c =? 8232) || (c =? 8233) || (c =? 8239) || (c =? 8287)
   || (c =? 12288))%N.

(** First code points of the runs of ten decimal digits of the Unicode
    category Nd (the table of CPython 3.11); the mathematical digits
    U+1D7CE..U+1D7FF form five consecutive runs. *)
Definition nd_zero : list N :=
  [48; 1632; 1776; 1984; 2406; 2534; 2662; 2790; 2918; 3046; 3174; 3302;
   3430; 3558; 3664; 3792; 3872; 4160; 4240; 6112; 6160; 6470; 6608; 6784;
   6800; 6992; 7088; 7232; 7248; 42528; 43216; 43264; 43472; 43504; 43600;
   44016; 65296; 66720; 68912; 69734; 69872; 69942; 70096; 70384; 70736;
   70864; 71248; 71360; 71472; 71904; 72016; 72784; 73040; 73120; 92768;
   92864; 93008; 120782; 120792; 120802; 120812; 120822; 123200; 123632;
   125264; 130032]%N.

(** The class [\d] of [re] for [str] patterns. *)
Definition isdecimal (c : char) : bool :=
  existsb (fun z => (z <=? c) && (c <? z + 10))%N nd_zero.

(** The class [[0-9]]. *)
Definition is_ascii_digit (c : char) : bool := ((48 <=? c) && (c <=? 57))%N.

Fixpoint drop_while {A} (p : A -> bool) (s : list A) : list A :=
  match s with
  | c :: t => if p c then drop_while p t else s
  | [] => []
  end.

Fixpoint take_while {A} (p : A -> bool) (s : list A) : list A :=
  match s with
  | c :: t => if p c then c :: take_while p t else []
  | [] => []
  end.

(** [s.lstrip(chars)] and [s.rstrip(chars)], the character set given as a
    predicate. *)
Definition lstrip_by (p : char -> bool) (s : str) : str := drop_while p s.

Fixpoint rstrip_by (p : char -> bool) (s : str) : str :=
  match s with
  | [] => []
  | c :: t =>
      match rstrip_by p t with
      | [] => if p c then [] else [c]
      | t' => c :: t'
      end
  end.

Definition strip_by (p : char -> bool) (s : str) : str :=
  lstrip_by p (rstrip_by p s).

(** [s.strip()], [s.rstrip()]. *)
Definition strip (s : str) : str := strip_by isspace s.
Definition rstrip (s : str) : str := rstrip_by isspace s.

Definition is_nl (c : char) : bool := (c =? NL)%N.

(** [s.replace("\n", "")]. *)
Definition remove_newlines (s : str) : str :=
  List.filter (fun c => negb (is_nl c)) s.

(** [pre] is a prefix of [s]: the rest of [s] after it. *)
Fixpoint strip_prefix (pre s : str) : option str :=
  match pre, s with
  | [], _ => Some s
  | p :: pre', c :: s' => if (p =? c)%N then strip_prefix pre' s' else None
  | _ :: _, [] => None
  end.

Definition startswith (s pre : str) : bool :=
  match strip_prefix pre s with Some _ => true | None => false end.

(** [sep.join(parts)]. *)
Fixpoint join (sep : str) (parts : list str) : str :=
  match parts with
  | [] => []
  | [p] => p
  | p :: ps => p ++ sep ++ join sep ps
  end.

Definition digit_code (c : char) : Decimal.uint -> Decimal.uint :=
  match c with
  | 48 => D0 | 49 => D1 | 50 => D2 | 51 => D3 | 52 => D4
  | 53 => D5 | 54 => D6 | 55 => D7 | 56 => D8 | _ => D9
  end%N.

Fixpoint uint_codes (d : Decimal.uint) : str :=
  match d with
  | Nil => []
  | D0 d => 48%N :: uint_codes d
  | D1 d => 49%N :: uint_codes d
  | D2 d => 50%N :: uint_codes d
  | D3 d => 51%N :: uint_codes d
  | D4 d => 52%N :: uint_codes d
  | D5 d => 53%N :: uint_codes d
  | D6 d => 54%N :: uint_codes d
  | D7 d => 55%N :: uint_codes d
  | D8 d => 56%N :: uint_codes d
  | D9 d => 57%N :: uint_codes d
  end.

(** [str(n)] for a non-negative integer, as an f-string formats it. *)
Definition str_of_nat (n : nat) : str := uint_codes (Nat.to_uint n).

(** The decimal value of a run of ASCII digits. *)
Fixpoint codes_uint (s : str) : Decimal.uint :=
  match s with
  | [] => Nil
  | c :: t => digit_code c (codes_uint t)
  end.

Definition nat_of_digits (s : str) : nat := Nat.of_uint (codes_uint s).

(** A literal pattern letter under [re.I]: the characters that match it.
    Besides the two ASCII cases, s also matches U+017F, i matches U+0130
    and U+0131, and k matches U+212A. *)
Definition ci_eq (p c : char) : bool :=
  let q := (if (65 <=? p) && (p <=? 90) then p + 32 else p)%N in
  match q with
  | 115 => (c =? 115) || (c =? 83) || (c =? 383)
  | 105 => (c =? 105) || (c =? 73) || (c =? 304) || (c =? 305)
  | 107 => (c =? 107) || (c =? 75) || (c =? 8490)
  | _ => (c =? q) || ((97 <=? q) && (q <=? 122) && (c =? q - 32))
  end%N.

Fixpoint strip_prefix_ci (pre s : str) : option str :=
  match pre, s with
  | [], _ => Some s
  | p :: pre', c :: s' => if ci_eq p c then strip_prefix_ci pre' s' else None
  | _ :: _, [] => None
  end.

(** [pattern.sub(repl, s)] for a pattern that matches no empty string:
    [m] is the match attempt at the current position and gives the
    replacement of the match and the text after it. The search resumes after
    the match, so [length s] steps are enough. *)
Fixpoint re_sub (m : str -> option (str * str)) (fuel : nat) (s : str) : str :=
  match fuel with
  | 0 => s
  | S fuel' =>
      match m s with
      | Some (repl, rest) => repl ++ re_sub m fuel' rest
      | None =>
          match s with
          | [] => []
          | c :: t => c :: re_sub m fuel' t
          end
      end
  end.

(** [pattern.split(s)] for a pattern without groups that matches no empty
    string: [m] gives the text after a match at the current position; [cur]
    is the piece collected since the last match. *)
Fixpoint re_split (m : str -> option str) (fuel : nat) (cur s : str)
    : list str :=
  match fuel with
  | 0 => [cur ++ s]
  | S fuel' =>
      match s with
      | [] => [cur]
      | c :: t =>
          match m s with
          | Some rest => cur :: re_split m fuel' [] rest
          | None => re_split m fuel' (cur ++ [c]) t
          end
      end
  end.

(** The lazy [.*?] under [re.S] followed by the literal [pat]: the text
    before the first occurrence of [pat] and the text after it. *)
Fixpoint split_at_first (pat s : str) : option (str * str) :=
  match strip_prefix pat s with
  | Some rest => Some ([], rest)
  | None =>
      match s with
      | [] => None
      | c :: t =>
          match split_at_first pat t with
          | Some (b, r) => Some (c :: b, r)
          | None => None
          end
      end
  end.

(** [s.lower()] on the ASCII letters; the strings this program compares
    the result with are ASCII. *)
Definition lower (s : str) : str :=
  map (fun c => if (65 <=? c) && (c <=? 90) then c + 32 else c)%N s.

Definition str_eqb (a b : str) : bool := bool_decide (a = b).

(** [s.upper()] on the ASCII letters. *)
Definition upper (s : str) : str :=
  map (fun c => if (97 <=? c) && (c <=? 122) then c - 32 else c)%N s.

(** Exceptions, and the outcome of a call that can raise. *)
Inductive exn :=
  | UnsplashError
  | KeyError
  | IndexError
  | AttributeError
  | RequestException
  | OtherException.

Inductive result (A : Type) :=
  | Ok (a : A)
  | Raise (e : exn).

Arguments Ok {A} a.
Arguments Raise {A} e.

End Py.

Import Py.

(** ** modules/extractor.py *)

Module Extractor.

Inductive pp_align := CENTER | RIGHT | LEFT | JUSTIFY | DISTRIBUTE.

Record paragraph := Paragraph {
  p_text : str;
  alignment : option pp_align;
  font_size : option nat
}.

(** A text frame is its list of paragraphs; [text_frame.text] joins their
    texts with a newline. *)
Definition text_frame := list paragraph.

Definition tf_text (tf : text_frame) : str := join [NL] (map p_text tf).

Record shape := Shape {
  has_text_frame : bool;
  frame : text_frame
}.

(** A relationship of a slide part, with the attributes python-pptx gives
    it: its type and the package part it targets ([rId] is its key in the
    relationships of the slide). Several relationships can target one
    part. *)
Record relationship := Relationship {
  reltype : str;
  target_part : nat
}.

(** [rel.target]: a relationship has no attribute of this name (the part
    is reached through [target_part]), so reading it raises. *)
Definition rel_target (rel : relationship) : result nat :=
  Raise AttributeError.

Record slide := Slide {
  shapes : list shape;
  title : option nat;
  rels : gmap str relationship
}.

(** A presentation: its slides, its slide layouts (a layout is given as
    the slide that [add_slide] makes from it) and the payload of every
    package part. *)
Record presentation := Presentation {
  slides : list slide;
  slide_layouts : list slide;
  parts : gmap nat bytes
}.

Definition SHORT_LIMIT : nat := 10.

Definition _make_ph_name (slide_idx shape_idx : nat) : str :=
  lit "{{S" ++ str_of_nat (slide_idx + 1) ++ lit "_P"
    ++ str_of_nat (shape_idx + 1) ++ lit "}}".

Definition _paragraph_align_tag (para : paragraph) : str :=
  match alignment para with
  | Some CENTER => lit "<div align='center'>"
  | Some RIGHT => lit "<div align='right'>"
  | _ => []
  end.

(** One collected text box: (placeholder, length, alignment tag). *)
Abbreviation item := (str * nat * str)%type.

Definition PlaceholderMap := gmap str (nat * nat).

(** The loop over the shapes of one slide: collects the items and records
    every placeholder. *)
Fixpoint collect_items (s_idx sh_idx : nat) (shs : list shape)
    (items : list item) (ph_map : PlaceholderMap)
    : list item * PlaceholderMap :=
  match shs with
  | [] => (items, ph_map)
  | sh :: rest =>
      if negb (has_text_frame sh) then
        collect_items s_idx (S sh_idx) rest items ph_map
      else
        let ph := _make_ph_name s_idx sh_idx in
        let ph_map := <[ph := (s_idx, sh_idx)]> ph_map in
        let raw_text := remove_newlines (tf_text (frame sh)) in
        let ln := length (strip raw_text) in
        let align_tag :=
          match frame sh with
          | para :: _ => _paragraph_align_tag para
          | [] => []
          end in
        collect_items s_idx (S sh_idx) rest (items ++ [(ph, ln, align_tag)])
          ph_map
  end.

(** [seg] of the inner loop, and the line of the else branch without its
    bullet. *)
Definition segment (it : item) : str :=
  let '(ph, ln, tag) := it in
  ph ++ (match tag with [] => [] | _ => lit " " ++ tag end)
     ++ lit " <!--len:" ++ str_of_nat ln ++ lit "-->".

(** The inner [while j < len(items) and items[j][1] <= SHORT_LIMIT] loop,
    run on the items from position [j] on. *)
Fixpoint short_block (rest : list item) (block : list str) (j : nat)
    : list str * nat :=
  match rest with
  | it :: rest' =>
      if it.1.2 <=? SHORT_LIMIT
      then short_block rest' (block ++ [segment it]) (S j)
      else (block, j)
  | [] => (block, j)
  end.

(** The outer [while i < len(items)] loop; every iteration advances [i],
    so [length items] iterations are enough. *)
Fixpoint emit_items (fuel : nat) (items : list item) (i : nat)
    (md_lines : list str) : list str :=
  match fuel with
  | 0 => md_lines
  | S fuel' =>
      match items !! i with
      | None => md_lines
      | Some it =>
          if it.1.2 <=? SHORT_LIMIT then
            let '(block, j) := short_block (drop i items) [] i in
            emit_items fuel' items j
              (md_lines ++ map (fun seg => lit "### " ++ seg) block)
          else
            emit_items fuel' items (S i) (md_lines ++ [lit "- " ++ segment it])
      end
  end.

(** The body of the loop over the slides. *)
Definition extract_slide (s_idx : nat) (sl : slide)
    (st : list str * PlaceholderMap) : list str * PlaceholderMap :=
  let '(md_lines, ph_map) := st in
  let md_lines := md_lines ++ [lit "## Slide " ++ str_of_nat (s_idx + 1)] in
  let '(items, ph_map) := collect_items s_idx 0 (shapes sl) [] ph_map in
  match items with
  | [] => (md_lines ++ [lit "(No text on this slide)" ++ [NL]], ph_map)
  | _ =>
      let md_lines := emit_items (length items) items 0 md_lines in
      (md_lines ++ [[]], ph_map)
  end.

Fixpoint extract_slides (s_idx : nat) (sls : list slide)
    (st : list str * PlaceholderMap) : list str * PlaceholderMap :=
  match sls with
  | [] => st
  | sl :: rest => extract_slides (S s_idx) rest (extract_slide s_idx sl st)
  end.

Definition pptx_to_markdown (prs : presentation) : str * PlaceholderMap :=
  let '(md_lines, ph_map) := extract_slides 0 (slides prs) ([], ∅) in
  (join [NL] md_lines, ph_map).

(** [s.endswith(suffix)]. *)
Definition endswith (s suffix : str) : bool :=
  startswith (rev s) (rev suffix).

(** The payload behind a relationship ([rel.target_part.blob]). *)
Definition blob_of (prs : presentation) (rel : relationship) : bytes :=
  default [] (parts prs !! target_part rel).

(** The record of one relationship of a slide, when it is an image. *)
Definition picture_of (prs : presentation) (s_idx : nat)
    (x : str * relationship) : option (nat * str * bytes) :=
  let '(r_id, rel) := x in
  if endswith (reltype rel) (lit "/image")
  then Some (s_idx, r_id, blob_of prs rel) else None.

Definition slide_pictures (prs : presentation) (s_idx : nat) (sl : slide)
    : list (nat * str * bytes) :=
  omap (picture_of prs s_idx) (map_to_list (rels sl)).

Definition extract_pictures (prs : presentation) : list (nat * str * bytes) :=
  concat (imap (slide_pictures prs) (slides prs)).

End Extractor.

(** ** modules/llm_client.py *)

Module LlmClient.

(** [_len_pat = <!--\s*len:(\d+)\s*-->] tried at the start of [s]: group 1
    and the text after the match. Every repetition is followed by a
    character outside its class, so the greedy choice is the only one. *)
Definition len_pat_match (s : str) : option (str * str) :=
  s1 ← strip_prefix (lit "<!--") s;
  s2 ← strip_prefix (lit "len:") (drop_while isspace s1);
  match take_while isdecimal s2 with
  | [] => None
  | digits =>
      rest ← strip_prefix (lit "-->")
               (drop_while isspace (drop_while isdecimal s2));
      Some (digits, rest)
  end.

(** [_len_pat.search(s)]: group 1 of the leftmost match. *)
Fixpoint len_pat_search (s : str) : option str :=
  match len_pat_match s with
  | Some (g, _) => Some g
  | None =>
      match s with
      | [] => None
      | _ :: t => len_pat_search t
      end
  end.

(** [_len_pat.sub("", s)]. *)
Definition len_pat_strip (s : str) : str :=
  re_sub (fun x => '(_, rest) ← len_pat_match x; Some ([], rest))
    (length s) s.

Definition LOCK_OPEN : str := lit "<!--LOCK-->".
Definition LOCK_CLOSE : str := lit "<!--/LOCK-->".

(** [_lock_pat = <!--LOCK-->(.*?)<!--/LOCK-->] under [re.S], tried at the
    start of [s]: group 1 and the text after the match. *)
Definition lock_pat_match (s : str) : option (str * str) :=
  s1 ← strip_prefix LOCK_OPEN s;
  split_at_first LOCK_CLOSE s1.

(** [_lock_pat.sub(lambda m: m.group(1), md)]. *)
Definition unlock (md : str) : str := re_sub lock_pat_match (length md) md.

(** [re.findall(r".*?(?:\n|$)", txt)]: every line with its newline, the
    last piece when it has none, and the empty match at the end. *)
Fixpoint _split_lines_keep_eol (txt : str) : list str :=
  match txt with
  | [] => [[]]
  | c :: t =>
      if is_nl c then [c] :: _split_lines_keep_eol t
      else
        match t with
        | [] => [[c]; []]
        | _ =>
            match _split_lines_keep_eol t with
            | l :: ls => (c :: l) :: ls
            | [] => [[c]]
            end
        end
  end.

(** [m and m.group(1) == "0"] for [m = _len_pat.search(ln)]. *)
Definition is_zero_len (ln : str) : bool :=
  match len_pat_search ln with
  | Some g => str_eqb g (lit "0")
  | None => false
  end.

Fixpoint find_zero_from (idx : nat) (lines : list str) : list (nat * str) :=
  match lines with
  | [] => []
  | ln :: rest =>
      if is_zero_len ln
      then (idx, rstrip_by is_nl ln) :: find_zero_from (S idx) rest
      else find_zero_from (S idx) rest
  end.

Definition _find_zero_len_lines (md : str) : list (nat * str) :=
  find_zero_from 0 (_split_lines_keep_eol md).

Definition lock_line (origin : str) : str :=
  LOCK_OPEN ++ origin ++ LOCK_CLOSE ++ [NL].

(** [lines[idx] = ...] for every entry of [zero]; the indices come from the
    enumeration of the same list, so none is out of range. *)
Fixpoint assign_locked (zero : list (nat * str)) (lines : list str)
    : list str :=
  match zero with
  | [] => lines
  | (idx, origin) :: rest => assign_locked rest (<[idx := lock_line origin]> lines)
  end.

Definition _lock_zero_len_lines (md : str) : str * list (nat * str) :=
  let zero := _find_zero_len_lines md in
  let lines := _split_lines_keep_eol md in
  (concat (assign_locked zero lines), zero).

(** The key under which a zero-length line is remembered. *)
Definition dedup_key (ln : str) : str := strip (len_pat_strip ln).

(** Step 2 of [_unlock_and_dedup]: the loop over the lines with its [seen]
    set and its [out_lines] list. *)
Fixpoint dedup_loop (lines : list str) (seen : gset str) (out_lines : list str)
    : list str :=
  match lines with
  | [] => out_lines
  | ln :: rest =>
      if is_zero_len ln then
        let key := dedup_key ln in
        if bool_decide (key ∈ seen) then dedup_loop rest seen out_lines
        else dedup_loop rest ({[key]} ∪ seen) (out_lines ++ [ln])
      else dedup_loop rest seen (out_lines ++ [ln])
  end.

(** Step 3: both branches on group 1 remove the length comments. *)
Definition strip_len_tags (out_lines : list str) : list str :=
  map (fun ln =>
         match len_pat_search ln with
         | Some g => if str_eqb g (lit "0") then len_pat_strip ln
                     else len_pat_strip ln
         | None => ln
         end) out_lines.

Definition _unlock_and_dedup (md : str) (zero_lines : list (nat * str))
    (strip_len_tag : bool) : str :=
  let md := unlock md in
  let out_lines := dedup_loop (_split_lines_keep_eol md) ∅ [] in
  let out_lines := if strip_len_tag then strip_len_tags out_lines
                   else out_lines in
  rstrip (concat out_lines).

End LlmClient.

(** ** modules/image_utils.py *)

Module ImageUtils.

(** What a call can observe of its environment. *)
Inductive event :=
  | ReadEnv (name : str)
  | ReadConfig (name : str)
  | ReadLlmKey (name : str)
  | HttpGet (url : str)
  | Shuffled.

(** One search result: [item["urls"][size]], if present. *)
Definition photo := str -> option str.

(** The environment of one call: the key sources, the two kinds of HTTP
    request and the permutation [random.shuffle] picks. A key source that
    is absent, empty or fails to import is [None]. *)
Record world := World {
  getenv : str -> option str;
  config_get : str -> option str;
  llm_ensure_key : str -> option str;
  search_get : str -> str -> Z -> str -> str -> Z -> result (list photo);
  image_get : str -> Z -> result bytes;
  shuffle : list bytes -> list bytes
}.

Definition truthy (v : option str) : option str :=
  match v with
  | Some (c :: t) => Some (c :: t)
  | _ => None
  end.

Definition _ensure_key (w : world) (key_name : str)
    : result str * list event :=
  match truthy (getenv w (upper key_name)) with
  | Some env_val => (Ok env_val, [ReadEnv (upper key_name)])
  | None =>
      match truthy (config_get w key_name) with
      | Some cfg_val =>
          (Ok cfg_val, [ReadEnv (upper key_name); ReadConfig key_name])
      | None =>
          match llm_ensure_key w key_name with
          | Some v =>
              (Ok v, [ReadEnv (upper key_name); ReadConfig key_name;
                      ReadLlmKey key_name])
          | None =>
              (Raise KeyError,
               [ReadEnv (upper key_name); ReadConfig key_name;
                ReadLlmKey key_name])
          end
      end
  end.

Definition mem (x : str) (xs : list string) : bool :=
  existsb (fun y => str_eqb x (lit y)) xs.

(** The download loop: a failed request is logged and skipped, a result
    without the requested size raises. *)
Fixpoint download (w : world) (size : str) (timeout : Z) (results : list photo)
    (blobs : list bytes) (log : list event) : result (list bytes) * list event :=
  match results with
  | [] => (Ok blobs, log)
  | item :: rest =>
      match item size with
      | None => (Raise KeyError, log)
      | Some img_url =>
          match image_get w img_url timeout with
          | Ok content =>
              download w size timeout rest (blobs ++ [content])
                (log ++ [HttpGet img_url])
          | Raise RequestException =>
              download w size timeout rest blobs (log ++ [HttpGet img_url])
          | Raise e => (Raise e, log ++ [HttpGet img_url])
          end
      end
  end.

Definition SEARCH_URL : str := lit "https://api.unsplash.com/search/photos".

Definition unsplash_search (w : world) (query : str) (per_page : Z)
    (limit : option Z) (orientation size order_by : str) (timeout : Z)
    : result (list bytes) * list event :=
  let per_page := match limit with Some l => l | None => per_page end in
  if (per_page <=? 0)%Z then (Ok [], [])
  else
    let orientation := lower orientation in
    let size := lower size in
    let order_by := lower order_by in
    if negb (mem orientation ["landscape"; "portrait"; "squarish"]%string)
    then (Raise UnsplashError, [])
    else if negb (mem size ["small"; "regular"; "full"]%string)
    then (Raise UnsplashError, [])
    else if negb (mem order_by ["latest"; "relevant"]%string)
    then (Raise UnsplashError, [])
    else
      match _ensure_key w (lit "unsplash_key") with
      | (Raise KeyError, log) => (Ok [], log)
      | (Raise e, log) => (Raise e, log)
      | (Ok client_id, log) =>
          let log := log ++ [HttpGet SEARCH_URL] in
          match search_get w query orientation per_page order_by client_id
                  timeout with
          | Raise RequestException => (Raise UnsplashError, log)
          | Raise e => (Raise e, log)
          | Ok [] => (Ok [], log)
          | Ok results =>
              match download w size timeout results [] log with
              | (Ok blobs, log) => (Ok (shuffle w blobs), log ++ [Shuffled])
              | r => r
              end
          end
      end.

(** The call with the defaults of the signature, as
    [prepare_image_candidates] makes it. *)
Definition unsplash_search_default (w : world) (query : str) (per_page : Z)
    : result (list bytes) * list event :=
  unsplash_search w query per_page None (lit "landscape") (lit "small")
    (lit "relevant") 8.

End ImageUtils.

(** ** modules/ppt_builder.py *)

Module PptBuilder.

Import Extractor ImageUtils.

Definition is_dash (c : char) : bool := (c =? 45)%N.
Definition is_hash (c : char) : bool := (c =? 35)%N.

(** The common start [\n?---+] of the two separator patterns, tried at the
    start of [s]: the text after the dashes. *)
Definition rule_start (s : str) : option str :=
  let s1 := match s with
            | c :: t => if is_nl c then t else s
            | [] => s
            end in
  if 3 <=? length (take_while is_dash s1)
  then Some (drop_while is_dash s1) else None.

(** [re.search(r"\n?---+\n", md)] finds a match. *)
Fixpoint rule_search (md : str) : bool :=
  match rule_start md with
  | Some (c :: _) => if is_nl c then true
                     else match md with [] => false | _ :: t => rule_search t end
  | _ => match md with [] => false | _ :: t => rule_search t end
  end.

(** [\n?---+\n+] tried at the start of [s]: the text after the match. *)
Definition rule_split_match (s : str) : option str :=
  match rule_start s with
  | Some (c :: t) => if is_nl c then Some (drop_while is_nl t) else None
  | _ => None
  end.

(** The text before the last newline of a whitespace run and the text from
    that newline on. *)
Fixpoint split_last_nl (ws : str) : option (str * str) :=
  match ws with
  | [] => None
  | c :: t =>
      match split_last_nl t with
      | Some (a, b) => Some (c :: a, b)
      | None => if is_nl c then Some ([], ws) else None
      end
  end.

(** [_md_slide_pat = ^#{1,6}\s*slide\s*[-_ ]?\s*\d+\s*$] under
    [re.I | re.M], tried at the start of a line: the matched text and the
    text after it. The final [\s*] gives back characters until it stands at
    the end of the text or before a newline. *)
Definition slide_pat_match (s : str) : option (str * str) :=
  let hashes := take_while is_hash s in
  match hashes with
  | [] => None
  | _ =>
      let s1 := drop (Nat.min (length hashes) 6) s in
      s3 ← strip_prefix_ci (lit "slide") (drop_while isspace s1);
      let s4 := drop_while isspace s3 in
      let s5 := match s4 with
                | c :: t => if (c =? 45) || (c =? 95) || (c =? 32) then t else s4
                | [] => s4
                end%N in
      let s6 := drop_while isspace s5 in
      match take_while isdecimal s6 with
      | [] => None
      | _ =>
          let s7 := drop_while isdecimal s6 in
          let ws := take_while isspace s7 in
          match drop_while isspace s7 with
          | [] => Some (s, [])
          | rest =>
              '(_, back) ← split_last_nl ws;
              let rest := back ++ rest in
              Some (take (length s - length rest) s, rest)
          end
      end
  end.

(** [list(_md_slide_pat.finditer(md))] as (start, end) offsets; [bol] tells
    whether the current position starts a line. *)
Fixpoint slide_finditer (fuel pos : nat) (bol : bool) (s : str)
    : list (nat * nat) :=
  match fuel with
  | 0 => []
  | S fuel' =>
      match (if bol then slide_pat_match s else None) with
      | Some (m, rest) =>
          (pos, pos + length m)
            :: slide_finditer fuel' (pos + length m)
                 (match last m with Some c => is_nl c | None => bol end) rest
      | None =>
          match s with
          | [] => []
          | c :: t => slide_finditer fuel' (S pos) (is_nl c) t
          end
      end
  end.

(** [md[a:b]]. *)
Definition slice (md : str) (a b : nat) : str := take (b - a) (drop a md).

Definition nonempty (s : str) : bool :=
  match s with [] => false | _ => true end.

Fixpoint slide_pages (md : str) (matches : list (nat * nat)) : list str :=
  match matches with
  | [] => []
  | (_, start) :: rest =>
      let end_ := match rest with
                  | (next_start, _) :: _ => next_start
                  | [] => length md
                  end in
      let body := strip (slice md start end_) in
      if nonempty body then body :: slide_pages md rest
      else slide_pages md rest
  end.

Definition _split_markdown_slides (md : str) : list str :=
  let md := strip_by is_nl md in
  if negb (nonempty md) then []
  else if rule_search md then
    omap (fun p => if nonempty (strip p) then Some (strip p) else None)
      (re_split rule_split_match (length md) [] md)
  else
    match slide_finditer (S (length md)) 0 true md with
    | [] => [strip md]
    | matches => slide_pages md matches
    end.

(** The alternatives [[-*]|[0-9]+[.)]] at the start of [s]: the text after
    the bullet. *)
Definition bullet_mark (s : str) : option str :=
  match s with
  | [] => None
  | c :: t =>
      if ((c =? 45) || (c =? 42))%N then Some t
      else
        match take_while is_ascii_digit s with
        | [] => None
        | _ =>
            match drop_while is_ascii_digit s with
            | d :: t' => if ((d =? 46) || (d =? 41))%N then Some t' else None
            | [] => None
            end
        end
  end.

(** [_bullet_pat = ^\s*([-*]|[0-9]+[.)])\s+] matched at the start of
    [line]: the text after the match. *)
Definition bullet_pat_match (line : str) : option str :=
  s1 ← bullet_mark (drop_while isspace line);
  match take_while isspace s1 with
  | [] => None
  | _ => Some (drop_while isspace s1)
  end.

Definition BULLET : char := 8226%N.

Definition _clean_md_line (line : str) : str :=
  let line := strip line in
  if startswith line (lit "#") then strip (lstrip_by is_hash line)
  else
    match bullet_pat_match line with
    | Some rest => BULLET :: 32%N :: strip rest
    | None => line
    end.

Definition not_gt (c : char) : bool := negb (c =? 62)%N.

(** [\{\{S\d+_P\d+\}\}] under [re.I] at the start of [s]: the text after
    the token. *)
Definition token_match (s : str) : option str :=
  s1 ← strip_prefix_ci (lit "{{S") s;
  match take_while isdecimal s1 with
  | [] => None
  | _ =>
      s2 ← strip_prefix_ci (lit "_P") (drop_while isdecimal s1);
      match take_while isdecimal s2 with
      | [] => None
      | _ => strip_prefix (lit "}}") (drop_while isdecimal s2)
      end
  end.

(** [bool(_placeholder_only_pat.match(text))]. *)
Definition _is_placeholder_only (text : str) : bool :=
  let s1 := drop_while isspace text in
  let s2 := match s1 with
            | c :: t => if (c =? BULLET)%N then t
                        else default s1 (bullet_mark s1)
            | [] => s1
            end in
  match token_match (drop_while isspace s2) with
  | None => false
  | Some s3 =>
      match drop_while isspace s3 with
      | [] => true
      | c :: t =>
          (c =? 60)%N && nonempty (take_while not_gt t)
          && match drop_while not_gt t with
             | _ :: after => negb (nonempty (drop_while isspace after))
             | [] => false
             end
      end
  end.

(** [tf.clear()]: one empty paragraph is left, the first one when there
    is one. *)
Definition tf_clear (tf : text_frame) : text_frame :=
  match tf with
  | p :: _ => [Paragraph [] (alignment p) (font_size p)]
  | [] => [Paragraph [] None None]
  end.

(** [s.split("\n")]. *)
Fixpoint split_nl (s : str) : list str :=
  match s with
  | [] => [[]]
  | c :: t =>
      if is_nl c then [] :: split_nl t
      else
        match split_nl t with
        | l :: ls => (c :: l) :: ls
        | [] => [[c]]
        end
  end.

(** A control character that a run of text stores escaped. *)
Definition is_escaped_ctrl (c : char) : bool :=
  ((c <=? 8) || (c =? 12) || (14 <=? c) && (c <=? 31))%N.

Definition hex_digit (n : N) : char := (if n <? 10 then 48 + n else 55 + n)%N.

(** The text of a paragraph after [para.text = s], as [para.text] reads
    it back: a newline or a vertical tab of [s] is stored as a line break
    of the paragraph, which reads as a vertical tab, and any other
    control character but the tab and the carriage return is stored as
    the text [_xHHHH_]. The characters of [s] are taken to be ones that
    an XML text can hold. *)
Definition para_text (s : str) : str :=
  concat (map (fun c =>
                 if is_nl c then [11%N]
                 else if is_escaped_ctrl c
                 then lit "_x00" ++ [hex_digit (c / 16); hex_digit (c mod 16)]
                        ++ lit "_"
                 else [c]) s).

(** [tf.text = s], also reached through [shape.text = s]: every paragraph
    of the frame is removed and a new paragraph is added for each line of
    [s]; nothing of the old paragraphs is kept, their alignment and font
    included. *)
Definition tf_set_text (tf : text_frame) (s : str) : text_frame :=
  map (fun x => Paragraph (para_text x) None None) (split_nl s).

Definition EMPTY_TEXTBOX : shape := Shape true [Paragraph [] None None].

Definition update_frame (i : nat) (f : text_frame -> text_frame) (sl : slide)
    : slide :=
  Slide (alter (fun sh => Shape (has_text_frame sh) (f (frame sh))) i
           (shapes sl))
        (title sl) (rels sl).

(** [slide.shapes.add_textbox(...)]: the new shape comes last. *)
Definition add_textbox (sl : slide) : slide :=
  Slide (shapes sl ++ [EMPTY_TEXTBOX]) (title sl) (rels sl).

(** The positions, among the shapes of the slide, of the text frames other
    than the title. *)
Definition body_frames_of (sl : slide) : list nat :=
  omap (fun '(i, sh) =>
          if has_text_frame sh && negb (bool_decide (title sl = Some i))
          then Some i else None)
       (imap pair (shapes sl)).

(** The title line written into a new text box: the text is set, then
    the first paragraph gets its font size and its alignment. *)
Definition new_title_box (first_line : str) : shape :=
  Shape true
    match tf_set_text (frame EMPTY_TEXTBOX) first_line with
    | p :: ps => Paragraph (p_text p) (Some LEFT) (Some 32) :: ps
    | [] => []
    end.

Definition frame_at (i : nat) (sl : slide) : text_frame :=
  match shapes sl !! i with
  | Some sh => frame sh
  | None => []
  end.

(** The paragraph that receives a body line: a new last one when the
    frame has text, [tf.paragraphs[0]] otherwise. *)
Definition write_body (cleaned : str) (tf : text_frame) : result text_frame :=
  if nonempty (tf_text tf)
  then Ok (tf ++ [Paragraph (para_text cleaned) None (Some 18)])
  else
    match tf with
    | p :: ps =>
        Ok (Paragraph (para_text cleaned) (alignment p) (Some 18) :: ps)
    | [] => Raise IndexError
    end.

(** The loop over [lines[1:]]; [body_frames[frame_idx]] raises when the
    index is out of range. *)
Fixpoint write_body_lines (body_frames : list nat) (lines : list str)
    (frame_idx : nat) (sl : slide) : result slide :=
  match lines with
  | [] => Ok sl
  | raw :: rest =>
      let cleaned := _clean_md_line raw in
      if _is_placeholder_only cleaned then
        write_body_lines body_frames rest (S frame_idx) sl
      else if length body_frames <=? frame_idx then
        write_body_lines body_frames rest (S frame_idx) sl
      else
        match body_frames !! frame_idx with
        | None => Raise IndexError
        | Some i =>
            match write_body cleaned (frame_at i sl) with
            | Raise e => Raise e
            | Ok tf =>
                write_body_lines body_frames rest (S frame_idx)
                  (update_frame i (fun _ => tf) sl)
            end
        end
  end.

Definition _write_page_to_slide (sl : slide) (lines : list str)
    : result slide :=
  match lines with
  | [] => Ok sl
  | line0 :: body_lines =>
      let title_tf := title sl in
      let body_frames := body_frames_of sl in
      let '(sl, body_frames) :=
        match body_frames with
        | [] => (add_textbox sl, [length (shapes sl)])
        | _ => (sl, body_frames)
        end in
      let sl := foldl (fun sl i => update_frame i tf_clear sl) sl body_frames in
      let first_line := _clean_md_line line0 in
      let sl :=
        if negb (_is_placeholder_only first_line) then
          match title_tf with
          | Some t => update_frame t (fun tf => tf_set_text tf first_line) sl
          | None =>
              Slide (shapes sl ++ [new_title_box first_line]) (title sl)
                (rels sl)
          end
        else sl in
      write_body_lines body_frames body_lines 0 sl
  end.

Record candidate_entry := CandidateEntry {
  origin : bytes;
  candidates : list bytes
}.

(** The loop of [prepare_image_candidates]; [net i] is the environment of
    the [i]-th search. The progress reports are left out. *)
Fixpoint prepare_loop (net : nat -> world) (keyword : str) (per_page : Z)
    (i : nat) (pics : list (nat * str * bytes))
    (ret : gmap (nat * str) candidate_entry)
    : gmap (nat * str) candidate_entry :=
  match pics with
  | [] => ret
  | (s_idx, r_id, blob) :: rest =>
      let cand :=
        match (unsplash_search_default (net i) keyword per_page).1 with
        | Ok c => c
        | Raise _ => []
        end in
      prepare_loop net keyword per_page (S i) rest
        (<[(s_idx, r_id) := CandidateEntry blob cand]> ret)
  end.

Definition prepare_image_candidates (net : nat -> world)
    (prs : presentation) (keyword : str) (per_page : Z)
    : gmap (nat * str) candidate_entry :=
  prepare_loop net keyword per_page 1 (extract_pictures prs) ∅.

(** [slide.part.rels[r_id].target.part.blob = new_blob]: the lookup of
    the relationship raises for an unknown [r_id], and reading [target]
    raises for a known one, so the assignment is never reached. *)
Definition _replace_picture (prs : presentation) (sl : slide) (r_id : str)
    (new_blob : bytes) : result presentation :=
  match rels sl !! r_id with
  | None => Raise KeyError
  | Some rel =>
      match rel_target rel with
      | Raise e => Raise e
      | Ok part =>
          Ok (Presentation (slides prs) (slide_layouts prs)
                (<[part := new_blob]> (parts prs)))
      end
  end.

(** [re.split(r"\n+", md)] filtered by [l.strip()]. *)
Definition page_lines (md : str) : list str :=
  List.filter (fun l => nonempty (strip l))
    (re_split (fun s => match s with
                        | c :: t => if is_nl c then Some (drop_while is_nl t)
                                    else None
                        | [] => None
                        end) (length md) [] md).

(** The loop over the pages. *)
Fixpoint write_pages (blank_layout : slide) (idx : nat) (pages : list str)
    (prs : presentation) : result presentation :=
  match pages with
  | [] => Ok prs
  | md :: rest =>
      let lines := page_lines md in
      let prs :=
        if idx - 1 <? length (slides prs) then prs
        else Presentation (slides prs ++ [blank_layout]) (slide_layouts prs)
               (parts prs) in
      match slides prs !! (idx - 1) with
      | None => Raise IndexError
      | Some sl =>
          match _write_page_to_slide sl lines with
          | Raise e => Raise e
          | Ok sl' =>
              write_pages blank_layout (S idx) rest
                (Presentation (<[idx - 1 := sl']> (slides prs))
                   (slide_layouts prs) (parts prs))
          end
      end
  end.

(** The loop over [user_choices.items()]: a falsy choice is skipped, a
    failed replacement is logged and skipped. *)
Fixpoint replace_chosen (user_choices : list (nat * str * option bytes))
    (prs : presentation) : presentation :=
  match user_choices with
  | [] => prs
  | (s_idx, r_id, Some (b :: blob)) :: rest =>
      let prs' :=
        match slides prs !! s_idx with
        | None => prs
        | Some sl =>
            match _replace_picture prs sl r_id (b :: blob) with
            | Ok p => p
            | Raise _ => prs
            end
        end in
      replace_chosen rest prs'
  | _ :: rest => replace_chosen rest prs
  end.

(** [render_ppt], the saved presentation as its result; [user_choices] is
    the dictionary as the list of its items. The progress reports and the
    file system are left out. *)
Definition render_ppt (prs : presentation) (markdown : str)
    (user_choices : list (nat * str * option bytes)) : result presentation :=
  match slide_layouts prs !! 1 with
  | None => Raise IndexError
  | Some blank_layout =>
      let pages := _split_markdown_slides markdown in
      match write_pages blank_layout 1 pages prs with
      | Raise e => Raise e
      | Ok prs => Ok (replace_chosen user_choices prs)
      end
  end.

End PptBuilder.

(** ** The placeholder codec of the specification *)

Module PlaceholderCodec.

Import Extractor PptBuilder.

(** Modelled from the spec: [parseToken], the inverse of [makeToken]. The
    repository has no parser of its own for a token (the renderer only
    recognises one with [_placeholder_only_pat], the extractor records it
    in its placeholder map); this one reads the two decimal numbers of
    [{{S<n>_P<m>}}] and fails on any other text. *)
Definition parseToken (token : str) : option (nat * nat) :=
  s1 ← strip_prefix (lit "{{S") token;
  let d1 := take_while is_ascii_digit s1 in
  s2 ← strip_prefix (lit "_P") (drop_while is_ascii_digit s1);
  let d2 := take_while is_ascii_digit s2 in
  match strip_prefix (lit "}}") (drop_while is_ascii_digit s2) with
  | Some [] =>
      if nonempty d1 && nonempty d2
         && (0 <? nat_of_digits d1) && (0 <? nat_of_digits d2)
      then Some (nat_of_digits d1 - 1, nat_of_digits d2 - 1)
      else None
  | _ => None
  end.

Definition makeToken : nat -> nat -> str := _make_ph_name.

End PlaceholderCodec.

(** ** The markdown of a slide, as the specification describes it *)

Module ExtractorSpec.

Import Extractor.

(** The characters of a shape that count: those of its paragraphs, one
    paragraph after the other, that are not newlines. *)
Definition shape_chars (sh : shape) : str :=
  concat (map (fun para =>
                 List.filter (fun c => negb (c =? 10)%N) (p_text para))
            (frame sh)).

(** A text without the white space at its end and at its start. *)
Definition trim (s : str) : str :=
  drop_while isspace (rev (drop_while isspace (rev s))).

(** The length of a shape: the characters that count, trimmed. *)
Definition shape_length (sh : shape) : nat := length (trim (shape_chars sh)).

Definition shape_tag (sh : shape) : str :=
  match frame sh with
  | para :: _ => _paragraph_align_tag para
  | [] => []
  end.

Definition shape_item (s_idx sh_idx : nat) (sh : shape) : item :=
  (_make_ph_name s_idx sh_idx, shape_length sh, shape_tag sh).

(** The items of the text shapes of a slide, in shape order; [sh_idx] is
    the position of the first shape of [shs]. *)
Fixpoint text_items (s_idx sh_idx : nat) (shs : list shape) : list item :=
  match shs with
  | [] => []
  | sh :: rest =>
      if has_text_frame sh
      then shape_item s_idx sh_idx sh :: text_items s_idx (S sh_idx) rest
      else text_items s_idx (S sh_idx) rest
  end.

(** The line of one item: a sub-heading up to ten characters, a bullet
    above. *)
Definition item_line (it : item) : str :=
  if it.1.2 <=? 10 then lit "### " ++ segment it else lit "- " ++ segment it.

Definition is_short (it : item) : bool := it.1.2 <=? SHORT_LIMIT.

Definition slide_heading (s_idx : nat) : str :=
  lit "## Slide " ++ str_of_nat (s_idx + 1).

(** The lines of one slide. *)
Definition slide_lines (s_idx : nat) (sl : slide) : list str :=
  slide_heading s_idx
    :: match text_items s_idx 0 (shapes sl) with
       | [] => [lit "(No text on this slide)" ++ [NL]]
       | its => map item_line its ++ [[]]
       end.

End ExtractorSpec.

(** ** Sample environments and inputs *)

Module Samples.

Import Extractor ImageUtils.

(** An environment without any key, in which every request fails. *)
Definition offline : world :=
  World (fun _ => None) (fun _ => None) (fun _ => None)
    (fun _ _ _ _ _ _ => Raise RequestException)
    (fun _ _ => Raise RequestException) (fun l => l).

(** An environment with a key in which the search request fails. *)
Definition failing : world :=
  World (fun _ => Some (lit "key")) (fun _ => None) (fun _ => None)
    (fun _ _ _ _ _ _ => Raise RequestException)
    (fun _ _ => Raise RequestException) (fun l => l).

End Samples.

(** ** Pictures and their keys *)

Module Pictures.

Import Extractor ImageUtils.

(** The key of a picture record. *)
Definition pic_key (p : nat * str * bytes) : nat * str := (p.1.1, p.1.2).

(** The candidates the [i]-th search contributes. *)
Definition candidates_at (net : nat -> world) (keyword : str) (per_page : Z)
    (i : nat) : list bytes :=
  match (unsplash_search_default (net i) keyword per_page).1 with
  | Ok c => c
  | Raise _ => []
  end.

(** The payload behind the relationship [r_id] of slide [s_idx]. *)
Definition picture_at (prs : presentation) (s_idx : nat) (r_id : str)
    : option bytes :=
  sl ← slides prs !! s_idx;
  rel ← rels sl !! r_id;
  Some (blob_of prs rel).

(** The package part behind the relationship [r_id] of slide [s_idx]. *)
Definition part_at (prs : presentation) (s_idx : nat) (r_id : str)
    : option nat :=
  sl ← slides prs !! s_idx;
  rel ← rels sl !! r_id;
  Some (target_part rel).

End Pictures.

(** ** The frames a page is written into *)

Module WriteSpec.

Import Extractor PptBuilder.

(** The number of body frames [_write_page_to_slide] works with: those of
    the slide, or the one it creates when the slide has none. *)
Definition available_frames (sl : slide) : nat :=
  match body_frames_of sl with
  | [] => 1
  | bf => length bf
  end.

(** Every frame of [bf] exists and has a paragraph. *)
Definition frames_ready (bf : list nat) (sl : slide) : Prop :=
  ∀ i, i ∈ bf → frame_at i sl ≠ [].

End WriteSpec.

(** ** Rendering with a choice map *)

Module RenderSpec.

Import Extractor PptBuilder Pictures.

Definition IMAGE_RELTYPE : str :=
  lit "http://schemas.openxmlformats.org/officeDocument/2006/relationships/image".

(** A slide without shapes that shows the image part 7 as [rId2]. *)
Definition picture_slide : slide :=
  Slide [] None {[ lit "rId2" := Relationship IMAGE_RELTYPE 7 ]}.

Definition blank_slide : slide := Slide [] None ∅.

(** A deck in which two slides show the same image part. *)
Definition shared_deck : presentation :=
  Presentation [picture_slide; picture_slide] [blank_slide; blank_slide]
    {[ 7 := [Byte.x01] ]}.

End RenderSpec.

(** ** Sample slides *)

Module Decks.

Import Extractor PptBuilder.

(** A slide with a title placeholder and one body text box. *)
Definition titled_slide : slide :=
  Slide [Shape true [Paragraph (lit "Title") (Some CENTER) None];
         Shape false [];
         Shape true [Paragraph (lit "A body text of some length") None None]]
        (Some 0) ∅.

Definition sample_page : list str :=
  [lit "# Overview"; lit "- first point"].

(** A text as the outline stage sees it: the title of the first slide is
    to be kept, the body is to be written. *)
Definition sample_md : str :=
  lit "## Slide 1" ++ [NL]
    ++ lit "### {{S1_P1}} <!--len:0-->" ++ [NL]
    ++ lit "- {{S1_P2}} <!--len:40-->" ++ [NL].

(** A text box of two paragraphs with white space around its text: ten
    characters count; with the newline between the paragraphs they would
    be eleven, with the spaces around them twelve. *)
Definition padded_box : shape :=
  Shape true [Paragraph (lit " Hello") None None;
              Paragraph (lit "World ") (Some RIGHT) None].

(** A slide that holds the padded box and a longer one. *)
Definition padded_slide : slide :=
  Slide [padded_box;
         Shape true [Paragraph (lit "Hello World") None None]] None ∅.

(** A deck of two slides, the second without any text shape. *)
Definition mixed_deck : presentation :=
  Presentation [titled_slide; Slide [Shape false []] None ∅] [] ∅.

End Decks.

(** ** Locked lines and their keys *)

Module LockSpec.

Import Extractor LlmClient.

(** [pat] occurs in [s]. *)
Fixpoint occurs (pat s : str) : bool :=
  startswith s pat
  || match s with
     | [] => false
     | _ :: t => occurs pat t
     end.

(** Read from its start as the unlock pattern reads it, [s] opens a lock
    span that it does not close. *)
Fixpoint span_open_from (fuel : nat) (s : str) : bool :=
  match fuel with
  | 0 => false
  | S fuel' =>
      match strip_prefix LOCK_OPEN s with
      | Some s1 =>
          match split_at_first LOCK_CLOSE s1 with
          | Some (_, rest) => span_open_from fuel' rest
          | None => true
          end
      | None =>
          match s with
          | [] => false
          | _ :: t => span_open_from fuel' t
          end
      end
  end.

Definition span_open (s : str) : bool := span_open_from (length s) s.

(** [s] is empty or ends at the end of a line. *)
Definition at_line_start (s : str) : Prop := s = [] ∨ ∃ x, s = x ++ [NL].

(** An earlier line with a zero length hint has the key of [ln]. *)
Definition repeats_key (earlier : list str) (ln : str) : bool :=
  existsb (fun li => is_zero_len li && str_eqb (dedup_key li) (dedup_key ln))
    earlier.

(** The lines that stay: a line with a zero length hint is removed when
    an earlier line with a zero length hint has the same key, every other
    line is kept. [earlier] holds the lines already passed. *)
Fixpoint first_occurrences (earlier lines : list str) : list str :=
  match lines with
  | [] => []
  | ln :: rest =>
      (if is_zero_len ln && repeats_key earlier ln then [] else [ln])
        ++ first_occurrences (earlier ++ [ln]) rest
  end.

(** The key of a line with a zero length hint. *)
Definition zero_key (ln : str) : option str :=
  if is_zero_len ln then Some (dedup_key ln) else None.

Definition zero_keys (lines : list str) : list str := omap zero_key lines.

(** The pieces of a text between its newlines, as lines with their
    newline kept: what [_split_lines_keep_eol] returns. *)
Fixpoint eol_lines (pieces : list str) : list str :=
  match pieces with
  | [] => []
  | [p] => match p with [] => [[]] | _ => [p; []] end
  | p :: ps => (p ++ [NL]) :: eol_lines ps
  end.

(** The pieces of [a ++ b] from those of [a] and [b]. *)
Fixpoint glue (xs ys : list str) : list str :=
  match xs with
  | [] => ys
  | [x] => match ys with
           | y :: ys' => (x ++ y) :: ys'
           | [] => [x]
           end
  | x :: xs' => x :: glue xs' ys
  end.

(** [seen] holds the keys of the zero-length lines passed so far. *)
Definition seen_of (earlier : list str) (seen : gset str) : Prop :=
  ∀ k, k ∈ seen ↔ ∃ li, li ∈ earlier ∧ is_zero_len li = true
                        ∧ dedup_key li = k.

(** A match attempt consumes at least one character. *)
Definition consuming (m : str → option (str * str)) : Prop :=
  ∀ s repl rest, m s = Some (repl, rest) → length rest < length s.

Definition nl_free (s : str) : Prop := forallb (fun c => negb (is_nl c)) s = true.

(** The claim that the dedup step keys on the placeholder token, for one
    text: of two lines with a zero length hint that carry the same token,
    the later one is not a line of the result. *)
Definition dedups_by_token (md : str) : Prop :=
  ∀ s i a b l1 l2,
    _split_lines_keep_eol md !! a = Some l1 →
    _split_lines_keep_eol md !! b = Some l2 →
    a < b →
    is_zero_len l1 = true → is_zero_len l2 = true →
    occurs (_make_ph_name s i) l1 = true →
    occurs (_make_ph_name s i) l2 = true →
    l2 ∉ _split_lines_keep_eol (_unlock_and_dedup md [] false).

(** The claim of the lock round trip, for one text: every locked line is
    a line of the unlocked result. *)
Definition locked_lines_survive (md : str) : Prop :=
  ∀ idx origin,
    (idx, origin) ∈ (_lock_zero_len_lines md).2 →
    origin ∈ map (rstrip_by is_nl)
               (_split_lines_keep_eol
                  (_unlock_and_dedup (_lock_zero_len_lines md).1
                     (_lock_zero_len_lines md).2 false)).

(** The claim of idempotence, for one text and flag. *)
Definition dedup_idempotent_at (md : str) (strip_len_tag : bool) : Prop :=
  ∀ zero,
    _unlock_and_dedup (_unlock_and_dedup md zero strip_len_tag) zero
      strip_len_tag
    = _unlock_and_dedup md zero strip_len_tag.

End LockSpec.

(** ** Locking and unlocking line by line *)

Module LockLines.

Import LlmClient LockSpec.

(** What [_lock_zero_len_lines] makes of one line. *)
Definition lockify (ln : str) : str :=
  if is_zero_len ln then lock_line (rstrip_by is_nl ln) else ln.

(** What unlocking makes of a locked line: a locked line always ends in a
    newline. *)
Definition relined (ln : str) : str :=
  if is_zero_len ln then rstrip_by is_nl ln ++ [NL] else ln.

Definition ends_nl (ln : str) : Prop := ∃ x, ln = x ++ [NL].

(** A list of lines of one text: every line is free of newlines but for
    one that ends it, and a line without it is the last one that is not
    empty. *)
Fixpoint lines_ok (lines : list str) : Prop :=
  match lines with
  | [] => True
  | l :: rest =>
      (∃ p, nl_free p ∧ (l = p ++ [NL] ∨ (l = p ∧ concat rest = [])))
      ∧ lines_ok rest
  end.

(** The pieces between the newlines of the text of [lines] once the white
    space at its end is removed: the lines without their newline, up to
    the last line that is not blank, which loses the white space at its
    end. *)
Fixpoint rstrip_lines (lines : list str) : list str :=
  match lines with
  | [] => []
  | l :: rest =>
      match rstrip_lines rest with
      | [] => match rstrip l with [] => [] | r => [r] end
      | after => rstrip_by is_nl l :: after
      end
  end.

(** The line carries the key [k] of a line with a zero length hint. *)
Definition carries_key (k ln : str) : bool :=
  is_zero_len ln && str_eqb (dedup_key ln) k.

End LockLines.

(** ** The extracted markdown as blocks of lines *)

Module SlideText.

Import Extractor ExtractorSpec PptBuilder.

Definition NOTEXT : str := lit "(No text on this slide)".

(** The lines between the heading of a slide and the blank line that ends
    it. *)
Definition core_lines (s_idx : nat) (sl : slide) : list str :=
  match text_items s_idx 0 (shapes sl) with
  | [] => [NOTEXT]
  | its => map item_line its
  end.

(** A block: the heading of a slide and its core lines. *)
Definition block_of (s_idx : nat) (sl : slide) : str * list str :=
  (slide_heading s_idx, core_lines s_idx sl).

Definition block_text (b : str * list str) : str :=
  b.1 ++ NL :: join [NL] b.2.

(** The blocks of a text, a blank line between two of them. *)
Fixpoint text_of_blocks (bs : list (str * list str)) : str :=
  match bs with
  | [] => []
  | [b] => block_text b
  | b :: bs' => block_text b ++ NL :: NL :: text_of_blocks bs'
  end.

(** The matches of the slide pattern in the text of the blocks that
    starts at offset [pos]. *)
Fixpoint matches_of (pos : nat) (bs : list (str * list str))
    : list (nat * nat) :=
  match bs with
  | [] => []
  | b :: bs' =>
      (pos, pos + length b.1)
        :: matches_of (pos + length (block_text b) + 2) bs'
  end.

(** A core line: the marker of a slide without text, or the line of an
    item whose placeholder the extractor made. *)
Definition core_line (l : str) : Prop :=
  l = NOTEXT
  ∨ ∃ s i ln tag, l = item_line (_make_ph_name s i, ln, tag)
                  ∧ (tag = [] ∨ tag = lit "<div align='center'>"
                     ∨ tag = lit "<div align='right'>").

Definition block_ok (b : str * list str) : Prop :=
  (∃ k, b.1 = slide_heading k) ∧ b.2 ≠ [] ∧ Forall core_line b.2.

(** No match of the slide pattern starts at the start of [l], whatever
    follows. *)
Definition plain (l : str) : Prop := ∀ r, slide_pat_match (l ++ r) = None.

(** A text without a dash before a newline. *)
Definition dash_nl_free (s : str) : Prop :=
  ∀ pre post, s ≠ pre ++ 45%N :: NL :: post.

End SlideText.

(** ** modules/md_utils.py and the calls of modules/llm_client.py *)

Module LlmCalls.

Import LlmClient.

(** [c in chars], the character set of [str.lstrip(chars)]. *)
Definition in_chars (chars : str) (c : char) : bool :=
  existsb (N.eqb c) chars.

(** [s.split(sep, maxsplit)] for a non-empty [sep]. *)
Fixpoint split_max (sep : str) (maxsplit : nat) (s : str) : list str :=
  match maxsplit with
  | 0 => [s]
  | S n =>
      match split_at_first sep s with
      | Some (before, rest) => before :: split_max sep n rest
      | None => [s]
      end
  end.

Definition FENCE : str := lit "```".

(** md_utils.py: [fence_md]. *)
Definition fence_md (txt : str) : str :=
  lit "```md" ++ [NL] ++ txt ++ [NL] ++ FENCE.

Definition _strip_md_fence (text : str) : str :=
  if startswith text FENCE then
    match split_max FENCE 2 text with
    | _ :: inner :: _ :: _ =>
        rstrip (lstrip_by is_nl
                  (lstrip_by isspace
                     (lstrip_by (in_chars (lit "markdown")) inner)))
    | _ => strip text
    end
  else strip text.

(** What a call raises: an [LLMError] with its message and type, the
    [KeyError] of a prompt dictionary without the key, or the [TypeError]
    of an [except] clause that names a class which is no exception
    class. *)
Inductive failure :=
  | LLMError (message type : str)
  | PromptKeyError (key : str)
  | TypeError.

Inductive outcome (A : Type) :=
  | Done (a : A)
  | Failed (e : failure).

Arguments Done {A} a.
Arguments Failed {A} e.

(** What one call of [client.chat.completions.create] does: it returns a
    response, given by the [message.content] of its choices, or it raises
    a [RateLimitError], another [APIError] (a timed out request is one),
    or some other exception, each with its message. *)
Inductive reply :=
  | Completion (contents : list (option str))
  | RateLimited (msg : str)
  | ApiFailure (msg : str)
  | OtherFailure (msg : str).

(** The classes the [except] clauses name. [cls_Timeout] is the class that
    [from openai import Timeout] binds in the versions of the library
    that have [OpenAI], which the module imports first: the timeout
    configuration of the HTTP client, not an exception class. *)
Inductive exc_class :=
  | cls_RateLimitError
  | cls_Timeout
  | cls_APIError
  | cls_Exception.

Definition is_exception_class (c : exc_class) : bool :=
  match c with
  | cls_Timeout => false
  | _ => true
  end.

(** An exception raised inside the [try]: its class and [str(e)]. *)
Inductive exc_kind := RateLimitKind | ApiKind | OtherKind.

Definition raised := (exc_kind * str)%type.

Definition isinstance (e : raised) (c : exc_class) : bool :=
  match e.1, c with
  | _, cls_Exception => true
  | (RateLimitKind | ApiKind), cls_APIError => true
  | RateLimitKind, cls_RateLimitError => true
  | _, _ => false
  end.

(** An [except] clause is tried on a raised exception: every class of its
    tuple has to be an exception class, whatever was raised, or else the
    clause itself raises [TypeError] ([None]); only then is the exception
    compared with the classes. *)
Definition except_matches (classes : list exc_class) (e : raised)
    : option bool :=
  if forallb is_exception_class classes
  then Some (existsb (isinstance e) classes)
  else None.

(** The body of the [try]: the request, then
    [_strip_md_fence(resp.choices[0].message.content or "")]; a response
    without choices raises [IndexError]. *)
Definition try_body (r : reply) : str + raised :=
  match r with
  | Completion [] => inr (OtherKind, lit "list index out of range")
  | Completion (content :: _) => inl (_strip_md_fence (default [] content))
  | RateLimited msg => inr (RateLimitKind, msg)
  | ApiFailure msg => inr (ApiKind, msg)
  | OtherFailure msg => inr (OtherKind, msg)
  end.

Inductive llm_event :=
  | Create (api_key base_url model sys_prompt usr_prompt : str)
  | Sleep (secs : nat).

(** The environment of a call: the process environment, the configuration
    file as [config.get] reads it, and the reply to the [n]-th request. *)
Record llm_world := LlmWorld {
  os_getenv : str -> option str;
  config_get : str -> option str;
  create : str -> str -> str -> str -> str -> nat -> reply
}.

Definition truthy (v : option str) : option str :=
  match v with
  | Some (c :: t) => Some (c :: t)
  | _ => None
  end.

(** "缺少 " and "，请在配置中填写". *)
Definition MISSING_PRE : str := [32570; 23569; 32]%N.
Definition MISSING_POST : str :=
  [65292; 35831; 22312; 37197; 32622; 20013; 22635; 20889]%N.

Definition _ensure_key (w : llm_world) (key_name : str) : outcome str :=
  match truthy (os_getenv w (upper key_name)) with
  | Some val => Done val
  | None =>
      match truthy (config_get w key_name) with
      | Some val => Done val
      | None =>
          Failed (LLMError (MISSING_PRE ++ key_name ++ MISSING_POST)
                    (lit "MissingKey"))
      end
  end.

Definition is_slash (c : char) : bool := (c =? 47)%N.

Definition _ensure_base_url (w : llm_world) : str :=
  rstrip_by is_slash
    (default (lit "https://api.deepseek.com/v1")
       (os_getenv w (lit "LLM_BASE_URL"))).

(** "接口限流/超时，达到最大重试次数". *)
Definition RATE_MSG : str :=
  [25509; 21475; 38480; 27969; 47; 36229; 26102; 65292; 36798; 21040;
   26368; 22823; 37325; 35797; 27425; 25968]%N.

(** "达到最大重试次数仍失败". *)
Definition MAX_RETRY_MSG : str :=
  [36798; 21040; 26368; 22823; 37325; 35797; 27425; 25968; 20173; 22833;
   36133]%N.

(** The loop [for attempt in range(1, retries + 1)] from [attempt] on,
    with [remaining] iterations left. The [except] clauses are tried in
    their order on what the body raised; the last one names [Exception],
    which every exception of the body is. The temperature and the stream
    flag of the request are constants and are left out, as is the message
    printed before a retry. *)
Fixpoint attempts (w : llm_world) (api_key base_url model sys_prompt
    usr_prompt : str) (retries : Z) (remaining attempt : nat)
    (log : list llm_event) : outcome str * list llm_event :=
  match remaining with
  | 0 => (Failed (LLMError MAX_RETRY_MSG (lit "MaxRetryError")), log)
  | S remaining' =>
      let log := log ++ [Create api_key base_url model sys_prompt usr_prompt] in
      match
        try_body
          (create w api_key base_url model sys_prompt usr_prompt attempt)
      with
      | inl text => (Done text, log)
      | inr e =>
          match except_matches [cls_RateLimitError; cls_Timeout] e with
          | None => (Failed TypeError, log)
          | Some true =>
              if (retries <=? Z.of_nat attempt)%Z
              then (Failed (LLMError RATE_MSG (lit "RateLimit/Timeout")), log)
              else attempts w api_key base_url model sys_prompt usr_prompt
                     retries remaining' (S attempt)
                     (log ++ [Sleep (2 ^ attempt)])
          | Some false =>
              match except_matches [cls_APIError] e with
              | None => (Failed TypeError, log)
              | Some true => (Failed (LLMError e.2 (lit "APIError")), log)
              | Some false =>
                  match except_matches [cls_Exception] e with
                  | None => (Failed TypeError, log)
                  | Some _ =>
                      (Failed (LLMError e.2 (lit "UnexpectedError")), log)
                  end
              end
          end
      end
  end.

Definition _chat_completion (w : llm_world) (sys_prompt usr_prompt : str)
    (retries : Z) (model : str) : outcome str * list llm_event :=
  match _ensure_key w (lit "llm_key") with
  | Failed e => (Failed e, [])
  | Done api_key =>
      attempts w api_key (_ensure_base_url w) model sys_prompt usr_prompt
        retries (Z.to_nat retries) 1 []
  end.

(** The call with the defaults of the signature. *)
Definition chat (w : llm_world) (sys_prompt usr_prompt : str)
    : outcome str * list llm_event :=
  _chat_completion w sys_prompt usr_prompt 3 (lit "deepseek-chat").

(** "你是一名", "，擅长撰写" and the rest of the system prompt of
    [gen_outline]. *)
Definition OUTLINE_1 : str := [20320; 26159; 19968; 21517]%N.
Definition OUTLINE_2 : str := [65292; 25797; 38271; 25776; 20889]%N.
Definition OUTLINE_3 : str :=
  [30340; 22823; 32434; 12290; 10; 25152; 26377; 34987; 32; 60; 33; 45;
   45; 76; 79; 67; 75; 45; 45; 62; 32; 21253; 35065; 30340; 34892; 26080;
   38656; 22635; 20805; 65292; 24517; 39035; 21407; 26679; 20445; 30041;
   65307; 20854; 20182; 21344; 20301; 31526; 35831; 26367; 25442; 20026;
   23567; 26631; 39064; 65292; 20445; 25345; 32; 77; 97; 114; 107; 100;
   111; 119; 110; 32; 23618; 32423; 19982; 39034; 24207; 19968; 33268;
   12290]%N.

(** "主题：". *)
Definition TOPIC_PRE : str := [20027; 39064; 65306]%N.

(** The system prompt of [gen_content]. *)
Definition CONTENT_SYS : str :=
  [20320; 26159; 19968; 21517; 36164; 28145; 28436; 31034; 31295; 25776;
   20889; 21161; 25163; 12290; 10; 35268; 21017; 65306; 10; 49; 46; 32;
   76; 79; 67; 75; 32; 21253; 35065; 34892; 20445; 25345; 19981; 21464;
   59; 10; 50; 46; 32; 20854; 23427; 34892; 23614; 32; 60; 33; 45; 45;
   108; 101; 110; 58; 120; 45; 45; 62; 32; 20026; 38271; 24230; 25552;
   31034; 44; 32; 29983; 25104; 32; 120; 177; 50; 48; 37; 32; 23383;
   25968; 27491; 25991; 59; 10; 51; 46; 32; 36755; 20986; 19981; 24471;
   21547; 32; 76; 79; 67; 75; 32; 25110; 32; 60; 33; 45; 45; 108; 101;
   110; 58; 120; 45; 45; 62; 32; 27880; 37322; 65292; 20294; 24517; 39035;
   20445; 30041; 21407; 21344; 20301; 31526; 34892; 12290]%N.

Definition usr_prompt_of (topic locked : str) : str :=
  TOPIC_PRE ++ topic ++ [NL; NL] ++ fence_md locked.

(** [gen_outline]; the prompts are a dictionary of strings. The outline
    is also printed, which is left out. *)
Definition gen_outline (w : llm_world) (template_md : str)
    (prompts : gmap str str) : outcome str * list llm_event :=
  let '(locked, zero_lines) := _lock_zero_len_lines template_md in
  match prompts !! lit "ai_role" with
  | None => (Failed (PromptKeyError (lit "ai_role")), [])
  | Some ai_role =>
      match prompts !! lit "report_type" with
      | None => (Failed (PromptKeyError (lit "report_type")), [])
      | Some report_type =>
          let sys_prompt :=
            OUTLINE_1 ++ ai_role ++ OUTLINE_2 ++ report_type ++ OUTLINE_3 in
          match prompts !! lit "topic" with
          | None => (Failed (PromptKeyError (lit "topic")), [])
          | Some topic =>
              match chat w sys_prompt (usr_prompt_of topic locked) with
              | (Failed e, log) => (Failed e, log)
              | (Done raw, log) =>
                  (Done (_unlock_and_dedup raw zero_lines false), log)
              end
          end
      end
  end.

Definition gen_content (w : llm_world) (outline_md : str)
    (prompts : gmap str str) : outcome str * list llm_event :=
  let '(locked, zero_lines) := _lock_zero_len_lines outline_md in
  match prompts !! lit "topic" with
  | None => (Failed (PromptKeyError (lit "topic")), [])
  | Some topic =>
      match chat w CONTENT_SYS (usr_prompt_of topic locked) with
      | (Failed e, log) => (Failed e, log)
      | (Done raw, log) => (Done (_unlock_and_dedup raw zero_lines true), log)
      end
  end.

End LlmCalls.

(** ** The requests of a chat completion *)

Module LlmCallSpec.

Import LlmCalls.

(** What a call makes of the reply to its first request: the unfenced
    content of the first choice, or [TypeError] when the request or the
    reading of the response raised anything. *)
Definition reply_outcome (r : reply) : outcome str :=
  match r with
  | Completion (content :: _) => Done (_strip_md_fence (default [] content))
  | _ => Failed TypeError
  end.

Definition is_request (e : llm_event) : bool :=
  match e with
  | Create _ _ _ _ _ => true
  | Sleep _ => false
  end.

(** The number of requests in a log. *)
Definition requests (log : list llm_event) : nat :=
  length (List.filter is_request log).

(** An environment with a key in which the first two requests are rate
    limited and the third is answered with a fenced text. *)
Definition busy : llm_world :=
  LlmWorld
    (fun name => if str_eqb name (lit "LLM_KEY") then Some (lit "sk-1")
                 else None)
    (fun _ => None)
    (fun _ _ _ _ _ n =>
       if n <=? 2 then RateLimited (lit "Error code: 429")
       else Completion [Some (lit "```md" ++ [NL] ++ lit "# Plan" ++ [NL]
                                ++ lit "```")]).

(** An environment with a key in which every request is rate limited. *)
Definition throttled : llm_world :=
  LlmWorld (fun _ => None)
    (fun name => if str_eqb name (lit "llm_key") then Some (lit "sk-2")
                 else None)
    (fun _ _ _ _ _ _ => RateLimited (lit "Error code: 429")).

(** An environment with a key in which every request is answered with a
    fenced text. *)
Definition answering : llm_world :=
  LlmWorld
    (fun name => if str_eqb name (lit "LLM_KEY") then Some (lit "sk-3")
                 else None)
    (fun _ => None)
    (fun _ _ _ _ _ _ =>
       Completion [Some (lit "```md" ++ [NL] ++ lit "# Plan" ++ [NL]
                           ++ lit "```")]).

(** An environment whose only key is an empty value in the configuration;
    requests would be answered. *)
Definition keyless : llm_world :=
  LlmWorld (fun _ => None)
    (fun name => if str_eqb name (lit "llm_key") then Some [] else None)
    (fun _ _ _ _ _ _ => Completion [Some (lit "# Plan")]).

End LlmCallSpec.

(** ** List markers *)

Module MarkdownSpec.

Import PptBuilder.

(** A list marker: a dash, a star, or a number followed by a dot or a
    closing parenthesis. *)
Definition is_marker (m : str) : bool :=
  match m with
  | [c] => ((c =? 45) || (c =? 42))%N
  | _ => false
  end
  || match take_while is_ascii_digit m, drop_while is_ascii_digit m with
     | _ :: _, [d] => ((d =? 46) || (d =? 41))%N
     | _, _ => false
     end.

(** The three alignment tags of an item. *)
Definition is_align_tag (tag : str) : bool :=
  str_eqb tag [] || str_eqb tag (lit "<div align='center'>")
  || str_eqb tag (lit "<div align='right'>").

(** What may follow the token of a placeholder-only text: white space,
    then nothing, or one tag in angle brackets and white space. *)
Definition tag_or_nothing (rest : str) : bool :=
  match drop_while isspace rest with
  | [] => true
  | c :: t =>
      (c =? 60)%N && nonempty (take_while not_gt t)
      && match drop_while not_gt t with
         | _ :: after => negb (nonempty (drop_while isspace after))
         | [] => false
         end
  end.

(** The alignment tag of an item as its line shows it. *)
Definition tag_part (tag : str) : str :=
  match tag with
  | [] => []
  | _ => lit " " ++ tag
  end.

(** The length hint of an item. *)
Definition len_hint (ln : nat) : str :=
  lit "<!--len:" ++ str_of_nat ln ++ lit "-->".

End MarkdownSpec.

(** ** The lines of a page *)

Module PageSpec.

Import PptBuilder.

(** A line as [render_ppt] passes it on: it holds no newline and is not
    blank. *)
Definition page_line (l : str) : bool :=
  forallb (fun c => negb (is_nl c)) l && nonempty (strip l).

End PageSpec.

(** ** What writing a page keeps of a slide *)

Module SlideSpec.

Import Extractor PptBuilder.

(** [sl'] has the title position and the relationships of [sl] and, in
    their places, the shapes of [sl]: each still with or without a text
    frame, and a shape without a text frame that is not the title
    unchanged. *)
Definition keeps_shapes (sl sl' : slide) : Prop :=
  title sl' = title sl ∧ rels sl' = rels sl
  ∧ ∀ i sh, shapes sl !! i = Some sh →
      ∃ sh', shapes sl' !! i = Some sh'
             ∧ has_text_frame sh' = has_text_frame sh
             ∧ (has_text_frame sh = false → title sl ≠ Some i → sh' = sh).

(** Every position of [bf] holds a shape with a text frame. *)
Definition text_frames (bf : list nat) (sl : slide) : Prop :=
  ∀ i, i ∈ bf → ∃ sh, shapes sl !! i = Some sh ∧ has_text_frame sh = true.

(** Cleaned, the line is a placeholder that is not to be written. *)
Definition placeholder_line (l : str) : bool :=
  _is_placeholder_only (_clean_md_line l).

End SlideSpec.

(** ** The downloads of a search *)

Module ImageSpec.

Import ImageUtils.

(** The three parameters are among the accepted values, in any case. *)
Definition valid_params (orientation size order_by : str) : bool :=
  mem (lower orientation) ["landscape"; "portrait"; "squarish"]%string
  && mem (lower size) ["small"; "regular"; "full"]%string
  && mem (lower order_by) ["latest"; "relevant"]%string.

(** The address of a result has the size asked for, and its download
    succeeds or fails as a request does. *)
Definition fetchable (w : world) (size : str) (timeout : Z) (item : photo)
    : bool :=
  match item size with
  | None => false
  | Some img_url =>
      match image_get w img_url timeout with
      | Ok _ | Raise RequestException => true
      | Raise _ => false
      end
  end.

(** The content of the results whose download succeeds, in the order of
    the results. *)
Definition fetched (w : world) (size : str) (timeout : Z)
    (results : list photo) : list bytes :=
  omap (fun item : photo =>
          match item size with
          | None => None
          | Some img_url =>
              match image_get w img_url timeout with
              | Ok content => Some content
              | Raise _ => None
              end
          end) results.

(** The requests of the downloads. *)
Definition fetches (size : str) (results : list photo) : list event :=
  omap (fun item : photo => HttpGet <$> item size) results.

(** An environment with a key in which the search finds two pictures,
    the first of which cannot be downloaded; the shuffle reverses. *)
Definition online : world :=
  World (fun _ => Some (lit "key")) (fun _ => None) (fun _ => None)
    (fun _ _ _ _ _ _ =>
       Ok [fun _ => Some (lit "u1"); fun _ => Some (lit "u2")])
    (fun url _ => if str_eqb url (lit "u1") then Raise RequestException
                  else Ok [Byte.x02])
    (@rev bytes).

End ImageSpec.

(** ** Pages between rules *)

Module RuleSpec.

Import PptBuilder.

(** A rule on a line of its own, as it stands between two pages. *)
Definition RULE : str := NL :: lit "---" ++ [NL].

(** A match of [\n?---+\n] starts at the start of [s]. *)
Definition rule_at (s : str) : bool :=
  match rule_start s with
  | Some (c :: _) => is_nl c
  | _ => false
  end.

(** A page that is not blank and in which, a newline put after it, no
    rule is found. *)
Definition plain_page (p : str) : bool :=
  nonempty (strip p) && negb (rule_search (p ++ [NL])).

End RuleSpec.

(** * Properties *)

Import Extractor LlmClient ImageUtils PptBuilder PlaceholderCodec.

(** ** Text primitives *)

Section TextFacts.

Implicit Types (s t pre : str) (c : char) (p : char -> bool).

Lemma strip_prefix_app pre s : strip_prefix pre (pre ++ s) = Some s.
Proof.
  induction pre as [|x pre IH]; simpl; [done|].
  by rewrite N.eqb_refl.
Qed.

Lemma strip_prefix_refl pre : strip_prefix pre pre = Some [].
Proof. rewrite <- (app_nil_r pre) at 2. apply strip_prefix_app. Qed.

Lemma strip_prefix_Some pre s r : strip_prefix pre s = Some r -> s = pre ++ r.
Proof.
  revert s; induction pre as [|x pre IH]; intros [|c s]; simpl; try congruence.
  destruct (N.eqb_spec x c); [|done].
  intros H; apply IH in H; by subst.
Qed.

Lemma strip_prefix_ci_app pre s :
  Forall (fun x => ci_eq x x = true) pre ->
  strip_prefix_ci pre (pre ++ s) = Some s.
Proof.
  induction 1 as [|x pre Hx _ IH]; simpl; [done|]. by rewrite Hx.
Qed.

Lemma take_while_app p s t :
  forallb p s = true -> hd_error t ≫= (fun c => Some (p c)) ≠ Some true ->
  take_while p (s ++ t) = s.
Proof.
  intros Hs Ht; induction s as [|c s IH]; simpl in *.
  - destruct t as [|c t]; simpl in *; [done|]. by destruct (p c).
  - apply andb_prop in Hs as [-> Hs]. by rewrite IH.
Qed.

Lemma drop_while_app p s t :
  forallb p s = true -> hd_error t ≫= (fun c => Some (p c)) ≠ Some true ->
  drop_while p (s ++ t) = t.
Proof.
  intros Hs Ht; induction s as [|c s IH]; simpl in *.
  - destruct t as [|c t]; simpl in *; [done|]. by destruct (p c).
  - apply andb_prop in Hs as [-> Hs]. by rewrite IH.
Qed.

Lemma take_drop_while {A} (p : A -> bool) (s : list A) :
  take_while p s ++ drop_while p s = s.
Proof.
  induction s as [|c s IH]; simpl; [done|].
  destruct (p c); simpl; [by f_equal|done].
Qed.

Lemma forallb_take_while p s : forallb p (take_while p s) = true.
Proof.
  induction s as [|c s IH]; simpl; [done|].
  destruct (p c) eqn:E; simpl; [by rewrite E|done].
Qed.

Lemma rstrip_by_nil_iff p s : rstrip_by p s = [] ↔ forallb p s = true.
Proof.
  induction s as [|c s IH]; cbn [rstrip_by forallb]; [done|].
  destruct (rstrip_by p s) eqn:E.
  - destruct (p c); cbn [andb]; [tauto|]. split; [done|discriminate].
  - split; [done|]. intros [_ H]%andb_prop. apply IH in H. discriminate.
Qed.

Lemma rstrip_by_app_ws p (a w : str) :
  forallb p w = true → rstrip_by p (a ++ w) = rstrip_by p a.
Proof.
  intros Hw; induction a as [|c a IH]; cbn [app rstrip_by].
  - by apply rstrip_by_nil_iff.
  - by rewrite IH.
Qed.

Lemma rstrip_by_app_keep p (a b : str) :
  rstrip_by p b ≠ [] → rstrip_by p (a ++ b) = a ++ rstrip_by p b.
Proof.
  intros Hb; induction a as [|c a IH]; cbn [app rstrip_by]; [done|].
  rewrite IH. destruct a; [|done]. cbn [app]. by destruct (rstrip_by p b).
Qed.

Lemma rstrip_by_split p s :
  ∃ w, forallb p w = true ∧ s = rstrip_by p s ++ w.
Proof.
  induction s as [|c s (w & Hw & IH)]; cbn [rstrip_by]; [by exists []|].
  destruct (rstrip_by p s) as [|d r] eqn:E.
  - cbn [app] in IH. subst s. destruct (p c) eqn:Hc.
    + exists (c :: w). cbn [forallb]. by rewrite Hc, Hw.
    + by exists w.
  - exists w. split; [done|]. cbn [app]. by rewrite IH at 1.
Qed.

Lemma rstrip_by_idem p s : rstrip_by p (rstrip_by p s) = rstrip_by p s.
Proof.
  destruct (rstrip_by_split p s) as (w & Hw & E).
  rewrite E at 2. by rewrite rstrip_by_app_ws.
Qed.

Lemma rstrip_by_snoc p (a : str) c :
  p c = false → rstrip_by p (a ++ [c]) = a ++ [c].
Proof.
  intros Hc. rewrite rstrip_by_app_keep; cbn [rstrip_by]; by rewrite Hc.
Qed.

Lemma rstrip_by_last p s c : last (rstrip_by p s) = Some c → p c = false.
Proof.
  revert c; induction s as [|x s IH]; intros c; cbn [rstrip_by]; [done|].
  destruct (rstrip_by p s) as [|d r] eqn:E.
  - destruct (p x) eqn:Hx; [done|]. by intros [= <-].
  - intros H. apply IH. by destruct r.
Qed.

Lemma rstrip_by_keep p s :
  (∀ c, last s = Some c → p c = false) → rstrip_by p s = s.
Proof.
  destruct s as [|x s _] using rev_ind; [done|]. intros H.
  apply rstrip_by_snoc, H, last_snoc.
Qed.

(** [rstrip] is [lstrip] on the reversed text. *)
Lemma rstrip_by_rev p s : rstrip_by p s = rev (drop_while p (rev s)).
Proof.
  destruct (rstrip_by_split p s) as (w & Hw & E).
  rewrite E at 2. rewrite rev_app_distr.
  rewrite drop_while_app, rev_involutive; [done| |].
  { apply forallb_forall. intros y Hy%in_rev.
    by apply (proj1 (forallb_forall _ _) Hw). }
  pose proof (rstrip_by_last p s) as Hl.
  destruct (rstrip_by p s) as [|x r _] using rev_ind; [done|].
  rewrite rev_app_distr. cbn. rewrite (Hl x); [done|apply last_snoc].
Qed.

(** A text between two runs of white space, with none at its own ends,
    is what trimming leaves. *)
Lemma strip_by_core p (a core b : str) :
  forallb p a = true → forallb p b = true →
  (∀ c, head core = Some c → p c = false) →
  (∀ c, last core = Some c → p c = false) →
  strip_by p (a ++ core ++ b) = core.
Proof.
  intros Ha Hb Hh Hl. unfold strip_by, lstrip_by.
  rewrite app_assoc, rstrip_by_app_ws by done.
  destruct core as [|x core].
  - rewrite app_nil_r.
    rewrite (proj2 (rstrip_by_nil_iff p a) Ha). done.
  - rewrite rstrip_by_app_keep; rewrite rstrip_by_keep by done; [|done].
    apply drop_while_app; [done|]. cbn. by rewrite (Hh x).
Qed.

Lemma drop_while_head p s c t : drop_while p s = c :: t -> p c = false.
Proof.
  induction s as [|x s IH]; simpl; [done|].
  destruct (p x) eqn:E; [done|]. by intros [= <- <-].
Qed.

(** Decimal numerals. *)

Lemma uint_codes_digits d : forallb is_ascii_digit (uint_codes d) = true.
Proof. induction d; simpl; auto. Qed.

Lemma codes_uint_codes d : codes_uint (uint_codes d) = d.
Proof. induction d; simpl; congruence. Qed.

Lemma to_uint_nonnil n : Nat.to_uint n ≠ Nil.
Proof.
  rewrite <- (DecimalNat.Unsigned.of_to n) at 1.
  rewrite DecimalNat.Unsigned.to_of. unfold unorm.
  by destruct (nzhead (Nat.to_uint n)).
Qed.

Lemma str_of_nat_digits n : forallb is_ascii_digit (str_of_nat n) = true.
Proof. apply uint_codes_digits. Qed.

Lemma str_of_nat_nonempty n : str_of_nat n ≠ [].
Proof.
  unfold str_of_nat. pose proof (to_uint_nonnil n) as H.
  by destruct (Nat.to_uint n).
Qed.

Lemma nat_of_digits_str n : nat_of_digits (str_of_nat n) = n.
Proof.
  unfold nat_of_digits, str_of_nat.
  by rewrite codes_uint_codes, DecimalNat.Unsigned.of_to.
Qed.

Lemma ascii_digit_decimal c : is_ascii_digit c = true -> isdecimal c = true.
Proof.
  unfold is_ascii_digit, isdecimal; intros H; simpl.
  apply andb_prop in H as [H1 H2].
  apply N.leb_le in H1, H2.
  replace (48 <=? c)%N with true by (symmetry; by apply N.leb_le).
  replace (c <? 48 + 10)%N with true by (symmetry; apply N.ltb_lt; lia).
  done.
Qed.

Lemma forallb_impl p (q : char -> bool) s :
  (forall c, p c = true -> q c = true) ->
  forallb p s = true -> forallb q s = true.
Proof.
  intros Hpq; induction s as [|c s IH]; simpl; [done|].
  intros [H1 H2]%andb_prop. by rewrite (Hpq _ H1), IH.
Qed.

Lemma str_of_nat_decimal n : forallb isdecimal (str_of_nat n) = true.
Proof.
  eapply forallb_impl; [apply ascii_digit_decimal|apply str_of_nat_digits].
Qed.

End TextFacts.

(** ** Placeholder tokens *)

Section Placeholder.

Lemma parseToken_make s i : parseToken (_make_ph_name s i) = Some (s, i).
Proof.
  unfold parseToken, _make_ph_name.
  rewrite strip_prefix_app; cbn [mbind option_bind].
  rewrite take_while_app, drop_while_app, strip_prefix_app;
    try apply str_of_nat_digits; try done; cbn [mbind option_bind].
  rewrite take_while_app, drop_while_app, strip_prefix_refl;
    try apply str_of_nat_digits; try done.
  rewrite !nat_of_digits_str.
  destruct (str_of_nat (s + 1)) eqn:E1; [by apply str_of_nat_nonempty in E1|].
  destruct (str_of_nat (i + 1)) eqn:E2; [by apply str_of_nat_nonempty in E2|].
  cbn [nonempty andb].
  replace (0 <? s + 1) with true by (symmetry; apply Nat.ltb_lt; lia).
  replace (0 <? i + 1) with true by (symmetry; apply Nat.ltb_lt; lia).
  cbn [andb]. do 2 f_equal; lia.
Qed.

Lemma token_match_make s i rest :
  token_match (_make_ph_name s i ++ rest) = Some rest.
Proof.
  unfold token_match, _make_ph_name.
  rewrite <- !app_assoc.
  rewrite strip_prefix_ci_app by (repeat constructor); cbn [mbind option_bind].
  rewrite take_while_app, drop_while_app; try apply str_of_nat_decimal; try done.
  destruct (str_of_nat (s + 1)) eqn:E1; [by apply str_of_nat_nonempty in E1|].
  rewrite strip_prefix_ci_app by (repeat constructor); cbn [mbind option_bind].
  rewrite take_while_app, drop_while_app; try apply str_of_nat_decimal; try done.
  destruct (str_of_nat (i + 1)) eqn:E2; [by apply str_of_nat_nonempty in E2|].
  by rewrite strip_prefix_app.
Qed.

Lemma is_placeholder_only_brace r :
  token_match (123%N :: r) = Some [] ->
  _is_placeholder_only (123%N :: r) = true.
Proof.
  intros H. unfold _is_placeholder_only.
  change (drop_while isspace (123%N :: r)) with (123%N :: r).
  cbv beta iota zeta.
  change (123 =? BULLET)%N with false. cbv iota.
  change (bullet_mark (123%N :: r)) with (@None str).
  change (default (123%N :: r) None) with (123%N :: r).
  change (drop_while isspace (123%N :: r)) with (123%N :: r).
  by rewrite H.
Qed.

Lemma is_placeholder_only_make s i :
  _is_placeholder_only (_make_ph_name s i) = true.
Proof.
  pose proof (token_match_make s i []) as H. rewrite app_nil_r in H.
  revert H. unfold _make_ph_name.
  change (lit "{{S" ++ ?r) with (123%N :: (123%N :: 83%N :: r)).
  apply is_placeholder_only_brace.
Qed.

(** C1. Parsing the token made for slide [s] and shape [i] gives back
    [(s, i)]; so two tokens are equal only for the same slide and shape, and
    the pattern of the renderer accepts every token the extractor makes. *)
Theorem placeholder_token_round_trip (s i : nat) :
  parseToken (makeToken s i) = Some (s, i)
  ∧ (∀ s' i', makeToken s i = makeToken s' i' → s = s' ∧ i = i')
  ∧ _is_placeholder_only (_make_ph_name s i) = true.
Proof.
  unfold makeToken. split; [apply parseToken_make|split].
  - intros s' i' Heq.
    pose proof (parseToken_make s i) as H1.
    rewrite Heq, parseToken_make in H1. by injection H1 as -> ->.
  - apply is_placeholder_only_make.
Qed.

End Placeholder.

(** ** Extraction *)

Section Extraction.

Import ExtractorSpec.

Implicit Types (items : list item) (shs : list shape).

(** Removing the newlines of the text of a frame leaves the characters
    of its paragraphs that are not newlines. *)
Lemma remove_newlines_join (xs : list str) :
  remove_newlines (join [NL] xs)
  = concat (map (List.filter (fun c => negb (c =? 10)%N)) xs).
Proof.
  unfold remove_newlines.
  induction xs as [|x [|y xs] IH]; [done|by cbn; rewrite app_nil_r|].
  change (join [NL] (x :: y :: xs)) with (x ++ [NL] ++ join [NL] (y :: xs)).
  rewrite !List.filter_app, IH. done.
Qed.

Lemma strip_trim (s : str) : strip s = trim s.
Proof. unfold strip, strip_by, lstrip_by, trim. by rewrite rstrip_by_rev. Qed.

Lemma shape_length_spec sh :
  length (strip (remove_newlines (tf_text (frame sh)))) = shape_length sh.
Proof.
  unfold shape_length, shape_chars, tf_text.
  by rewrite remove_newlines_join, strip_trim, map_map.
Qed.

Lemma collect_items_spec s_idx sh_idx shs items ph_map :
  (collect_items s_idx sh_idx shs items ph_map).1
  = items ++ text_items s_idx sh_idx shs.
Proof.
  revert sh_idx items ph_map; induction shs as [|sh shs IH];
    intros sh_idx items ph_map; simpl.
  - by rewrite app_nil_r.
  - destruct (has_text_frame sh); simpl.
    + rewrite IH, <- app_assoc, shape_length_spec. done.
    + apply IH.
Qed.

(** The inner loop takes the longest run of short items. *)
Lemma short_block_spec rest block j :
  short_block rest block j
  = (block ++ map segment (take_while is_short rest),
     j + length (take_while is_short rest)).
Proof.
  revert block j; induction rest as [|it rest IH]; intros block j; simpl.
  - by rewrite app_nil_r, Nat.add_0_r.
  - change (it.1.2 <=? SHORT_LIMIT) with (is_short it).
    destruct (is_short it); simpl.
    + rewrite IH, <- app_assoc. simpl. f_equal. lia.
    + by rewrite app_nil_r, Nat.add_0_r.
Qed.

Lemma item_line_short it : is_short it = true -> item_line it = lit "### " ++ segment it.
Proof. unfold is_short, item_line, SHORT_LIMIT. by intros ->. Qed.

Lemma item_line_long it : is_short it = false -> item_line it = lit "- " ++ segment it.
Proof. unfold is_short, item_line, SHORT_LIMIT. by intros ->. Qed.

Lemma map_item_line_short l :
  forallb is_short l = true ->
  map (fun seg => lit "### " ++ seg) (map segment l) = map item_line l.
Proof.
  induction l as [|it l IH]; cbn [map forallb]; [done|].
  intros [H1 H2]%andb_prop. by rewrite item_line_short, IH.
Qed.

Lemma forallb_list_take_while (l : list item) :
  forallb is_short (take_while is_short l) = true.
Proof.
  induction l as [|it l IH]; simpl; [done|].
  destruct (is_short it) eqn:E; simpl; [by rewrite E|done].
Qed.

Lemma take_while_drop_length (l : list item) :
  drop (length (take_while is_short l)) l = drop_while is_short l.
Proof.
  induction l as [|it l IH]; simpl; [done|].
  destruct (is_short it); simpl; done.
Qed.

(** The two nested loops emit one line per item, in order. *)
Lemma emit_items_spec fuel items i md_lines :
  length items - i <= fuel ->
  emit_items fuel items i md_lines
  = md_lines ++ map item_line (drop i items).
Proof.
  revert i md_lines; induction fuel as [|fuel IH]; intros i md_lines Hf.
  - simpl. rewrite drop_ge by lia. by rewrite app_nil_r.
  - cbn [emit_items]. destruct (items !! i) as [it|] eqn:Hi.
    + pose proof (lookup_lt_Some _ _ _ Hi) as Hlt.
      assert (Hd : drop i items = it :: drop (S i) items)
        by (by apply drop_S).
      fold (is_short it). destruct (is_short it) eqn:Hs.
      * rewrite short_block_spec. cbn [app].
        set (run := take_while is_short (drop i items)).
        assert (Hrun : 0 < length run).
        { unfold run. rewrite Hd. simpl. rewrite Hs. simpl. lia. }
        assert (Hlen : length run <= length (drop i items)).
        { pose proof (f_equal length (take_drop_while is_short (drop i items)))
            as Hl.
          rewrite length_app in Hl. fold run in Hl. lia. }
        rewrite length_drop in Hlen.
        rewrite IH by lia.
        rewrite <- app_assoc. f_equal.
        rewrite map_item_line_short by apply forallb_list_take_while.
        rewrite <- map_app. f_equal.
        assert (Hrest : drop (i + length run) items = drop_while is_short (drop i items)).
        { unfold run. rewrite <- take_while_drop_length. by rewrite drop_drop. }
        rewrite Hrest. fold run. unfold run. by rewrite take_drop_while.
      * rewrite IH by lia. rewrite <- app_assoc. f_equal.
        rewrite Hd. cbn [map app]. by rewrite item_line_long.
    + apply lookup_ge_None in Hi. rewrite drop_ge by lia.
      by rewrite app_nil_r.
Qed.

Lemma extract_slide_lines s_idx sl md_lines ph_map :
  (extract_slide s_idx sl (md_lines, ph_map)).1
  = md_lines ++ slide_lines s_idx sl.
Proof.
  unfold extract_slide, slide_lines.
  pose proof (collect_items_spec s_idx 0 (shapes sl) [] ph_map) as Hc.
  destruct (collect_items s_idx 0 (shapes sl) [] ph_map) as [items pm].
  cbn [fst app] in Hc. rewrite <- Hc.
  destruct items as [|it items]; cbn [fst].
  - by rewrite <- app_assoc.
  - rewrite emit_items_spec by lia. rewrite drop_0.
    rewrite <- !app_assoc. done.
Qed.

(** C8. The characters of a shape that count are those of its
    paragraphs, one paragraph after the other, that are not newlines:
    the newlines between the paragraphs and inside them are removed.
    Whenever these characters are white space, a text [core] that neither
    starts nor ends with white space, and white space again, the length of
    the shape is the length of [core]. The lines of a slide are its
    heading followed by one line per text shape in shape order, a [###]
    sub-heading when that length is at most 10 and a [- ] bullet when it
    is more, so that adjacent short shapes give adjacent sub-headings. *)
Theorem short_text_classification (s_idx : nat) (sl : slide)
    (md_lines : list str) (ph_map : PlaceholderMap) :
  SHORT_LIMIT = 10
  ∧ (extract_slide s_idx sl (md_lines, ph_map)).1
    = md_lines ++ slide_lines s_idx sl
  ∧ (∀ sh_idx sh a core b,
       shapes sl !! sh_idx = Some sh → has_text_frame sh = true →
       concat (map (fun para =>
                      List.filter (fun c => negb (c =? 10)%N) (p_text para))
                 (frame sh))
       = a ++ core ++ b →
       forallb isspace a = true → forallb isspace b = true →
       (∀ c, head core = Some c → isspace c = false) →
       (∀ c, last core = Some c → isspace c = false) →
       let it := (_make_ph_name s_idx sh_idx, length core, shape_tag sh) in
       it ∈ text_items s_idx 0 (shapes sl)
       ∧ item_line it
         = (if length core <=? 10 then lit "### " else lit "- ")
             ++ segment it).
Proof.
  split; [done|]. split; [apply extract_slide_lines|].
  intros sh_idx sh a core b Hsh Htf Hdec Ha Hb Hh Hl it.
  assert (Hlen : shape_length sh = length core).
  { unfold shape_length, shape_chars. rewrite Hdec, <- strip_trim.
    unfold strip. by rewrite strip_by_core. }
  split.
  - assert (G : ∀ shs k j, shs !! j = Some sh →
               shape_item s_idx (k + j) sh ∈ text_items s_idx k shs).
    { induction shs as [|x shs IH]; intros k j Hj; [done|].
      destruct j as [|j]; simpl in *.
      - injection Hj as ->. rewrite Htf, Nat.add_0_r. left.
      - replace (k + S j) with (S k + j) by lia.
        destruct (has_text_frame x); [right|]; by apply IH. }
    pose proof (G _ 0 _ Hsh) as Hin. unfold shape_item in Hin.
    by rewrite Hlen in Hin.
  - unfold item_line. subst it. simpl. by destruct (_ <=? 10).
Qed.

End Extraction.

(** ** Image search *)

Section ImageSearch.

(** C10. When the effective page size ([limit] when it is given,
    [per_page] otherwise) is zero or negative, [unsplash_search] returns
    the empty list whatever the environment and whatever the orientation,
    size and order parameters are, and it observes nothing: no key source
    is read and no request is made. *)
Theorem unsplash_search_nonpositive (w : world) (query : str)
    (per_page : Z) (limit : option Z) (orientation size order_by : str)
    (timeout : Z) :
  (match limit with Some l => l | None => per_page end <= 0)%Z →
  unsplash_search w query per_page limit orientation size order_by timeout
  = (Ok [], []).
Proof.
  intros H. unfold unsplash_search.
  by rewrite (proj2 (Z.leb_le _ _) H).
Qed.

End ImageSearch.

Section ImageSearchExamples.

Import Samples.

Lemma unsplash_search_nonpositive_witness :
  unsplash_search offline (lit "cat") 3 (Some 0%Z) (lit "diagonal")
    (lit "huge") (lit "oldest") 8 = (Ok [], []).
Proof. apply unsplash_search_nonpositive. simpl. lia. Defined.

(** With a positive page size the same parameters are refused. *)
Example unsplash_search_invalid_orientation :
  unsplash_search offline (lit "cat") 3 None (lit "diagonal") (lit "huge")
    (lit "oldest") 8 = (Raise UnsplashError, []).
Proof. reflexivity. Qed.

(** Without a key the search is skipped after the key sources were read. *)
Example unsplash_search_without_key :
  (unsplash_search_default offline (lit "cat") 3).1 = Ok [].
Proof. reflexivity. Qed.

Example unsplash_search_failing :
  (unsplash_search_default failing (lit "cat") 3).1 = Raise UnsplashError.
Proof. reflexivity. Qed.

End ImageSearchExamples.

(** ** Image candidates *)

Section ImageCandidates.

Import Pictures.

Implicit Types (pics : list (nat * str * bytes)) (prs : presentation).

Lemma picture_of_Some prs s_idx x p :
  picture_of prs s_idx x = Some p → pic_key p = (s_idx, x.1).
Proof.
  destruct x as [r rel]. unfold picture_of.
  destruct (endswith (reltype rel) (lit "/image")); [|done].
  by intros [= <-].
Qed.

Lemma slide_pictures_idx prs s_idx sl p :
  p ∈ slide_pictures prs s_idx sl → p.1.1 = s_idx.
Proof.
  unfold slide_pictures. rewrite list_elem_of_omap.
  intros (x & _ & H). apply picture_of_Some in H.
  unfold pic_key in H. by injection H.
Qed.

Lemma omap_cons {A B} (f : A → option B) (x : A) (l : list A) :
  omap f (x :: l)
  = match f x with Some y => y :: omap f l | None => omap f l end.
Proof. done. Qed.

Lemma omap_keys_NoDup prs s_idx (l : list (str * relationship)) :
  NoDup l.*1 → NoDup (map pic_key (omap (picture_of prs s_idx) l)).
Proof.
  induction l as [|x l IH]; [constructor|].
  rewrite fmap_cons, omap_cons. intros [Hr Hl]%NoDup_cons.
  destruct (picture_of prs s_idx x) as [p|] eqn:Hp; [|by apply IH].
  cbn [map]. apply NoDup_cons. split; [|by apply IH].
  intros Hin. apply Hr.
  apply list_elem_of_fmap in Hin as (q & Hk & Hin).
  apply list_elem_of_omap in Hin as (y & Hin' & Hq).
  apply picture_of_Some in Hp, Hq. rewrite Hp, Hq in Hk.
  injection Hk as ->. apply list_elem_of_fmap. by exists y.
Qed.

Lemma slide_pictures_NoDup prs s_idx sl :
  NoDup (map pic_key (slide_pictures prs s_idx sl)).
Proof. apply omap_keys_NoDup, NoDup_fst_map_to_list. Qed.

Lemma pictures_from_NoDup prs (k : nat) (sls : list slide) :
  NoDup (map pic_key
           (concat (imap (fun i => slide_pictures prs (k + i)) sls)))
  ∧ ∀ p, p ∈ concat (imap (fun i => slide_pictures prs (k + i)) sls) →
         k <= p.1.1.
Proof.
  revert k; induction sls as [|sl sls IH]; intros k; cbn [imap concat map].
  - split; [constructor|]. intros p Hp. by apply elem_of_nil in Hp.
  - destruct (IH (S k)) as [IH1 IH2].
    assert (E : imap ((fun i => slide_pictures prs (k + i)) ∘ S) sls
                = imap (fun i => slide_pictures prs (S k + i)) sls).
    { apply imap_ext. intros i x _. cbn. f_equal. lia. }
    rewrite E. split.
    + rewrite map_app. apply NoDup_app. split; [apply slide_pictures_NoDup|].
      split; [|done]. intros key H1 H2.
      apply list_elem_of_fmap in H1 as (p1 & -> & H1).
      apply list_elem_of_fmap in H2 as (p2 & Hk & H2).
      apply slide_pictures_idx in H1. apply IH2 in H2.
      unfold pic_key in Hk. injection Hk as Hk _. lia.
    + intros p [Hp|Hp]%elem_of_app.
      * apply slide_pictures_idx in Hp. lia.
      * apply IH2 in Hp. lia.
Qed.

Lemma extract_pictures_NoDup prs :
  NoDup (map pic_key (extract_pictures prs)).
Proof. apply (pictures_from_NoDup prs 0). Qed.

Lemma prepare_loop_other net keyword per_page i pics ret key :
  key ∉ map pic_key pics →
  prepare_loop net keyword per_page i pics ret !! key = ret !! key.
Proof.
  revert i ret; induction pics as [|[[s r] b] pics IH]; intros i ret Hk;
    cbn [prepare_loop]; [done|].
  cbn [map] in Hk. apply not_elem_of_cons in Hk as [Hne Hk].
  rewrite IH by done. by apply lookup_insert_ne.
Qed.

Lemma prepare_loop_lookup net keyword per_page i pics ret j s r b :
  NoDup (map pic_key pics) →
  pics !! j = Some (s, r, b) →
  prepare_loop net keyword per_page i pics ret !! (s, r)
  = Some (CandidateEntry b (candidates_at net keyword per_page (i + j))).
Proof.
  revert i ret j; induction pics as [|[[s0 r0] b0] pics IH];
    intros i ret j Hnd Hj; [done|].
  cbn [map] in Hnd. apply NoDup_cons in Hnd as [Hnotin Hnd].
  cbn [prepare_loop]. destruct j as [|j]; cbn in Hj.
  - injection Hj as -> -> ->.
    rewrite prepare_loop_other by done.
    rewrite lookup_insert_eq, Nat.add_0_r. done.
  - rewrite (IH (S i) _ j) by done. do 3 f_equal. lia.
Qed.

Lemma prepare_loop_dom net keyword per_page i pics ret :
  dom (prepare_loop net keyword per_page i pics ret)
  = list_to_set (map pic_key pics) ∪ dom ret.
Proof.
  revert i ret; induction pics as [|[[s r] b] pics IH]; intros i ret;
    cbn [prepare_loop map].
  - rewrite list_to_set_nil. by rewrite (left_id_L ∅ (∪)).
  - rewrite IH, dom_insert_L, list_to_set_cons.
    rewrite !(assoc_L (∪)). f_equal. apply (comm_L (∪)).
Qed.

(** C6. The result has exactly the keys of the picture records of the
    deck, one entry per record; the entry of a record holds its original
    bytes; and when a search raises, the entry is there with an empty
    candidate list, so when every search raises all entries are. *)
Theorem image_candidates_complete (net : nat → world) (prs : presentation)
    (keyword : str) (per_page : Z) :
  let ret := prepare_image_candidates net prs keyword per_page in
  let pics := extract_pictures prs in
  dom ret = list_to_set (map pic_key pics)
  ∧ size ret = length pics
  ∧ (∀ j s r b, pics !! j = Some (s, r, b) →
       ret !! (s, r)
       = Some (CandidateEntry b (candidates_at net keyword per_page (S j)))
       ∧ ((∃ e log, unsplash_search_default (net (S j)) keyword per_page
                    = (Raise e, log)) →
          ret !! (s, r) = Some (CandidateEntry b [])))
  ∧ ((∀ i, ∃ e log, unsplash_search_default (net i) keyword per_page
                    = (Raise e, log)) →
     ∀ s r b, (s, r, b) ∈ pics → ret !! (s, r) = Some (CandidateEntry b [])).
Proof.
  intros ret pics. pose proof (extract_pictures_NoDup prs) as Hnd.
  assert (Hdom : dom ret = list_to_set (map pic_key pics)).
  { unfold ret, prepare_image_candidates. rewrite prepare_loop_dom.
    rewrite dom_empty_L. apply (right_id_L ∅ (∪)). }
  assert (Hlk : ∀ j s r b, pics !! j = Some (s, r, b) →
            ret !! (s, r)
            = Some (CandidateEntry b
                      (candidates_at net keyword per_page (S j)))).
  { intros j s r b Hj. unfold ret, prepare_image_candidates.
    by rewrite (prepare_loop_lookup _ _ _ 1 _ _ j s r b Hnd Hj). }
  assert (Hraise : ∀ i, (∃ e log,
            unsplash_search_default (net i) keyword per_page = (Raise e, log))
            → candidates_at net keyword per_page i = []).
  { intros i (e & log & He). unfold candidates_at. by rewrite He. }
  split; [done|]. split.
  - rewrite <- size_dom, Hdom, size_list_to_set by done.
    by rewrite length_map.
  - split.
    + intros j s r b Hj. split; [by apply Hlk|].
      intros He. rewrite (Hlk _ _ _ _ Hj). by rewrite Hraise.
    + intros Hall s r b Hin.
      apply list_elem_of_lookup in Hin as [j Hj].
      rewrite (Hlk _ _ _ _ Hj). by rewrite Hraise.
Qed.

End ImageCandidates.

(** ** Writing a page *)

Section WritePage.

Import WriteSpec.

Implicit Types (sl : slide) (bf : list nat) (lines : list str).

Lemma frame_at_update i j f sl :
  frame_at j (update_frame i f sl)
  = if decide (j = i)
    then match shapes sl !! i with Some sh => f (frame sh) | None => [] end
    else frame_at j sl.
Proof.
  unfold frame_at, update_frame; cbn [shapes].
  case_decide as Hij.
  - subst j. rewrite list_lookup_alter_eq. by destruct (shapes sl !! i).
  - by rewrite list_lookup_alter_ne.
Qed.

Lemma frame_at_update_nonempty i j f sl :
  (∀ tf, f tf ≠ []) → frame_at j sl ≠ [] →
  frame_at j (update_frame i f sl) ≠ [].
Proof.
  intros Hf Hj. rewrite frame_at_update. case_decide as Hij; [|done].
  subst j. unfold frame_at in Hj. by destruct (shapes sl !! i).
Qed.

Lemma frames_ready_update i f bf sl :
  (∀ tf, f tf ≠ []) → frames_ready bf sl →
  frames_ready bf (update_frame i f sl).
Proof. intros Hf H j Hj. apply frame_at_update_nonempty; auto. Qed.

Lemma frame_at_app j sl extra :
  frame_at j sl ≠ [] →
  frame_at j (Slide (shapes sl ++ extra) (title sl) (rels sl)) = frame_at j sl.
Proof.
  unfold frame_at; cbn [shapes]. intros H.
  destruct (shapes sl !! j) as [sh|] eqn:E; [|done].
  by rewrite (lookup_app_l_Some _ _ _ _ E).
Qed.

Lemma tf_clear_nonempty tf : tf_clear tf ≠ [].
Proof. by destruct tf. Qed.

Lemma split_nl_nonempty s : split_nl s ≠ [].
Proof.
  induction s as [|c s IH]; cbn [split_nl]; [done|].
  destruct (is_nl c); [done|]. by destruct (split_nl s).
Qed.

Lemma tf_set_text_nonempty s tf : tf_set_text tf s ≠ [].
Proof.
  unfold tf_set_text. pose proof (split_nl_nonempty s).
  by destruct (split_nl s).
Qed.

Lemma write_body_ok cleaned tf :
  tf ≠ [] → ∃ tf', write_body cleaned tf = Ok tf' ∧ tf' ≠ [].
Proof.
  intros H. unfold write_body. destruct (nonempty (tf_text tf)).
  - eexists; split; [done|]. by destruct tf.
  - destruct tf; [done|]. by eexists.
Qed.

(** The body loop never raises on ready frames. *)
Lemma write_body_lines_ok bf lines k sl :
  frames_ready bf sl → ∃ sl', write_body_lines bf lines k sl = Ok sl'.
Proof.
  revert k sl; induction lines as [|raw lines IH]; intros k sl Hr;
    cbn [write_body_lines]; [by eexists|].
  destruct (_is_placeholder_only (_clean_md_line raw)); [by apply IH|].
  destruct (length bf <=? k) eqn:Hk; [by apply IH|].
  apply Nat.leb_gt in Hk.
  destruct (lookup_lt_is_Some_2 bf k Hk) as [i Hi]. rewrite Hi.
  assert (Hin : i ∈ bf) by (apply list_elem_of_lookup; eauto).
  destruct (write_body_ok (_clean_md_line raw) _ (Hr i Hin))
    as (tf' & -> & Hne).
  apply IH. by apply frames_ready_update.
Qed.

(** Once the index has passed the last frame, no line is written. *)
Lemma write_body_lines_past bf lines k sl :
  length bf <= k → write_body_lines bf lines k sl = Ok sl.
Proof.
  revert k; induction lines as [|raw lines IH]; intros k Hk;
    cbn [write_body_lines]; [done|].
  destruct (_is_placeholder_only (_clean_md_line raw)); [apply IH; lia|].
  rewrite (proj2 (Nat.leb_le _ _) Hk). apply IH; lia.
Qed.

Lemma write_body_lines_app bf l1 l2 k sl :
  write_body_lines bf (l1 ++ l2) k sl
  = match write_body_lines bf l1 k sl with
    | Ok sl' => write_body_lines bf l2 (k + length l1) sl'
    | Raise e => Raise e
    end.
Proof.
  revert k sl; induction l1 as [|raw l1 IH]; intros k sl;
    cbn [write_body_lines app length].
  - by rewrite Nat.add_0_r.
  - replace (k + S (length l1)) with (S k + length l1) by lia.
    destruct (_is_placeholder_only (_clean_md_line raw)); [apply IH|].
    destruct (length bf <=? k); [apply IH|].
    destruct (bf !! k); [|done].
    destruct (write_body _ _); [apply IH|done].
Qed.

Lemma write_body_lines_excess bf lines extra k sl :
  length bf <= k + length lines →
  write_body_lines bf (lines ++ extra) k sl = write_body_lines bf lines k sl.
Proof.
  intros H. rewrite write_body_lines_app.
  destruct (write_body_lines bf lines k sl); [|done].
  by apply write_body_lines_past.
Qed.

Lemma body_frames_of_lookup sl i :
  i ∈ body_frames_of sl → is_Some (shapes sl !! i).
Proof.
  unfold body_frames_of. rewrite list_elem_of_omap.
  intros ([j sh] & Hin & H).
  apply elem_of_lookup_imap in Hin as (j' & sh' & Heq & Hl).
  injection Heq as -> ->.
  destruct (has_text_frame sh' && _); [|done]. injection H as <-. eauto.
Qed.

Lemma clear_all_ready bf sl j :
  is_Some (shapes sl !! j) →
  j ∈ bf ∨ frame_at j sl ≠ [] →
  frame_at j (foldl (fun sl i => update_frame i tf_clear sl) sl bf) ≠ [].
Proof.
  revert sl; induction bf as [|i bf IH]; intros sl Hj H; cbn [foldl].
  - destruct H as [H|H]; [by apply elem_of_nil in H|done].
  - apply IH.
    + unfold update_frame; cbn [shapes].
      destruct (decide (j = i)) as [->|Hne].
      * rewrite list_lookup_alter_eq. destruct Hj as [x ->]. by eexists.
      * by rewrite list_lookup_alter_ne.
    + destruct (decide (j = i)) as [->|Hne].
      * right. rewrite frame_at_update, decide_True by done.
        destruct Hj as [x ->]. apply tf_clear_nonempty.
      * destruct H as [[?|H]%elem_of_cons|H]; [done|by left|right].
        by rewrite frame_at_update, decide_False.
Qed.

(** The frames are ready when the body loop starts. *)
Lemma write_page_ready sl :
  let bf := body_frames_of sl in
  let '(sl1, bf1) :=
    match bf with
    | [] => (add_textbox sl, [length (shapes sl)])
    | _ => (sl, bf)
    end in
  length bf1 = available_frames sl
  ∧ frames_ready bf1 (foldl (fun sl i => update_frame i tf_clear sl) sl1 bf1).
Proof.
  intros bf. unfold available_frames. fold bf.
  destruct bf as [|i0 bf'] eqn:E.
  - split; [done|]. intros j Hj. apply list_elem_of_singleton in Hj as ->.
    apply clear_all_ready; [|left; apply list_elem_of_singleton; done].
    unfold add_textbox; cbn [shapes]. rewrite lookup_app_r by lia.
    rewrite Nat.sub_diag. by eexists.
  - split; [done|]. intros j Hj. apply clear_all_ready; [|by left].
    apply body_frames_of_lookup. fold bf. by rewrite E.
Qed.

Lemma write_page_unfold sl (line0 : str) :
  ∃ bf sl2, length bf = available_frames sl ∧ frames_ready bf sl2
    ∧ ∀ ls, _write_page_to_slide sl (line0 :: ls)
            = write_body_lines bf ls 0 sl2.
Proof.
  pose proof (write_page_ready sl) as H. cbv zeta in H.
  unfold _write_page_to_slide.
  destruct (match body_frames_of sl with
            | [] => (add_textbox sl, [length (shapes sl)])
            | _ => (sl, body_frames_of sl)
            end) as [sl1 bf1] eqn:E.
  destruct H as [Hlen Hr].
  set (sl1c := foldl (fun sl i => update_frame i tf_clear sl) sl1 bf1) in *.
  destruct (negb (_is_placeholder_only (_clean_md_line line0))) eqn:Hp.
  - destruct (title sl) as [t|] eqn:Ht.
    + exists bf1, (update_frame t
                    (fun tf => tf_set_text tf (_clean_md_line line0)) sl1c).
      split; [done|]. split; [|done].
      apply frames_ready_update; [|done].
      intros tf. apply tf_set_text_nonempty.
    + exists bf1,
        (Slide (shapes sl1c ++ [new_title_box (_clean_md_line line0)])
           (title sl1c) (rels sl1c)).
      split; [done|]. split; [|done].
      intros j Hj. rewrite frame_at_app; by apply Hr.
  - by exists bf1, sl1c.
Qed.

(** Writing a page never raises. *)
Lemma write_page_ok sl lines : ∃ sl', _write_page_to_slide sl lines = Ok sl'.
Proof.
  destruct lines as [|line0 ls]; [by eexists|].
  destruct (write_page_unfold sl line0) as (bf & sl2 & _ & Hr & ->).
  by apply write_body_lines_ok.
Qed.

(** C9. Writing a page never raises, so no frame index out of range is
    ever used; and once the title line and one line per available body
    frame have been given, further lines are dropped: the slide is the
    same with and without them. *)
Theorem excess_lines_dropped (sl : slide) (lines extra : list str) :
  S (available_frames sl) <= length lines →
  (∃ sl', _write_page_to_slide sl (lines ++ extra) = Ok sl')
  ∧ _write_page_to_slide sl (lines ++ extra) = _write_page_to_slide sl lines.
Proof.
  intros Hlen. split; [apply write_page_ok|].
  destruct lines as [|line0 ls]; [cbn in Hlen; lia|].
  destruct (write_page_unfold sl line0) as (bf & sl2 & Hbf & _ & Hw).
  rewrite <- app_comm_cons, !Hw.
  apply write_body_lines_excess. cbn in Hlen. lia.
Qed.

End WritePage.

(** ** Rendering *)

Section Render.

Import Pictures RenderSpec WriteSpec.

Implicit Types (prs : presentation) (sl : slide)
  (choices : list (nat * str * option bytes)).

Lemma update_frame_rels i f sl : rels (update_frame i f sl) = rels sl.
Proof. done. Qed.

Lemma write_body_lines_rels bf lines k sl sl' :
  write_body_lines bf lines k sl = Ok sl' → rels sl' = rels sl.
Proof.
  revert k sl; induction lines as [|raw lines IH]; intros k sl;
    cbn [write_body_lines]; [by intros [= <-]|].
  destruct (_is_placeholder_only (_clean_md_line raw)); [apply IH|].
  destruct (length bf <=? k); [apply IH|].
  destruct (bf !! k); [|done].
  destruct (write_body _ _); [|done].
  intros H. by apply IH in H.
Qed.

Lemma foldl_clear_rels bf sl :
  rels (foldl (fun sl i => update_frame i tf_clear sl) sl bf) = rels sl.
Proof. revert sl; induction bf as [|i bf IH]; intros sl; cbn; [done|]. by rewrite IH. Qed.

Lemma write_page_rels sl lines sl' :
  _write_page_to_slide sl lines = Ok sl' → rels sl' = rels sl.
Proof.
  destruct lines as [|line0 ls]; [by intros [= <-]|].
  unfold _write_page_to_slide.
  destruct (match body_frames_of sl with
            | [] => (add_textbox sl, [length (shapes sl)])
            | _ => (sl, body_frames_of sl)
            end) as [sl1 bf1] eqn:E.
  assert (H1 : rels sl1 = rels sl).
  { destruct (body_frames_of sl); by injection E as <- <-. }
  intros H. apply write_body_lines_rels in H. rewrite H.
  destruct (negb _); [|by rewrite foldl_clear_rels].
  destruct (title sl); cbn [rels]; by rewrite ?update_frame_rels, foldl_clear_rels.
Qed.

(** Writing the pages keeps the parts and the relationships of the slides
    of the template, and raises nothing. *)
Lemma write_pages_frame blank idx pages prs :
  idx - 1 <= length (slides prs) →
  ∃ prs1, write_pages blank idx pages prs = Ok prs1
    ∧ parts prs1 = parts prs
    ∧ ∀ s sl, slides prs !! s = Some sl →
        ∃ sl1, slides prs1 !! s = Some sl1 ∧ rels sl1 = rels sl.
Proof.
  revert idx prs; induction pages as [|md pages IH]; intros idx prs Hidx;
    cbn [write_pages].
  - exists prs. eauto.
  - set (prs0 := if idx - 1 <? length (slides prs) then prs
                 else Presentation (slides prs ++ [blank]) (slide_layouts prs)
                        (parts prs)).
    assert (Hlt : idx - 1 < length (slides prs0)).
    { unfold prs0. destruct (idx - 1 <? length (slides prs)) eqn:E.
      - by apply Nat.ltb_lt.
      - cbn. rewrite length_app. cbn. lia. }
    assert (Hparts : parts prs0 = parts prs).
    { unfold prs0. by destruct (_ <? _). }
    assert (Hsl : ∀ s sl, slides prs !! s = Some sl → slides prs0 !! s = Some sl).
    { unfold prs0. destruct (_ <? _); [done|]. cbn. intros s sl H.
      by apply lookup_app_l_Some. }
    destruct (lookup_lt_is_Some_2 _ _ Hlt) as [sl0 Hsl0]. rewrite Hsl0.
    destruct (write_page_ok sl0 (page_lines md)) as [sl' Hw]. rewrite Hw.
    apply write_page_rels in Hw.
    destruct (IH (S idx)
                (Presentation (<[idx - 1 := sl']> (slides prs0))
                   (slide_layouts prs0) (parts prs0)))
      as (prs1 & Hr & Hp & Hs).
    { cbn. rewrite length_insert. lia. }
    exists prs1. split; [done|]. split; [by rewrite Hp|].
    intros s sl H. apply Hsl in H.
    destruct (decide (s = idx - 1)) as [->|Hne].
    + destruct (Hs (idx - 1) sl') as (sl1 & H1 & H2).
      { cbn. by apply list_lookup_insert_eq. }
      exists sl1. split; [done|]. rewrite H2, Hw. congruence.
    + destruct (Hs s sl) as (sl1 & H1 & H2).
      { cbn. by rewrite list_lookup_insert_ne. }
      eauto.
Qed.

(** No replacement is ever carried out: the deck is the same after the
    loop over the choices. *)
Lemma replace_chosen_id choices prs : replace_chosen choices prs = prs.
Proof.
  revert prs; induction choices as [|[[s r] [[|b c]|]] choices IH];
    intros prs; cbn [replace_chosen]; try done.
  rewrite IH. destruct (slides prs !! s) as [sl|]; [|done].
  unfold _replace_picture. by destruct (rels sl !! r).
Qed.

Lemma replace_chosen_slides choices prs :
  slides (replace_chosen choices prs) = slides prs.
Proof. by rewrite replace_chosen_id. Qed.

Lemma part_at_slides prs prs' s r :
  slides prs' = slides prs → part_at prs' s r = part_at prs s r.
Proof. unfold part_at. by intros ->. Qed.

(** An entry that maps its key to [None] is the same as no entry. *)
Lemma replace_chosen_None l1 l2 s r prs :
  replace_chosen (l1 ++ (s, r, None) :: l2) prs = replace_chosen (l1 ++ l2) prs.
Proof.
  revert prs; induction l1 as [|[[s' r'] [[|b c]|]] l1 IH]; intros prs;
    cbn [replace_chosen app]; by rewrite ?IH.
Qed.

Lemma slide_pictures_elem prs s sl r b :
  (s, r, b) ∈ slide_pictures prs s sl →
  ∃ rel, rels sl !! r = Some rel ∧ b = blob_of prs rel.
Proof.
  unfold slide_pictures. rewrite list_elem_of_omap.
  intros ([r' rel] & Hin & H). unfold picture_of in H.
  destruct (endswith (reltype rel) (lit "/image")); [|done].
  injection H as <- <-. apply elem_of_map_to_list in Hin. eauto.
Qed.

Lemma elem_of_concat {A} (x : A) (ls : list (list A)) :
  x ∈ concat ls ↔ ∃ l, l ∈ ls ∧ x ∈ l.
Proof.
  rewrite list_elem_of_In, in_concat.
  split; intros (l & H1 & H2); exists l; by rewrite ?list_elem_of_In in *.
Qed.

Lemma extract_pictures_elem prs s r b :
  (s, r, b) ∈ extract_pictures prs →
  ∃ sl rel, slides prs !! s = Some sl ∧ rels sl !! r = Some rel
            ∧ b = blob_of prs rel.
Proof.
  unfold extract_pictures. rewrite elem_of_concat.
  intros (l & Hl & Hin).
  apply elem_of_lookup_imap in Hl as (i & sl & -> & Hi).
  pose proof (slide_pictures_idx _ _ _ _ Hin) as Hs. cbn in Hs. subst i.
  apply slide_pictures_elem in Hin as (rel & Hr & ->). eauto.
Qed.

Lemma render_ppt_None prs markdown l1 l2 s r :
  render_ppt prs markdown (l1 ++ (s, r, None) :: l2)
  = render_ppt prs markdown (l1 ++ l2).
Proof.
  unfold render_ppt. destruct (slide_layouts prs !! 1); [|done].
  destruct (write_pages _ _ _ _); [|done]. by rewrite replace_chosen_None.
Qed.

(** C7. A picture of the deck whose key the choice map leaves out, or
    maps to [None], has its original bytes in the rendered deck. An entry
    that maps a key to [None] can be left out: the rendered deck, or the
    error, is the same, so that a missing key is never an error of its
    own; rendering raises only when the template has fewer than two
    layouts. *)
Theorem missing_choice_default (prs : presentation) (markdown : str)
    (user_choices l1 l2 : list (nat * str * option bytes)) (s : nat)
    (r : str) :
  (∀ prs' b,
     render_ppt prs markdown user_choices = Ok prs' →
     (s, r, b) ∈ extract_pictures prs →
     (∀ c, (s, r, Some c) ∉ user_choices) →
     picture_at prs' s r = Some b)
  ∧ render_ppt prs markdown (l1 ++ (s, r, None) :: l2)
    = render_ppt prs markdown (l1 ++ l2)
  ∧ (is_Some (slide_layouts prs !! 1) →
     ∃ prs', render_ppt prs markdown user_choices = Ok prs').
Proof.
  split; [|split; [apply render_ppt_None|]]; unfold render_ppt.
  - intros prs' b Hr Hin _.
    destruct (slide_layouts prs !! 1) as [blank|]; [|done].
    destruct (write_pages_frame blank 1 (_split_markdown_slides markdown) prs)
      as (prs1 & Hw & Hparts & Hrels); [cbn; lia|].
    rewrite Hw, replace_chosen_id in Hr. injection Hr as <-.
    apply extract_pictures_elem in Hin as (sl & rel & Hs & Hrel & ->).
    destruct (Hrels _ _ Hs) as (sl1 & Hs1 & Hr1).
    unfold picture_at. rewrite Hs1. cbn. rewrite Hr1, Hrel. cbn.
    unfold blob_of. by rewrite Hparts.
  - intros [blank ->].
    destruct (write_pages_frame blank 1 (_split_markdown_slides markdown) prs)
      as (prs1 & -> & _); [cbn; lia|]. by eexists.
Qed.

End Render.

(** ** Instances on sample decks *)

Section Instances.

Import Samples Pictures RenderSpec WriteSpec Decks ExtractorSpec.

Lemma placeholder_token_round_trip_witness :
  parseToken (lit "{{S3_P12}}") = Some (2, 11)
  ∧ _is_placeholder_only (lit "{{S3_P12}}") = true.
Proof.
  pose proof (placeholder_token_round_trip 2 11) as (H1 & _ & H3).
  split; [exact H1|exact H3].
Defined.

Lemma short_text_classification_witness :
  (extract_slide 0 padded_slide ([], ∅)).1
  = [lit "## Slide 1"; lit "### {{S1_P1}} <!--len:10-->";
     lit "- {{S1_P2}} <!--len:11-->"; []]
  ∧ item_line (lit "{{S1_P1}}", 10, [])
    = lit "### {{S1_P1}} <!--len:10-->".
Proof.
  pose proof (short_text_classification 0 padded_slide [] ∅) as (_ & E & H).
  split; [rewrite E; reflexivity|].
  refine (proj2 (H 0 padded_box (lit " ") (lit "HelloWorld") (lit " ")
                   eq_refl eq_refl eq_refl eq_refl eq_refl _ _));
    by intros c [= <-].
Defined.

Lemma image_candidates_complete_witness :
  prepare_image_candidates (fun _ => failing) shared_deck (lit "cat") 4
    !! (1, lit "rId2")
  = Some (CandidateEntry [Byte.x01] []).
Proof.
  apply (proj2 (proj2 (proj2
           (image_candidates_complete (fun _ => failing) shared_deck
              (lit "cat") 4)))).
  - intros i. eexists _, _. reflexivity.
  - vm_compute. right. left.
Defined.

Lemma missing_choice_default_witness :
  render_ppt shared_deck [] [(1, lit "rId2", None)]
  = render_ppt shared_deck [] []
  ∧ ∃ prs', render_ppt shared_deck [] [(0, lit "rId2", Some [Byte.x02])]
            = Ok prs'
            ∧ picture_at prs' 1 (lit "rId2") = Some [Byte.x01].
Proof.
  pose proof (missing_choice_default shared_deck []
                [(0, lit "rId2", Some [Byte.x02])] [] [] 1 (lit "rId2"))
    as (H1 & H2 & H3).
  split; [exact H2|].
  destruct H3 as [prs' E]; [by eexists|].
  exists prs'. split; [exact E|].
  apply (H1 prs' [Byte.x01] E).
  - vm_compute. right. left.
  - intros c Hin. apply list_elem_of_singleton in Hin. discriminate Hin.
Defined.

Lemma excess_lines_dropped_witness :
  _write_page_to_slide titled_slide (sample_page ++ [lit "- dropped"])
  = _write_page_to_slide titled_slide sample_page.
Proof.
  apply (excess_lines_dropped titled_slide sample_page [lit "- dropped"]).
  vm_compute. lia.
Defined.

(** What the sample page leaves on the sample slide. *)
Example write_sample_page :
  _write_page_to_slide titled_slide sample_page
  = Ok (Slide [Shape true [Paragraph (lit "Overview") None None];
               Shape false [];
               Shape true [Paragraph (BULLET :: lit " first point") None
                             (Some 18)]]
              (Some 0) ∅).
Proof. reflexivity. Qed.

End Instances.

(** ** Trimming and lines *)

Section LineFacts.

Import LockSpec.

Implicit Types (s t a b w : str) (c : char) (p : char -> bool)
  (ps xs ys : list str).

Lemma strip_app_ws a w : forallb isspace w = true → strip (a ++ w) = strip a.
Proof. intros H. unfold strip, strip_by. by rewrite rstrip_by_app_ws. Qed.

Lemma forallb_app_1 {A} (f : A → bool) (l1 l2 : list A) :
  forallb f (l1 ++ l2) = forallb f l1 && forallb f l2.
Proof. apply forallb_app. Qed.

(** Pieces between newlines. *)

Lemma split_nl_nonnil s : split_nl s ≠ [].
Proof. apply split_nl_nonempty. Qed.

Lemma split_nl_cons_not_nl c s :
  is_nl c = false →
  split_nl (c :: s)
  = match split_nl s with l :: ls => (c :: l) :: ls | [] => [[c]] end.
Proof. intros H. cbn [split_nl]. by rewrite H. Qed.

Lemma split_nl_app a b : split_nl (a ++ b) = glue (split_nl a) (split_nl b).
Proof.
  induction a as [|c a IH]; cbn [app].
  - cbn. pose proof (split_nl_nonnil b). by destruct (split_nl b).
  - cbn [split_nl]. rewrite IH. destruct (is_nl c).
    + pose proof (split_nl_nonnil a). cbn [glue].
      by destruct (split_nl a).
    + pose proof (split_nl_nonnil a). pose proof (split_nl_nonnil b).
      destruct (split_nl a) as [|l [|l' ls]]; [done| |done].
      cbn [glue]. by destruct (split_nl b).
Qed.

Lemma split_nl_nl_free s : nl_free s → split_nl s = [s].
Proof.
  unfold nl_free. induction s as [|c s IH]; cbn [forallb split_nl]; [done|].
  intros [Hc Hs]%andb_prop. apply negb_true_iff in Hc. rewrite Hc.
  by rewrite IH.
Qed.

Lemma split_nl_pieces_free s : Forall nl_free (split_nl s).
Proof.
  induction s as [|c s IH]; cbn [split_nl]; [by repeat constructor|].
  destruct (is_nl c) eqn:Hc; [by constructor|].
  destruct (split_nl s) as [|l ls].
  - repeat constructor. unfold nl_free. cbn [forallb]. by rewrite Hc.
  - apply Forall_cons in IH as [Hl Hls]. constructor; [|done].
    unfold nl_free in *. cbn [forallb]. by rewrite Hc, Hl.
Qed.

(** [_split_lines_keep_eol] gives the pieces with their newlines. *)
Lemma split_lines_pieces s : _split_lines_keep_eol s = eol_lines (split_nl s).
Proof.
  induction s as [|c s IH]; [done|].
  cbn [_split_lines_keep_eol split_nl]. destruct (is_nl c) eqn:Hc.
  - rewrite IH. pose proof (split_nl_nonnil s).
    destruct (split_nl s); [done|]. cbn [eol_lines app].
    apply N.eqb_eq in Hc. by subst c.
  - destruct s as [|d s]; [done|]. rewrite IH.
    pose proof (split_nl_nonnil (d :: s)).
    destruct (split_nl (d :: s)) as [|l [|l' ls]] eqn:E; [done| |done].
    destruct l; [|done].
    exfalso. cbn [split_nl] in E. pose proof (split_nl_nonnil s).
    destruct (is_nl d); by destruct (split_nl s).
Qed.

Lemma concat_eol_lines ps : ps ≠ [] → concat (eol_lines ps) = join [NL] ps.
Proof.
  induction ps as [|p ps IH]; [done|]. intros _.
  destruct ps as [|q ps].
  - cbn. destruct p; cbn; by rewrite ?app_nil_r.
  - change (eol_lines (p :: q :: ps)) with ((p ++ [NL]) :: eol_lines (q :: ps)).
    change (join [NL] (p :: q :: ps)) with (p ++ [NL] ++ join [NL] (q :: ps)).
    cbn [concat]. rewrite IH by done. by rewrite <- app_assoc.
Qed.

Lemma join_split_nl s : join [NL] (split_nl s) = s.
Proof.
  induction s as [|c s IH]; [done|]. cbn [split_nl].
  pose proof (split_nl_nonnil s) as Hne. destruct (is_nl c) eqn:Hc.
  - apply N.eqb_eq in Hc. subst c.
    destruct (split_nl s); [done|]. cbn [join app] in *. by rewrite IH.
  - destruct (split_nl s) as [|l [|l' ls]]; [done| |];
      cbn [join app] in *; by rewrite IH.
Qed.

Lemma concat_split_lines s : concat (_split_lines_keep_eol s) = s.
Proof.
  rewrite split_lines_pieces, concat_eol_lines by apply split_nl_nonnil.
  apply join_split_nl.
Qed.

End LineFacts.

(** ** The substitution driver and the length-hint pattern *)

Section RegexFacts.

Import LockSpec.

Implicit Types (s t r w pre : str) (c : char) (p : char -> bool)
  (m : str → option (str * str)).

Lemma re_sub_fuel m f1 f2 s :
  consuming m → length s <= f1 → length s <= f2 →
  re_sub m f1 s = re_sub m f2 s.
Proof.
  intros Hm. revert f2 s; induction f1 as [|f1 IH]; intros f2 s H1 H2.
  - destruct s; [|cbn in H1; lia]. destruct f2; [done|]. cbn [re_sub].
    destruct (m []) as [[repl rest]|] eqn:E; [|done].
    apply Hm in E. cbn in E. lia.
  - destruct f2 as [|f2].
    + destruct s; [|cbn in H2; lia]. cbn [re_sub].
      destruct (m []) as [[repl rest]|] eqn:E; [|done].
      apply Hm in E. cbn in E. lia.
    + cbn [re_sub]. destruct (m s) as [[repl rest]|] eqn:E.
      * apply Hm in E. f_equal. apply IH; lia.
      * destruct s as [|c s]; [done|]. cbn in H1, H2. f_equal. apply IH; lia.
Qed.

Lemma re_sub_Some m s repl rest :
  consuming m → m s = Some (repl, rest) →
  re_sub m (length s) s = repl ++ re_sub m (length rest) rest.
Proof.
  intros Hm E. pose proof (Hm _ _ _ E) as Hlt.
  destruct (length s) as [|n] eqn:El; [lia|]. cbn [re_sub]. rewrite E.
  f_equal. apply re_sub_fuel; [done|lia|lia].
Qed.

Lemma re_sub_None m c s :
  m (c :: s) = None →
  re_sub m (length (c :: s)) (c :: s) = c :: re_sub m (length s) s.
Proof. intros E. cbn [length re_sub]. by rewrite E. Qed.

Lemma strip_prefix_length pre s r :
  strip_prefix pre s = Some r → length s = length pre + length r.
Proof. intros H%strip_prefix_Some. subst s. by rewrite length_app. Qed.

Lemma drop_while_length {A} (q : A → bool) (l : list A) :
  length (drop_while q l) <= length l.
Proof.
  induction l as [|x l IH]; cbn [drop_while length]; [done|].
  destruct (q x); cbn [length]; lia.
Qed.

Lemma len_pat_match_consuming s g rest :
  len_pat_match s = Some (g, rest) → length rest < length s.
Proof.
  unfold len_pat_match.
  destruct (strip_prefix (lit "<!--") s) as [s1|] eqn:E1; [|done].
  cbn [mbind option_bind].
  destruct (strip_prefix (lit "len:") (drop_while isspace s1)) as [s2|] eqn:E2;
    [|done].
  cbn [mbind option_bind].
  destruct (take_while isdecimal s2); [done|].
  destruct (strip_prefix (lit "-->") _) as [r|] eqn:E3; [|done].
  cbn [mbind option_bind]. intros [= _ <-].
  apply strip_prefix_length in E1, E2, E3.
  pose proof (drop_while_length isspace s1).
  pose proof (drop_while_length isdecimal s2).
  pose proof (drop_while_length isspace (drop_while isdecimal s2)).
  change (length (lit "<!--")) with 4 in E1.
  change (length (lit "len:")) with 4 in E2.
  change (length (lit "-->")) with 3 in E3. lia.
Qed.

Lemma len_strip_consuming :
  consuming (fun x => '(_, rest) ← len_pat_match x; Some ([], rest)).
Proof.
  intros s repl rest H.
  destruct (len_pat_match s) as [[g r]|] eqn:E; [|done].
  cbn in H. injection H as _ <-. by apply len_pat_match_consuming in E.
Qed.

Lemma split_at_first_length pat s b r :
  split_at_first pat s = Some (b, r) →
  length s = length b + length pat + length r.
Proof.
  revert b; induction s as [|c s IH]; intros b; cbn [split_at_first].
  - destruct (strip_prefix pat []) eqn:E; [|done].
    intros [= <- <-]. apply strip_prefix_length in E. cbn in *. lia.
  - destruct (strip_prefix pat (c :: s)) eqn:E.
    + intros [= <- <-]. apply strip_prefix_length in E. cbn in *. lia.
    + destruct (split_at_first pat s) as [[b' r']|]; [|done].
      intros [= <- <-]. specialize (IH _ eq_refl). cbn. lia.
Qed.

Lemma lock_pat_consuming : consuming lock_pat_match.
Proof.
  intros s repl rest. unfold lock_pat_match.
  destruct (strip_prefix LOCK_OPEN s) as [s1|] eqn:E1; [|done].
  cbn [mbind option_bind]. intros H%split_at_first_length.
  apply strip_prefix_length in E1.
  change (length LOCK_OPEN) with 11 in E1. lia.
Qed.

End RegexFacts.

(** ** Trailing whitespace and the length-hint pattern *)

Section TrailingSpace.

Import LockSpec.

Implicit Types (s t r w pre : str) (c : char) (p : char -> bool).

Lemma decimal_not_space c : isdecimal c = true → isspace c = false.
Proof.
  unfold isdecimal. intros (z & Hz & Hc)%existsb_exists.
  apply andb_prop in Hc as [H1 H2]. apply N.leb_le in H1. apply N.ltb_lt in H2.
  destruct (isspace c) eqn:E; [exfalso|done].
  assert (Hs : (c <= 12288)%N).
  { unfold isspace in E.
    repeat (apply orb_prop in E as [E|E]);
      rewrite ?andb_true_iff, ?N.leb_le, ?N.eqb_eq in E; lia. }
  assert (Hlow : (c < 48 → False)%N).
  { intros Hlt. unfold nd_zero in Hz. cbn in Hz.
    repeat (destruct Hz as [<-|Hz]; [lia|]). done. }
  unfold isspace in E.
  repeat (apply orb_prop in E as [E|E]);
    rewrite ?andb_true_iff, ?N.leb_le, ?N.eqb_eq in E;
    try lia;
    (unfold nd_zero in Hz; cbn in Hz;
     repeat (destruct Hz as [<-|Hz]; [lia|]); done).
Qed.

Lemma space_not_decimal c : isspace c = true → isdecimal c = false.
Proof.
  intros H. destruct (isdecimal c) eqn:E; [|done].
  apply decimal_not_space in E. congruence.
Qed.

Lemma strip_prefix_app_ws pre t w :
  forallb (fun c => negb (isspace c)) pre = true →
  forallb isspace w = true →
  strip_prefix pre (t ++ w) = (fun r => r ++ w) <$> strip_prefix pre t.
Proof.
  intros Hpre Hw. revert t; induction pre as [|x pre IH]; intros t; [done|].
  cbn [forallb] in Hpre. apply andb_prop in Hpre as [Hx Hpre].
  destruct t as [|c t]; cbn [app strip_prefix].
  - destruct w as [|c w]; [done|]. cbn [forallb] in Hw.
    apply andb_prop in Hw as [Hc _].
    destruct (N.eqb_spec x c) as [->|]; [|done]. by rewrite Hc in Hx.
  - destruct (x =? c)%N; [by apply IH|done].
Qed.

Lemma drop_while_all p w : forallb p w = true → drop_while p w = [].
Proof.
  induction w as [|c w IH]; cbn [forallb drop_while]; [done|].
  intros [-> H]%andb_prop. by apply IH.
Qed.

Lemma drop_while_app_ws t w :
  forallb isspace w = true →
  drop_while isspace (t ++ w)
  = match drop_while isspace t with [] => [] | d => d ++ w end.
Proof.
  intros Hw; induction t as [|c t IH]; cbn [app drop_while].
  - by apply drop_while_all.
  - by destruct (isspace c).
Qed.

Lemma take_while_app_stop p t w :
  forallb (fun c => negb (p c)) w = true →
  take_while p (t ++ w) = take_while p t.
Proof.
  intros Hw; induction t as [|c t IH]; cbn [app take_while].
  - destruct w as [|c w]; [done|]. cbn [forallb take_while] in *.
    apply andb_prop in Hw as [Hc _]. by destruct (p c).
  - destruct (p c); [by rewrite IH|done].
Qed.

Lemma drop_while_app_stop p t w :
  forallb (fun c => negb (p c)) w = true →
  drop_while p (t ++ w) = drop_while p t ++ w.
Proof.
  intros Hw; induction t as [|c t IH]; cbn [app drop_while].
  - destruct w as [|c w]; [done|]. cbn [forallb drop_while] in *.
    apply andb_prop in Hw as [Hc _]. by destruct (p c).
  - by destruct (p c).
Qed.

Lemma ws_not_decimal w :
  forallb isspace w = true → forallb (fun c => negb (isdecimal c)) w = true.
Proof.
  apply forallb_impl. intros c H. by rewrite space_not_decimal.
Qed.

(** A match of the length-hint pattern is the same before trailing
    whitespace. *)
Lemma len_pat_match_app_ws t w :
  forallb isspace w = true →
  len_pat_match (t ++ w)
  = (fun x => (x.1, x.2 ++ w)) <$> len_pat_match t.
Proof.
  intros Hw. unfold len_pat_match.
  rewrite strip_prefix_app_ws by done.
  destruct (strip_prefix (lit "<!--") t) as [s1|]; [|done].
  cbn [fmap option_fmap option_map mbind option_bind].
  rewrite drop_while_app_ws by done.
  destruct (drop_while isspace s1) as [|d s1'] eqn:E1; [done|].
  rewrite strip_prefix_app_ws by done.
  destruct (strip_prefix (lit "len:") (d :: s1')) as [s2|]; [|done].
  cbn [fmap option_fmap option_map mbind option_bind].
  rewrite take_while_app_stop, drop_while_app_stop by by apply ws_not_decimal.
  destruct (take_while isdecimal s2) as [|g0 g]; [done|].
  rewrite drop_while_app_ws by done.
  destruct (drop_while isspace (drop_while isdecimal s2)) as [|e s3]; [done|].
  rewrite strip_prefix_app_ws by done.
  by destruct (strip_prefix (lit "-->") (e :: s3)).
Qed.

Lemma forallb_tail {A} (f : A → bool) (x : A) (l : list A) :
  forallb f (x :: l) = true → forallb f l = true.
Proof. cbn. by intros [_ H]%andb_prop. Qed.

Lemma len_pat_match_ws w : forallb isspace w = true → len_pat_match w = None.
Proof.
  intros H. by rewrite <- (app_nil_l w), len_pat_match_app_ws.
Qed.

Lemma len_pat_search_ws w : forallb isspace w = true → len_pat_search w = None.
Proof.
  induction w as [|c w IH]; intros H.
  - done.
  - cbn [len_pat_search]. rewrite len_pat_match_ws by done.
    apply IH. by apply forallb_tail in H.
Qed.

Lemma len_pat_search_app_ws t w :
  forallb isspace w = true → len_pat_search (t ++ w) = len_pat_search t.
Proof.
  intros Hw; induction t as [|c t IH].
  - rewrite len_pat_search_ws by done. done.
  - cbn [app len_pat_search].
    change (c :: t ++ w) with ((c :: t) ++ w).
    rewrite len_pat_match_app_ws by done.
    destruct (len_pat_match (c :: t)) as [[g r]|]; [done|]. apply IH.
Qed.

Lemma re_sub_no_match m s :
  (∀ i, m (drop i s) = None) → re_sub m (length s) s = s.
Proof.
  induction s as [|c s IH]; intros H; [done|].
  - rewrite re_sub_None by apply (H 0). f_equal. apply IH.
    intros i. apply (H (S i)).
Qed.

Lemma forallb_drop {A} (f : A → bool) (i : nat) (l : list A) :
  forallb f l = true → forallb f (drop i l) = true.
Proof.
  revert i; induction l as [|x l IH]; intros [|i] H; try done.
  cbn [drop]. apply IH. by apply forallb_tail in H.
Qed.

Lemma len_pat_strip_ws w : forallb isspace w = true → len_pat_strip w = w.
Proof.
  intros H. unfold len_pat_strip. apply re_sub_no_match.
  intros i. rewrite len_pat_match_ws; [done|]. by apply forallb_drop.
Qed.

Lemma len_pat_strip_app_ws t w :
  forallb isspace w = true → len_pat_strip (t ++ w) = len_pat_strip t ++ w.
Proof.
  intros Hw. remember (length t) as n eqn:Hn.
  assert (Hle : length t <= n) by lia. clear Hn.
  revert t Hle; induction n as [|n IH]; intros t Hle.
  - destruct t; [|cbn in Hle; lia]. by rewrite len_pat_strip_ws.
  - destruct t as [|c t]; [by rewrite len_pat_strip_ws|].
    unfold len_pat_strip in *.
    pose proof (len_pat_match_app_ws (c :: t) w Hw) as Hm.
    destruct (len_pat_match (c :: t)) as [[g r]|] eqn:E.
    + pose proof (len_pat_match_consuming _ _ _ E) as Hlt.
      rewrite (re_sub_Some _ ((c :: t) ++ w) [] (r ++ w))
        by (apply len_strip_consuming || by rewrite Hm).
      rewrite (re_sub_Some _ (c :: t) [] r)
        by (apply len_strip_consuming || by rewrite E).
      cbn [app]. apply IH. cbn in *. lia.
    + rewrite <- app_comm_cons.
      rewrite (re_sub_None _ c (t ++ w)) by (by rewrite app_comm_cons, Hm).
      rewrite (re_sub_None _ c t) by (by rewrite E).
      cbn [app]. f_equal. apply IH. cbn in Hle. lia.
Qed.

Lemma is_zero_len_app_ws t w :
  forallb isspace w = true → is_zero_len (t ++ w) = is_zero_len t.
Proof. intros H. unfold is_zero_len. by rewrite len_pat_search_app_ws. Qed.

Lemma dedup_key_app_ws t w :
  forallb isspace w = true → dedup_key (t ++ w) = dedup_key t.
Proof.
  intros H. unfold dedup_key.
  by rewrite len_pat_strip_app_ws, strip_app_ws.
Qed.

Lemma zero_key_app_ws t w :
  forallb isspace w = true → zero_key (t ++ w) = zero_key t.
Proof.
  intros H. unfold zero_key.
  by rewrite is_zero_len_app_ws, dedup_key_app_ws.
Qed.

Lemma zero_key_ws w : forallb isspace w = true → zero_key w = None.
Proof.
  intros H. unfold zero_key, is_zero_len.
  by rewrite len_pat_search_ws.
Qed.

End TrailingSpace.

(** ** The dedup loop *)

Section Dedup.

Import LockSpec.

Implicit Types (ln li : str) (lines earlier : list str) (seen : gset str).

Lemma str_eqb_eq (a b : str) : str_eqb a b = true ↔ a = b.
Proof. unfold str_eqb. apply bool_decide_eq_true. Qed.

Lemma repeats_key_spec earlier ln :
  repeats_key earlier ln = true
  ↔ ∃ li, li ∈ earlier ∧ is_zero_len li = true
          ∧ dedup_key li = dedup_key ln.
Proof.
  unfold repeats_key. rewrite existsb_exists. split.
  - intros (li & Hin & [Hz Hk]%andb_prop). exists li.
    by rewrite list_elem_of_In, <- str_eqb_eq.
  - intros (li & Hin & Hz & Hk). exists li. rewrite <- list_elem_of_In.
    split; [done|]. rewrite Hz. by apply str_eqb_eq.
Qed.

Lemma seen_of_skip earlier seen ln :
  seen_of earlier seen →
  (is_zero_len ln = true → dedup_key ln ∈ seen) →
  seen_of (earlier ++ [ln]) seen.
Proof.
  intros Hs Hln k. rewrite (Hs k). split.
  - intros (li & Hin & H). exists li. split; [|done].
    apply elem_of_app. by left.
  - intros (li & [Hin|Hin]%elem_of_app & Hz & Hk); [by exists li|].
    apply list_elem_of_singleton in Hin. subst li. apply Hs.
    rewrite <- Hk. by apply Hln.
Qed.

Lemma seen_of_add earlier seen ln :
  seen_of earlier seen → is_zero_len ln = true →
  seen_of (earlier ++ [ln]) ({[dedup_key ln]} ∪ seen).
Proof.
  intros Hs Hz k. rewrite elem_of_union, elem_of_singleton, (Hs k). split.
  - intros [->|(li & Hin & H)].
    + exists ln. split; [|done]. apply elem_of_app. right.
      by apply list_elem_of_singleton.
    + exists li. split; [|done]. apply elem_of_app. by left.
  - intros (li & [Hin|Hin]%elem_of_app & Hzi & Hk); [right; by exists li|].
    apply list_elem_of_singleton in Hin. subst li. by left.
Qed.

(** The loop computes the first occurrences. *)
Lemma dedup_loop_spec lines earlier seen out_lines :
  seen_of earlier seen →
  dedup_loop lines seen out_lines
  = out_lines ++ first_occurrences earlier lines.
Proof.
  revert earlier seen out_lines;
    induction lines as [|ln lines IH]; intros earlier seen out_lines Hs;
    cbn [dedup_loop first_occurrences]; [by rewrite app_nil_r|].
  destruct (is_zero_len ln) eqn:Hz; cbn [andb].
  - destruct (bool_decide (dedup_key ln ∈ seen)) eqn:Hin.
    + apply bool_decide_eq_true in Hin.
      assert (Hr : repeats_key earlier ln = true).
      { apply repeats_key_spec. by apply Hs. }
      rewrite Hr. cbn [app]. apply IH. by apply seen_of_skip.
    + apply bool_decide_eq_false in Hin.
      assert (Hr : repeats_key earlier ln = false).
      { apply not_true_is_false. intros H. apply Hin.
        apply repeats_key_spec in H. by apply Hs. }
      rewrite Hr, (IH (earlier ++ [ln])), <- app_assoc; [done|].
      by apply seen_of_add.
  - rewrite (IH (earlier ++ [ln])), <- app_assoc; [done|].
    apply seen_of_skip; [done|]. by rewrite Hz.
Qed.

Lemma seen_of_empty : seen_of [] ∅.
Proof.
  intros k. split; [by intros ?%elem_of_empty|].
  intros (li & Hin & _). by apply elem_of_nil in Hin.
Qed.

Lemma dedup_loop_first lines :
  dedup_loop lines ∅ [] = first_occurrences [] lines.
Proof. by rewrite (dedup_loop_spec _ [] ∅ []) by apply seen_of_empty. Qed.

Lemma first_occurrences_app earlier l1 l2 :
  first_occurrences earlier (l1 ++ l2)
  = first_occurrences earlier l1 ++ first_occurrences (earlier ++ l1) l2.
Proof.
  revert earlier; induction l1 as [|ln l1 IH]; intros earlier;
    cbn [app first_occurrences].
  - by rewrite app_nil_r.
  - rewrite IH, <- !app_assoc. done.
Qed.

Lemma unlock_and_dedup_unfold md zero strip_len_tag :
  _unlock_and_dedup md zero strip_len_tag
  = rstrip (concat
      ((if strip_len_tag then strip_len_tags else id)
         (first_occurrences [] (_split_lines_keep_eol (unlock md))))).
Proof.
  unfold _unlock_and_dedup. rewrite dedup_loop_first.
  by destruct strip_len_tag.
Qed.

(** C3, as amended. The dedup step keys on the whole line: the text of
    the line without its length hints, trimmed. A line with a zero
    length hint is removed exactly when an earlier line with a zero
    length hint has the same key; every other line stays, in order. *)
Theorem dedup_keeps_first_by_key (md : str) (zero : list (nat * str))
    (strip_len_tag : bool) :
  _unlock_and_dedup md zero strip_len_tag
  = rstrip (concat
      ((if strip_len_tag then strip_len_tags else id)
         (first_occurrences [] (_split_lines_keep_eol (unlock md)))))
  ∧ (∀ before ln after,
       first_occurrences [] (before ++ ln :: after)
       = first_occurrences [] before
           ++ (if is_zero_len ln && repeats_key before ln then [] else [ln])
           ++ first_occurrences (before ++ [ln]) after)
  ∧ (∀ before ln,
       repeats_key before ln = true
       ↔ ∃ li, li ∈ before ∧ is_zero_len li = true
               ∧ strip (len_pat_strip li) = strip (len_pat_strip ln)).
Proof.
  split; [apply unlock_and_dedup_unfold|]. split.
  - intros before ln after. by rewrite first_occurrences_app.
  - intros before ln. apply repeats_key_spec.
Qed.

End Dedup.

(** ** Keys of the lines of a text *)

Section LineKeys.

Import LockSpec.

Implicit Types (s t a w : str) (ps xs ys : list str)
  (lines earlier : list str).

Lemma nl_is_space : forallb isspace [NL] = true.
Proof. done. Qed.

Lemma zero_key_nil : zero_key [] = None.
Proof. done. Qed.

Lemma zero_keys_app l1 l2 : zero_keys (l1 ++ l2) = zero_keys l1 ++ zero_keys l2.
Proof. unfold zero_keys. apply omap_app. Qed.

Lemma zero_keys_cons ln lines :
  zero_keys (ln :: lines)
  = match zero_key ln with Some k => k :: zero_keys lines | None => zero_keys lines end.
Proof. done. Qed.

(** The keys of the lines are those of the pieces. *)
Lemma zero_keys_eol_lines ps : zero_keys (eol_lines ps) = omap zero_key ps.
Proof.
  induction ps as [|p ps IH]; [done|]. destruct ps as [|q ps].
  - destruct p as [|c p]; [done|].
    change (eol_lines [c :: p]) with [c :: p; []].
    by rewrite !zero_keys_cons, zero_key_nil.
  - change (eol_lines (p :: q :: ps)) with ((p ++ [NL]) :: eol_lines (q :: ps)).
    rewrite zero_keys_cons, IH, zero_key_app_ws by done.
    by rewrite (omap_cons _ p).
Qed.

Lemma zero_keys_split s :
  zero_keys (_split_lines_keep_eol s) = omap zero_key (split_nl s).
Proof. by rewrite split_lines_pieces, zero_keys_eol_lines. Qed.

Lemma split_nl_ws w :
  forallb isspace w = true → Forall (fun p => forallb isspace p = true) (split_nl w).
Proof.
  induction w as [|c w IH]; intros H; [by repeat constructor|].
  cbn [forallb] in H. apply andb_prop in H as [Hc Hw].
  specialize (IH Hw). cbn [split_nl]. destruct (is_nl c); [by constructor|].
  destruct (split_nl w) as [|l ls].
  - repeat constructor. cbn. by rewrite Hc.
  - apply Forall_cons in IH as [Hl Hls]. constructor; [|done].
    cbn. by rewrite Hc, Hl.
Qed.

Lemma omap_zero_key_ws ys :
  Forall (fun p => forallb isspace p = true) ys → omap zero_key ys = [].
Proof.
  induction 1 as [|y ys Hy _ IH]; [done|].
  by rewrite omap_cons, zero_key_ws, IH.
Qed.

Lemma omap_zero_key_glue xs ys :
  xs ≠ [] → Forall (fun p => forallb isspace p = true) ys →
  omap zero_key (glue xs ys) = omap zero_key xs.
Proof.
  intros Hne Hys. induction xs as [|x xs IH]; [done|].
  destruct xs as [|x' xs].
  - cbn [glue]. destruct ys as [|y ys]; [done|].
    apply Forall_cons in Hys as [Hy Hys].
    rewrite !omap_cons, zero_key_app_ws, omap_zero_key_ws by done.
    done.
  - change (glue (x :: x' :: xs) ys) with (x :: glue (x' :: xs) ys).
    rewrite !(omap_cons _ x), IH by done. done.
Qed.

(** Trailing whitespace adds no key. *)
Lemma zero_keys_split_app_ws a w :
  forallb isspace w = true →
  zero_keys (_split_lines_keep_eol (a ++ w))
  = zero_keys (_split_lines_keep_eol a).
Proof.
  intros Hw. rewrite !zero_keys_split, split_nl_app.
  apply omap_zero_key_glue; [apply split_nl_nonnil|by apply split_nl_ws].
Qed.

Lemma zero_key_Some ln k :
  zero_key ln = Some k ↔ is_zero_len ln = true ∧ dedup_key ln = k.
Proof.
  unfold zero_key. destruct (is_zero_len ln); split; try done.
  - by intros [= <-].
  - by intros [_ <-].
  - by intros [? _].
Qed.

Lemma elem_of_zero_keys k lines :
  k ∈ zero_keys lines
  ↔ ∃ li, li ∈ lines ∧ is_zero_len li = true ∧ dedup_key li = k.
Proof.
  unfold zero_keys. rewrite list_elem_of_omap.
  split; intros (li & Hin & H); exists li; split; try done;
    by apply zero_key_Some.
Qed.

Lemma repeats_key_zero_keys earlier ln :
  repeats_key earlier ln = true ↔ dedup_key ln ∈ zero_keys earlier.
Proof. by rewrite repeats_key_spec, elem_of_zero_keys. Qed.

(** Lines with distinct keys all stay. *)
Lemma first_occurrences_id earlier lines :
  NoDup (zero_keys lines) →
  (∀ k, k ∈ zero_keys lines → k ∉ zero_keys earlier) →
  first_occurrences earlier lines = lines.
Proof.
  revert earlier; induction lines as [|ln lines IH]; intros earlier Hnd Hd;
    [done|].
  cbn [first_occurrences]. rewrite zero_keys_cons in Hnd, Hd.
  destruct (zero_key ln) as [k|] eqn:Ek.
  - apply zero_key_Some in Ek as [Hz Hk].
    apply NoDup_cons in Hnd as [Hk1 Hnd].
    assert (Hr : repeats_key earlier ln = false).
    { apply not_true_is_false. rewrite repeats_key_zero_keys, Hk.
      apply Hd. left. }
    rewrite Hz, Hr. cbn [andb app]. f_equal. apply IH; [done|].
    intros k' Hk'. rewrite zero_keys_app.
    intros [H|H]%elem_of_app.
    + revert H. apply Hd. by right.
    + rewrite zero_keys_cons in H.
      destruct (zero_key ln) as [k0|] eqn:E0; [|by apply elem_of_nil in H].
      apply zero_key_Some in E0 as [_ E0].
      apply list_elem_of_singleton in H. congruence.
  - assert (Hz : is_zero_len ln = false).
    { unfold zero_key in Ek. by destruct (is_zero_len ln). }
    rewrite Hz. cbn [andb app]. f_equal. apply IH; [done|].
    intros k' Hk'. rewrite zero_keys_app.
    intros [H|H]%elem_of_app; [by apply (Hd k')|].
    rewrite zero_keys_cons in H. unfold zero_key in H. rewrite Hz in H.
    by apply elem_of_nil in H.
Qed.

(** The lines that stay have distinct keys. *)
Lemma first_occurrences_NoDup earlier lines :
  NoDup (zero_keys (first_occurrences earlier lines))
  ∧ ∀ k, k ∈ zero_keys (first_occurrences earlier lines) →
         k ∉ zero_keys earlier.
Proof.
  revert earlier; induction lines as [|ln lines IH]; intros earlier.
  - split; [constructor|]. intros k H. by apply elem_of_nil in H.
  - cbn [first_occurrences]. destruct (IH (earlier ++ [ln])) as [IH1 IH2].
    assert (IH3 : ∀ k, k ∈ zero_keys (first_occurrences (earlier ++ [ln]) lines)
                  → (k ∉ zero_keys earlier) ∧ zero_key ln ≠ Some k).
    { intros k Hk. specialize (IH2 k Hk). rewrite zero_keys_app in IH2.
      split.
      - intros H. apply IH2, elem_of_app. by left.
      - intros H. apply IH2, elem_of_app. right.
        rewrite zero_keys_cons, H. left. }
    destruct (is_zero_len ln) eqn:Hz; cbn [andb].
    + destruct (repeats_key earlier ln) eqn:Hr; cbn [app].
      * split; [done|]. intros k Hk. by apply IH3.
      * rewrite zero_keys_cons.
        assert (Ek : zero_key ln = Some (dedup_key ln))
          by (unfold zero_key; by rewrite Hz).
        rewrite Ek. split.
        -- apply NoDup_cons. split; [|done]. intros H.
           by apply IH3 in H as [_ H].
        -- intros k [->|Hk]%elem_of_cons; [|by apply IH3].
           rewrite <- repeats_key_zero_keys. by rewrite Hr.
    + cbn [app]. rewrite zero_keys_cons.
      assert (Ek : zero_key ln = None) by (unfold zero_key; by rewrite Hz).
      rewrite Ek. split; [done|]. intros k Hk. by apply IH3.
Qed.

Lemma split_nl_join ps :
  ps ≠ [] → Forall nl_free ps → split_nl (join [NL] ps) = ps.
Proof.
  induction ps as [|p ps IH]; [done|]. intros _ H.
  apply Forall_cons in H as [Hp Hps]. destruct ps as [|q ps].
  - by apply split_nl_nl_free.
  - change (join [NL] (p :: q :: ps)) with (p ++ [NL] ++ join [NL] (q :: ps)).
    rewrite split_nl_app, (split_nl_nl_free p) by done.
    cbn [app split_nl]. change (is_nl NL) with true. cbn [glue].
    rewrite IH by done. by rewrite app_nil_r.
Qed.

(** The lines that stay are again the lines of a text. *)
Lemma first_occurrences_eol earlier ps :
  ps ≠ [] → Forall nl_free ps →
  ∃ ps', ps' ≠ [] ∧ Forall nl_free ps'
         ∧ first_occurrences earlier (eol_lines ps) = eol_lines ps'.
Proof.
  revert earlier; induction ps as [|p ps IH]; intros earlier Hne Hf; [done|].
  apply Forall_cons in Hf as [Hp Hps]. destruct ps as [|q ps].
  - destruct p as [|c p].
    + exists [[]]. split; [done|]. split; [by repeat constructor|done].
    + change (eol_lines [c :: p]) with [c :: p; []].
      cbn [first_occurrences]. change (is_zero_len []) with false.
      cbn [andb app].
      destruct (is_zero_len (c :: p) && repeats_key earlier (c :: p)).
      * exists [[]]. split; [done|]. split; [by repeat constructor|done].
      * exists [c :: p]. split; [done|]. split; [by repeat constructor|done].
  - change (eol_lines (p :: q :: ps)) with ((p ++ [NL]) :: eol_lines (q :: ps)).
    cbn [first_occurrences].
    destruct (IH (earlier ++ [p ++ [NL]])) as (ps' & Hne' & Hf' & ->);
      [done|done|].
    destruct (is_zero_len (p ++ [NL]) && repeats_key earlier (p ++ [NL])).
    + by exists ps'.
    + exists (p :: ps'). split; [done|]. split; [by constructor|].
      cbn [app]. by destruct ps'.
Qed.

Lemma split_concat_eol ps :
  ps ≠ [] → Forall nl_free ps →
  _split_lines_keep_eol (concat (eol_lines ps)) = eol_lines ps.
Proof.
  intros Hne Hf.
  by rewrite concat_eol_lines, split_lines_pieces, split_nl_join.
Qed.

End LineKeys.

(** ** Applying the dedup step twice *)

Section Idempotence.

Import LockSpec.

Lemma rstrip_idem s : rstrip (rstrip s) = rstrip s.
Proof. apply rstrip_by_idem. Qed.

(** The lines of the trimmed result of the dedup step all stay. *)
Lemma dedup_result_stable (md : str) :
  let out := rstrip (concat (first_occurrences []
                               (_split_lines_keep_eol md))) in
  first_occurrences [] (_split_lines_keep_eol out) = _split_lines_keep_eol out.
Proof.
  intros out. apply first_occurrences_id;
    [|intros k _ H; by apply elem_of_nil in H].
  destruct (first_occurrences_eol [] (split_nl md))
    as (ps & Hne & Hf & E);
    [apply split_nl_nonnil|apply split_nl_pieces_free|].
  rewrite <- split_lines_pieces in E.
  destruct (rstrip_by_split isspace (concat (eol_lines ps)))
    as (w & Hw & Es).
  assert (Hk : zero_keys (_split_lines_keep_eol out) = zero_keys (eol_lines ps)).
  { rewrite <- (split_concat_eol ps Hne Hf).
    rewrite <- (zero_keys_split_app_ws _ w Hw).
    unfold out, rstrip. rewrite E. by rewrite <- Es. }
  rewrite Hk, <- E. apply first_occurrences_NoDup.
Qed.

Lemma first_occurrences_no_zero lines :
  (∀ ln, ln ∈ lines → len_pat_search ln = None) →
  first_occurrences [] lines = lines ∧ strip_len_tags lines = lines.
Proof.
  intros H. split.
  - apply first_occurrences_id.
    + assert (E : zero_keys lines = []); [|rewrite E; constructor].
      induction lines as [|ln lines IH]; [done|].
      rewrite zero_keys_cons. unfold zero_key, is_zero_len.
      rewrite (H ln) by left. apply IH. intros l Hl. apply H. by right.
    + intros k _ Hk. by apply elem_of_nil in Hk.
  - unfold strip_len_tags. induction lines as [|ln lines IH]; [done|].
    cbn [map]. rewrite (H ln) by left. f_equal.
    apply IH. intros l Hl. apply H. by right.
Qed.

(** C4, as amended. When the result of the dedup step holds no lock span
    any more and, if the length hints were to be stripped, no length hint
    either, applying the step to it again gives it back. *)
Theorem dedup_idempotent (md : str) (zero : list (nat * str))
    (strip_len_tag : bool) :
  let out := _unlock_and_dedup md zero strip_len_tag in
  unlock out = out →
  (strip_len_tag = true →
   ∀ ln, ln ∈ _split_lines_keep_eol out → len_pat_search ln = None) →
  _unlock_and_dedup out zero strip_len_tag = out.
Proof.
  intros out Hu Hs.
  rewrite (unlock_and_dedup_unfold out), Hu.
  assert (Hr : rstrip out = out).
  { unfold out. rewrite unlock_and_dedup_unfold. apply rstrip_idem. }
  destruct strip_len_tag.
  - destruct (first_occurrences_no_zero _ (Hs eq_refl)) as [-> ->].
    by rewrite concat_split_lines.
  - cbn [id].
    assert (E : out = rstrip (concat (first_occurrences []
                         (_split_lines_keep_eol (unlock md)))))
      by (unfold out; by rewrite unlock_and_dedup_unfold).
    rewrite E at 1. rewrite (dedup_result_stable (unlock md)).
    rewrite concat_split_lines, <- E. exact Hr.
Qed.

End Idempotence.

(** ** Occurrences of the lock sentinels *)

Section Sentinels.

Import LockSpec LockLines.

Implicit Types (s t r u pat pre post : str) (c : char).

Lemma startswith_true s pat :
  startswith s pat = true ↔ ∃ r, s = pat ++ r.
Proof.
  unfold startswith. split.
  - destruct (strip_prefix pat s) as [r|] eqn:E; [|done].
    intros _. exists r. by apply strip_prefix_Some.
  - intros [r ->]. by rewrite strip_prefix_app.
Qed.

Lemma occurs_spec pat s :
  occurs pat s = true ↔ ∃ pre post, s = pre ++ pat ++ post.
Proof.
  induction s as [|c s IH]; cbn [occurs].
  - rewrite orb_false_r, startswith_true. split.
    + intros [r E]. by exists [], r.
    + intros (pre & post & E). destruct pre; [by exists post|done].
  - rewrite orb_true_iff, startswith_true, IH. split.
    + intros [[r E]|(pre & post & E)].
      * by exists [], r.
      * exists (c :: pre), post. by rewrite E.
    + intros (pre & post & E). destruct pre as [|d pre].
      * left. by exists post.
      * right. injection E as -> ->. by exists pre, post.
Qed.

Lemma occurs_app_false pat a b :
  occurs pat (a ++ b) = false → occurs pat a = false ∧ occurs pat b = false.
Proof.
  intros H. split; apply not_true_is_false; intros E;
    apply occurs_spec in E as (pre & post & ->);
    apply not_true_iff_false in H; apply H, occurs_spec.
  - exists pre, (post ++ b). by rewrite <- !app_assoc.
  - exists (a ++ pre), post. by rewrite <- !app_assoc.
Qed.

Lemma occurs_drop_false pat s i :
  pat ≠ [] → occurs pat s = false → strip_prefix pat (drop i s) = None.
Proof.
  intros Hne H. destruct (strip_prefix pat (drop i s)) as [r|] eqn:E; [|done].
  apply strip_prefix_Some in E. apply not_true_iff_false in H.
  exfalso. apply H, occurs_spec. exists (take i s), r.
  by rewrite <- E, take_drop.
Qed.

Lemma occurs_pieces_false pat s :
  occurs pat s = false →
  Forall (fun p => occurs pat p = false) (split_nl s).
Proof.
  intros H. rewrite <- (join_split_nl s) in H.
  induction (split_nl s) as [|p ps IH]; [constructor|].
  destruct ps as [|q ps]; [by repeat constructor|].
  change (join [NL] (p :: q :: ps)) with (p ++ [NL] ++ join [NL] (q :: ps)) in H.
  apply occurs_app_false in H as [Hp H].
  apply occurs_app_false in H as [_ H]. constructor; [done|by apply IH].
Qed.

(** A prefix match that starts in [t] either lies in [t] or runs over its
    end. *)
Lemma strip_prefix_straddle pat t r x :
  strip_prefix pat (t ++ r) = Some x →
  startswith t pat = true
  ∨ ∃ u, u ≠ [] ∧ pat = t ++ u ∧ strip_prefix u r = Some x.
Proof.
  revert t; induction pat as [|a pat IH]; intros t H.
  - left. by apply startswith_true; exists t.
  - destruct t as [|c t].
    + right. exists (a :: pat). by repeat split.
    + cbn [app strip_prefix] in H. destruct (N.eqb_spec a c) as [->|]; [|done].
      destruct (IH _ H) as [Hs|(u & Hu & -> & Hx)].
      * left. apply startswith_true in Hs as [r' ->].
        apply startswith_true. by exists r'.
      * right. by exists u.
Qed.

(** In a piece without [pat], no match of [pat] starts before the newline
    that follows the piece. *)
Lemma no_match_before_nl pat p r i :
  pat ≠ [] → NL ∉ pat → occurs pat p = false →
  strip_prefix pat (drop i p ++ NL :: r) = None.
Proof.
  intros Hne Hnl Hp.
  destruct (strip_prefix pat (drop i p ++ NL :: r)) as [x|] eqn:E; [|done].
  exfalso. apply strip_prefix_straddle in E as [Hs|(u & Hu & -> & Hx)].
  - unfold startswith in Hs. by rewrite occurs_drop_false in Hs.
  - destruct u as [|d u]; [done|]. cbn [strip_prefix] in Hx.
    destruct (N.eqb_spec d NL) as [->|]; [|done].
    apply Hnl, elem_of_app. right. left.
Qed.

(** A pattern whose first character occurs nowhere else in it cannot
    overlap a copy of itself. *)
Lemma no_match_before_copy c pat p r i :
  c ∉ pat → occurs (c :: pat) p = false → i < length p →
  strip_prefix (c :: pat) (drop i p ++ (c :: pat) ++ r) = None.
Proof.
  intros Hc Hp Hi.
  destruct (strip_prefix (c :: pat) (drop i p ++ (c :: pat) ++ r))
    as [x|] eqn:E; [|done].
  exfalso. apply strip_prefix_straddle in E as [Hs|(u & Hu & E & Hx)].
  - unfold startswith in Hs. by rewrite occurs_drop_false in Hs.
  - destruct (drop i p) as [|d t] eqn:Ed.
    { apply (f_equal length) in Ed. rewrite length_drop in Ed. cbn in Ed. lia. }
    destruct u as [|e u]; [done|]. cbn [app strip_prefix] in Hx.
    destruct (N.eqb_spec e c) as [->|]; [|done].
    injection E as _ ->. apply Hc, elem_of_app. right. left.
Qed.

Lemma re_sub_skip m l r :
  (∀ i, i < length l → m (drop i l ++ r) = None) →
  re_sub m (length (l ++ r)) (l ++ r) = l ++ re_sub m (length r) r.
Proof.
  induction l as [|c l IH]; intros H; [done|].
  cbn [app]. rewrite re_sub_None by (apply (H 0); cbn; lia).
  f_equal. apply IH. intros i Hi. apply (H (S i)). cbn. lia.
Qed.

Lemma split_at_first_unfold pat s :
  split_at_first pat s
  = match strip_prefix pat s with
    | Some rest => Some ([], rest)
    | None =>
        match s with
        | [] => None
        | c :: t =>
            match split_at_first pat t with
            | Some (b, r) => Some (c :: b, r)
            | None => None
            end
        end
    end.
Proof. by destruct s. Qed.

Lemma split_at_first_here pat p r :
  (∀ i, i < length p → strip_prefix pat (drop i p ++ pat ++ r) = None) →
  split_at_first pat (p ++ pat ++ r) = Some (p, r).
Proof.
  induction p as [|c p IH]; intros H.
  - cbn [app]. by rewrite split_at_first_unfold, strip_prefix_app.
  - cbn [app split_at_first].
    rewrite (H 0 ltac:(cbn; lia) : strip_prefix pat (c :: p ++ pat ++ r) = None).
    rewrite IH; [done|]. intros i Hi. apply (H (S i)). cbn. lia.
Qed.

Lemma lock_open_nl : NL ∉ LOCK_OPEN.
Proof. by vm_compute; intros H; repeat (apply elem_of_cons in H as [H|H]; [done|]); apply elem_of_nil in H. Qed.

Lemma lock_close_tail : (60%N : char) ∉ lit "!--/LOCK-->".
Proof. by vm_compute; intros H; repeat (apply elem_of_cons in H as [H|H]; [done|]); apply elem_of_nil in H. Qed.

Lemma lock_match_none s :
  strip_prefix LOCK_OPEN s = None → lock_pat_match s = None.
Proof. unfold lock_pat_match. by intros ->. Qed.

(** Unlocking passes over a piece without sentinel and its newline. *)
Lemma unlock_plain p r :
  occurs LOCK_OPEN p = false →
  unlock (p ++ NL :: r) = p ++ NL :: unlock r.
Proof.
  intros Hp. unfold unlock.
  change (p ++ NL :: r) with (p ++ [NL] ++ r). rewrite app_assoc.
  rewrite re_sub_skip; [by rewrite <- app_assoc|].
  intros i Hi. apply lock_match_none.
  rewrite length_app in Hi. cbn in Hi.
  destruct (decide (i < length p)) as [Hlt|Hge].
  - rewrite drop_app_le by lia. rewrite <- app_assoc.
    by apply no_match_before_nl; [|apply lock_open_nl|].
  - rewrite drop_app_ge by lia. replace (i - length p) with 0 by lia.
    done.
Qed.

Lemma unlock_plain_last p :
  occurs LOCK_OPEN p = false → unlock p = p.
Proof.
  intros Hp. unfold unlock. apply re_sub_no_match.
  intros i. apply lock_match_none. by apply occurs_drop_false.
Qed.

(** Unlocking gives back a locked piece. *)
Lemma unlock_locked p r :
  occurs LOCK_CLOSE p = false →
  unlock (lock_line p ++ r) = p ++ NL :: unlock r.
Proof.
  intros Hp. unfold unlock, lock_line.
  rewrite <- !app_assoc.
  assert (Hm : lock_pat_match (LOCK_OPEN ++ p ++ LOCK_CLOSE ++ [NL] ++ r)
               = Some (p, [NL] ++ r)).
  { unfold lock_pat_match. rewrite strip_prefix_app. cbn [mbind option_bind].
    apply split_at_first_here. intros i Hi.
    by apply (no_match_before_copy 60%N (lit "!--/LOCK-->"));
      [apply lock_close_tail| |]. }
  by rewrite (re_sub_Some _ _ _ _ lock_pat_consuming Hm).
Qed.

End Sentinels.

(** ** The lock round trip *)

Section LockRoundTrip.

Import LockSpec LockLines.

Implicit Types (s p q origin : str) (ps : list str) (lines : list str).

Lemma nl_ws w : forallb is_nl w = true → forallb isspace w = true.
Proof.
  apply forallb_impl. intros c H. apply N.eqb_eq in H. by subst c.
Qed.

Lemma rstrip_nl_free p : nl_free p → rstrip_by is_nl p = p.
Proof.
  unfold nl_free. induction p as [|c p IH]; cbn [forallb rstrip_by]; [done|].
  intros [Hc Hp]%andb_prop. rewrite (IH Hp).
  apply negb_true_iff in Hc. rewrite Hc. by destruct p.
Qed.

Lemma rstrip_nl_line p : nl_free p → rstrip_by is_nl (p ++ [NL]) = p.
Proof.
  intros H. by rewrite rstrip_by_app_ws, rstrip_nl_free.
Qed.

Lemma is_zero_len_rstrip_nl s : is_zero_len (rstrip_by is_nl s) = is_zero_len s.
Proof.
  destruct (rstrip_by_split is_nl s) as (w & Hw & E).
  rewrite E at 2. by rewrite is_zero_len_app_ws by by apply nl_ws.
Qed.

Lemma dedup_key_rstrip_nl s : dedup_key (rstrip_by is_nl s) = dedup_key s.
Proof.
  destruct (rstrip_by_split is_nl s) as (w & Hw & E).
  rewrite E at 2. by rewrite dedup_key_app_ws by by apply nl_ws.
Qed.

Lemma is_zero_len_relined s : is_zero_len (relined s) = is_zero_len s.
Proof.
  unfold relined. destruct (is_zero_len s) eqn:E; [|done].
  by rewrite is_zero_len_app_ws, is_zero_len_rstrip_nl.
Qed.

Lemma dedup_key_relined s : dedup_key (relined s) = dedup_key s.
Proof.
  unfold relined. destruct (is_zero_len s) eqn:E; [|done].
  by rewrite dedup_key_app_ws, dedup_key_rstrip_nl.
Qed.

(** The assignments of [_lock_zero_len_lines] lock every line with a zero
    length hint and leave the others. *)
Lemma assign_locked_from pre lines :
  assign_locked (find_zero_from (length pre) lines) (pre ++ lines)
  = pre ++ map lockify lines.
Proof.
  revert pre; induction lines as [|ln lines IH]; intros pre; [done|].
  cbn [find_zero_from map]. unfold lockify at 1.
  assert (E : ∀ x, pre ++ x :: lines = (pre ++ [x]) ++ lines)
    by (intros x; by rewrite <- app_assoc).
  assert (El : ∀ x : str, S (length pre) = length (pre ++ [x]))
    by (intros x; rewrite length_app; cbn; lia).
  destruct (is_zero_len ln).
  - cbn [assign_locked].
    assert (Ei : <[length pre:=lock_line (rstrip_by is_nl ln)]> (pre ++ ln :: lines)
                 = pre ++ lock_line (rstrip_by is_nl ln) :: lines).
    { rewrite (insert_app_r_alt pre) by lia. by rewrite Nat.sub_diag. }
    rewrite Ei, (El (lock_line (rstrip_by is_nl ln))), E, IH.
    by rewrite <- app_assoc.
  - by rewrite (El ln), E, IH, <- app_assoc.
Qed.

Lemma lock_zero_len_lines_spec md :
  (_lock_zero_len_lines md).1 = concat (map lockify (_split_lines_keep_eol md)).
Proof.
  unfold _lock_zero_len_lines, _find_zero_len_lines. cbn [fst].
  f_equal. apply (assign_locked_from [] (_split_lines_keep_eol md)).
Qed.

Lemma find_zero_from_spec k lines idx origin :
  (idx, origin) ∈ find_zero_from k lines
  ↔ ∃ ln, k <= idx ∧ lines !! (idx - k) = Some ln
          ∧ is_zero_len ln = true ∧ origin = rstrip_by is_nl ln.
Proof.
  revert k; induction lines as [|l lines IH]; intros k;
    cbn [find_zero_from].
  - split; [by intros H%elem_of_nil|]. by intros (ln & _ & H & _).
  - assert (Hrest : (idx, origin) ∈ find_zero_from (S k) lines
              ↔ ∃ ln, k < idx ∧ (l :: lines) !! (idx - k) = Some ln
                      ∧ is_zero_len ln = true ∧ origin = rstrip_by is_nl ln).
    { rewrite IH. split; intros (ln & Hk & Hl & H); exists ln;
        (split; [lia|]); (split; [|done]).
      - replace (idx - k) with (S (idx - S k)) by lia. done.
      - replace (idx - k) with (S (idx - S k)) in Hl by lia. done. }
    destruct (is_zero_len l) eqn:Hz.
    + rewrite elem_of_cons, Hrest. split.
      * intros [[= -> ->]|(ln & Hk & H)].
        -- exists l. rewrite Nat.sub_diag. by repeat split.
        -- exists ln. split; [lia|done].
      * intros (ln & Hk & Hl & Hzl & ->).
        destruct (decide (idx = k)) as [->|Hne].
        -- left. rewrite Nat.sub_diag in Hl. by injection Hl as ->.
        -- right. exists ln. split; [lia|done].
    + rewrite Hrest. split.
      * intros (ln & Hk & H). exists ln. split; [lia|done].
      * intros (ln & Hk & Hl & Hzl & ->).
        destruct (decide (idx = k)) as [->|Hne].
        -- rewrite Nat.sub_diag in Hl. injection Hl as ->. congruence.
        -- exists ln. split; [lia|done].
Qed.

Lemma lockify_nil : lockify [] = [].
Proof. done. Qed.

Lemma relined_nil : relined [] = [].
Proof. done. Qed.

Lemma lockify_line p :
  nl_free p →
  lockify (p ++ [NL]) = if is_zero_len p then lock_line p else p ++ [NL].
Proof.
  intros H. unfold lockify.
  by rewrite is_zero_len_app_ws, rstrip_nl_line.
Qed.

Lemma relined_line p : nl_free p → relined (p ++ [NL]) = p ++ [NL].
Proof.
  intros H. unfold relined. rewrite is_zero_len_app_ws by done.
  rewrite rstrip_nl_line by done. by destruct (is_zero_len p).
Qed.

(** Unlocking the locked text gives the lines back, a locked last line
    with a newline. *)
Lemma unlock_lockified ps :
  ps ≠ [] → Forall nl_free ps →
  Forall (fun p => occurs LOCK_OPEN p = false) ps →
  Forall (fun p => occurs LOCK_CLOSE p = false) ps →
  unlock (concat (map lockify (eol_lines ps)))
  = concat (map relined (eol_lines ps)).
Proof.
  induction ps as [|p ps IH]; [done|]. intros _ Hf Ho Hc.
  apply Forall_cons in Hf as [Hp Hf]. apply Forall_cons in Ho as [Hpo Ho].
  apply Forall_cons in Hc as [Hpc Hc]. destruct ps as [|q ps].
  - destruct p as [|c p]; [done|].
    change (eol_lines [c :: p]) with [c :: p; []].
    cbn [map concat]. rewrite lockify_nil, relined_nil, !app_nil_r.
    unfold lockify, relined. rewrite rstrip_nl_free by done.
    destruct (is_zero_len (c :: p)).
    + rewrite <- (app_nil_r (lock_line (c :: p))).
      by rewrite unlock_locked.
    + by apply unlock_plain_last.
  - change (eol_lines (p :: q :: ps)) with ((p ++ [NL]) :: eol_lines (q :: ps)).
    cbn [map concat]. rewrite lockify_line, relined_line by done.
    rewrite <- IH by done.
    destruct (is_zero_len p).
    + rewrite unlock_locked by done. by rewrite <- app_assoc.
    + rewrite <- !app_assoc. cbn [app]. by apply unlock_plain.
Qed.

(** The unlocked lines are again the lines of a text. *)
Lemma relined_eol ps :
  ps ≠ [] → Forall nl_free ps →
  ∃ ps', ps' ≠ [] ∧ Forall nl_free ps'
         ∧ map relined (eol_lines ps) = eol_lines ps'.
Proof.
  induction ps as [|p ps IH]; [done|]. intros _ Hf.
  apply Forall_cons in Hf as [Hp Hf]. destruct ps as [|q ps].
  - destruct p as [|c p].
    + exists [[]]. split; [done|]. split; [by repeat constructor|done].
    + change (eol_lines [c :: p]) with [c :: p; []]. cbn [map].
      rewrite relined_nil. unfold relined. rewrite rstrip_nl_free by done.
      destruct (is_zero_len (c :: p)).
      * exists [c :: p; []]. split; [done|].
        split; [by repeat constructor|done].
      * exists [c :: p]. split; [done|]. split; [by repeat constructor|done].
  - change (eol_lines (p :: q :: ps)) with ((p ++ [NL]) :: eol_lines (q :: ps)).
    cbn [map]. rewrite relined_line by done.
    destruct IH as (ps' & Hne & Hf' & ->); [done|done|].
    exists (p :: ps'). split; [done|]. split; [by constructor|].
    by destruct ps'.
Qed.

End LockRoundTrip.

Section LockRoundTripProof.

Import LockSpec LockLines.

Implicit Types (s p q origin x y : str) (ps qs : list str)
  (lines : list str).

Lemma ends_nl_nonnil t : ends_nl t → t ≠ [].
Proof. intros [x ->]. by destruct x. Qed.

Lemma concat_ends_nl (D : list str) :
  Forall ends_nl D → concat D = [] ∨ ends_nl (concat D).
Proof.
  induction 1 as [|d D [x ->] _ IH]; [by left|]. right. cbn [concat].
  destruct IH as [->|[y ->]].
  - exists x. by rewrite app_nil_r.
  - exists ((x ++ [NL]) ++ y). by rewrite <- !app_assoc.
Qed.

Lemma glue_snoc (Q : list str) x y (ys : list str) :
  glue (Q ++ [x]) (y :: ys) = Q ++ (x ++ y) :: ys.
Proof.
  induction Q as [|a Q IH]; [done|]. cbn [app].
  destruct (Q ++ [x]) as [|b l] eqn:E; [by destruct Q|].
  change (glue (a :: b :: l) (y :: ys)) with (a :: glue (b :: l) (y :: ys)).
  by rewrite IH.
Qed.

Lemma split_nl_snoc_nl x : ∃ Q, split_nl (x ++ [NL]) = Q ++ [[]].
Proof.
  rewrite split_nl_app. change (split_nl [NL]) with [@nil char; []].
  pose proof (split_nl_nonnil x) as Hne.
  destruct (split_nl x) as [|a l _] using rev_ind; [done|].
  rewrite glue_snoc, app_nil_r. exists (l ++ [a]). by rewrite <- app_assoc.
Qed.

(** A piece between two newlines is a piece of the text. *)
Lemma piece_between x o y :
  x = [] ∨ ends_nl x → y = [] ∨ (∃ z, y = NL :: z) → nl_free o →
  o ∈ split_nl (x ++ o ++ y).
Proof.
  intros Hx Hy Ho.
  assert (E : ∃ rest, split_nl (o ++ y) = o :: rest).
  { destruct Hy as [->|[z ->]].
    - rewrite app_nil_r, split_nl_nl_free by done. by exists [].
    - rewrite split_nl_app, split_nl_nl_free by done.
      cbn [split_nl]. change (is_nl NL) with true. cbn [glue].
      rewrite app_nil_r. by eexists. }
  destruct E as [rest E]. rewrite split_nl_app, E.
  destruct Hx as [->|[x' ->]].
  - cbn. left.
  - destruct (split_nl_snoc_nl x') as [Q ->]. rewrite glue_snoc.
    apply elem_of_app. right. left.
Qed.

Lemma eol_lines_rstrip_free ps ln :
  Forall nl_free ps → ln ∈ eol_lines ps → nl_free (rstrip_by is_nl ln).
Proof.
  induction ps as [|p ps IH]; intros Hf Hin; [by apply elem_of_nil in Hin|].
  apply Forall_cons in Hf as [Hp Hf]. destruct ps as [|q ps].
  - destruct p as [|c p].
    + apply list_elem_of_singleton in Hin. by subst ln.
    + change (eol_lines [c :: p]) with [c :: p; []] in Hin.
      apply elem_of_cons in Hin as [->|Hin]; [by rewrite rstrip_nl_free|].
      apply list_elem_of_singleton in Hin. by subst ln.
  - change (eol_lines (p :: q :: ps))
      with ((p ++ [NL]) :: eol_lines (q :: ps)) in Hin.
    apply elem_of_cons in Hin as [->|Hin]; [by rewrite rstrip_nl_line|].
    by apply IH.
Qed.

Lemma piece_in_lines qs p :
  Forall nl_free qs → p ∈ qs → p ∈ map (rstrip_by is_nl) (eol_lines qs).
Proof.
  induction qs as [|q qs IH]; intros Hf Hin; [by apply elem_of_nil in Hin|].
  apply Forall_cons in Hf as [Hq Hf]. destruct qs as [|q' qs].
  - apply list_elem_of_singleton in Hin. subst q. destruct p as [|c p].
    + left.
    + change (eol_lines [c :: p]) with [c :: p; []]. cbn [map].
      rewrite rstrip_nl_free by done. left.
  - change (eol_lines (q :: q' :: qs))
      with ((q ++ [NL]) :: eol_lines (q' :: qs)).
    cbn [map]. rewrite rstrip_nl_line by done.
    apply elem_of_cons in Hin as [->|Hin]; [left|right]. by apply IH.
Qed.

End LockRoundTripProof.

(** ** A locked line among other lines *)

Section LockSurroundings.

Import LockSpec LockLines.

Implicit Types (s pre post x o : str).

Lemma span_open_from_fuel fuel1 fuel2 s :
  length s <= fuel1 → length s <= fuel2 →
  span_open_from fuel1 s = span_open_from fuel2 s.
Proof.
  revert fuel2 s; induction fuel1 as [|fuel1 IH]; intros fuel2 s H1 H2.
  - destruct s; [|cbn in H1; lia]. by destruct fuel2.
  - destruct fuel2 as [|fuel2].
    { destruct s; [done|cbn in H2; lia]. }
    cbn [span_open_from].
    destruct (strip_prefix LOCK_OPEN s) as [s1|] eqn:E1.
    + apply strip_prefix_length in E1.
      destruct (split_at_first LOCK_CLOSE s1) as [[g rest]|] eqn:E2; [|done].
      apply split_at_first_length in E2.
      change (length LOCK_OPEN) with 11 in E1.
      apply IH; lia.
    + destruct s as [|c t]; [done|]. cbn in H1, H2. apply IH; lia.
Qed.

Lemma span_open_none c t :
  strip_prefix LOCK_OPEN (c :: t) = None → span_open (c :: t) = span_open t.
Proof.
  intros E. unfold span_open. cbn [length span_open_from]. by rewrite E.
Qed.

Lemma span_open_some s s1 :
  strip_prefix LOCK_OPEN s = Some s1 →
  span_open s
  = match split_at_first LOCK_CLOSE s1 with
    | Some (_, rest) => span_open rest
    | None => true
    end.
Proof.
  intros E. pose proof (strip_prefix_length _ _ _ E) as Hl.
  change (length LOCK_OPEN) with 11 in Hl.
  unfold span_open. destruct (length s) as [|n] eqn:En; [lia|].
  cbn [span_open_from]. rewrite E.
  destruct (split_at_first LOCK_CLOSE s1) as [[g rest]|] eqn:E2; [|done].
  apply split_at_first_length in E2. apply span_open_from_fuel; lia.
Qed.

Lemma split_at_first_eq pat s b r :
  split_at_first pat s = Some (b, r) → s = b ++ pat ++ r.
Proof.
  revert b; induction s as [|c s IH]; intros b;
    rewrite split_at_first_unfold.
  - destruct (strip_prefix pat []) as [rest|] eqn:E; [|done].
    intros [= <- <-]. by apply strip_prefix_Some in E.
  - destruct (strip_prefix pat (c :: s)) as [rest|] eqn:E.
    + intros [= <- <-]. by apply strip_prefix_Some in E.
    + destruct (split_at_first pat s) as [[b' r']|]; [|done].
      intros [= <- <-]. cbn. f_equal. by apply IH.
Qed.

Lemma strip_prefix_app_r pat s x r :
  strip_prefix pat s = Some r → strip_prefix pat (s ++ x) = Some (r ++ x).
Proof.
  intros H%strip_prefix_Some. subst s. rewrite <- app_assoc.
  apply strip_prefix_app.
Qed.

(** The first occurrence of a pattern stays the first one when text is
    added at the end. *)
Lemma split_at_first_app pat s x b r :
  split_at_first pat s = Some (b, r) →
  split_at_first pat (s ++ x) = Some (b, r ++ x).
Proof.
  revert b; induction s as [|c s IH]; intros b;
    rewrite split_at_first_unfold.
  - destruct (strip_prefix pat []) as [rest|] eqn:E; [|done].
    intros [= <- <-]. rewrite split_at_first_unfold.
    by rewrite (strip_prefix_app_r _ _ x _ E).
  - destruct (strip_prefix pat (c :: s)) as [rest|] eqn:E.
    + intros [= <- <-]. rewrite split_at_first_unfold.
      by rewrite (strip_prefix_app_r _ _ x _ E).
    + destruct (split_at_first pat s) as [[b' r']|] eqn:E2; [|done].
      intros [= <- <-].
      rewrite split_at_first_unfold. cbn [app].
      destruct (strip_prefix pat (c :: s ++ x)) as [rest|] eqn:E3.
      * (* the pattern occurs at the start of [c :: s ++ x]: it ends inside
           [s], since the occurrence found in [s] ends there *)
        exfalso. apply split_at_first_eq in E2. subst s.
        apply strip_prefix_Some in E3.
        assert (Hp : strip_prefix pat (c :: b' ++ pat ++ r') ≠ None).
        { rewrite <- (take_drop (length pat) (c :: b' ++ pat ++ r')).
          assert (Hlen : length pat <= length (c :: b' ++ pat ++ r')).
          { cbn. rewrite !length_app. lia. }
          assert (take (length pat) (c :: b' ++ pat ++ r') = pat) as ->.
          { apply (f_equal (take (length pat))) in E3.
            rewrite take_app_length in E3.
            etrans; [|exact E3]. symmetry.
            apply (take_app_le (c :: b' ++ pat ++ r') x), Hlen. }
          by rewrite strip_prefix_app. }
        done.
      * by rewrite (IH _ eq_refl).
Qed.

Lemma at_line_start_suffix a b : at_line_start (a ++ b) → at_line_start b.
Proof.
  intros [H|[y H]].
  - apply app_eq_nil in H as [_ ->]. by left.
  - destruct b as [|c b _] using rev_ind; [by left|]. right.
    rewrite app_assoc in H. apply app_inj_tail in H as [_ ->]. by exists b.
Qed.

Lemma at_line_start_tail c t : at_line_start (c :: t) → at_line_start t.
Proof. apply (at_line_start_suffix [c]). Qed.

Lemma unlock_nil : unlock [] = [].
Proof. done. Qed.

Lemma unlock_some s g rest :
  lock_pat_match s = Some (g, rest) → unlock s = g ++ unlock rest.
Proof. intros H. unfold unlock. by apply re_sub_Some; [apply lock_pat_consuming|]. Qed.

Lemma unlock_none c t :
  lock_pat_match (c :: t) = None → unlock (c :: t) = c :: unlock t.
Proof. intros H. unfold unlock. by apply re_sub_None. Qed.

(** Unlocking a text that ends at the end of a line and leaves no lock
    span open does not depend on what follows it. *)
Lemma unlock_app_closed n pre x :
  length pre <= n → at_line_start pre → span_open pre = false →
  unlock (pre ++ x) = unlock pre ++ unlock x.
Proof.
  revert pre; induction n as [|n IH]; intros pre Hn Hs Ho.
  { destruct pre; [done|cbn in Hn; lia]. }
  destruct pre as [|c t]; [done|].
  destruct (strip_prefix LOCK_OPEN (c :: t)) as [s1|] eqn:E1.
  - rewrite (span_open_some _ _ E1) in Ho.
    destruct (split_at_first LOCK_CLOSE s1) as [[g rest]|] eqn:E2; [|done].
    pose proof (strip_prefix_length _ _ _ E1) as Hl1.
    pose proof (split_at_first_length _ _ _ _ E2) as Hl2.
    change (length LOCK_OPEN) with 11 in Hl1.
    assert (Hm : lock_pat_match (c :: t) = Some (g, rest)).
    { unfold lock_pat_match. rewrite E1. done. }
    assert (Hmx : lock_pat_match ((c :: t) ++ x) = Some (g, rest ++ x)).
    { unfold lock_pat_match. rewrite (strip_prefix_app_r _ _ x _ E1).
      cbn [mbind option_bind]. by apply split_at_first_app. }
    rewrite (unlock_some _ _ _ Hm), (unlock_some _ _ _ Hmx), <- app_assoc.
    f_equal. apply IH; [lia| |done].
    apply strip_prefix_Some in E1. apply split_at_first_eq in E2.
    rewrite E1, E2 in Hs. rewrite !app_assoc in Hs.
    by apply at_line_start_suffix in Hs.
  - assert (Ex : strip_prefix LOCK_OPEN ((c :: t) ++ x) = None).
    { destruct (strip_prefix LOCK_OPEN ((c :: t) ++ x)) as [y|] eqn:E;
        [|done]. exfalso.
      apply strip_prefix_straddle in E as [E|(u & Hu & Eu & _)].
      - unfold startswith in E. by rewrite E1 in E.
      - destruct Hs as [?|[y' Hy]]; [done|].
        apply lock_open_nl. rewrite Eu, Hy.
        apply elem_of_app. left. apply elem_of_app. right. left. }
    change ((c :: t) ++ x) with (c :: t ++ x) in *.
    rewrite (unlock_none c (t ++ x)) by by apply lock_match_none.
    rewrite (unlock_none c t) by by apply lock_match_none.
    cbn [app]. f_equal. apply IH; [cbn in Hn; lia| |].
    + by apply at_line_start_tail in Hs.
    + by rewrite <- (span_open_none c t).
Qed.

(** Whatever stands around it, a locked line is unlocked to the line it
    was made from, when the text before it ends at the end of a line and
    leaves no lock span open. *)
Lemma unlock_locked_line pre o post :
  occurs LOCK_CLOSE o = false → at_line_start pre → span_open pre = false →
  unlock (pre ++ lock_line o ++ post)
  = unlock pre ++ o ++ NL :: unlock post.
Proof.
  intros Ho Hs Hp.
  rewrite (unlock_app_closed (length pre)) by done.
  by rewrite unlock_locked.
Qed.

End LockSurroundings.

(** ** The locked text of a document *)

Section LockedText.

Import LockSpec LockLines.

Implicit Types (s p q o : str) (ps : list str).

Lemma span_open_plain p r :
  occurs LOCK_OPEN p = false → span_open (p ++ NL :: r) = span_open r.
Proof.
  induction p as [|c p IH]; intros Hp.
  - cbn [app]. by rewrite span_open_none.
  - assert (Hp' : occurs LOCK_OPEN p = false).
    { cbn [occurs] in Hp. by apply orb_false_elim in Hp as [_ ?]. }
    cbn [app]. rewrite span_open_none; [by apply IH|].
    apply (no_match_before_nl LOCK_OPEN (c :: p) r 0);
      [done|apply lock_open_nl|done].
Qed.

Lemma span_open_locked p r :
  occurs LOCK_CLOSE p = false → span_open (lock_line p ++ r) = span_open r.
Proof.
  intros Hp. unfold lock_line. rewrite <- !app_assoc.
  rewrite (span_open_some _ (p ++ LOCK_CLOSE ++ [NL] ++ r))
    by apply strip_prefix_app.
  rewrite (split_at_first_here LOCK_CLOSE p ([NL] ++ r)).
  - cbn [app]. by rewrite span_open_none.
  - intros i Hi.
    by apply (no_match_before_copy 60%N (lit "!--/LOCK-->"));
      [apply lock_close_tail| |].
Qed.

Lemma span_open_lockified ps :
  Forall nl_free ps →
  Forall (fun p => occurs LOCK_OPEN p = false) ps →
  Forall (fun p => occurs LOCK_CLOSE p = false) ps →
  span_open (concat (map (fun q => lockify (q ++ [NL])) ps)) = false.
Proof.
  induction ps as [|p ps IH]; [done|].
  intros [Hf Hfs]%Forall_cons [Ho Hos]%Forall_cons [Hc Hcs]%Forall_cons.
  cbn [map concat]. rewrite lockify_line by done.
  destruct (is_zero_len p).
  - rewrite span_open_locked by done. by apply IH.
  - rewrite <- app_assoc. cbn [app]. rewrite span_open_plain by done.
    by apply IH.
Qed.

(** The lines before a line that is not empty are the pieces before it,
    each with its newline. *)
Lemma eol_lines_take ps idx ln :
  eol_lines ps !! idx = Some ln → ln ≠ [] →
  take idx (eol_lines ps) = map (fun q => q ++ [NL]) (take idx ps).
Proof.
  revert idx; induction ps as [|p ps IH]; intros idx; [done|].
  destruct ps as [|q ps].
  - destruct p as [|c p].
    + destruct idx as [|[|idx]]; cbn; intros [= <-]; done.
    + change (eol_lines [c :: p]) with [c :: p; []].
      destruct idx as [|[|idx]]; cbn; [done| |done].
      intros [= <-]. done.
  - change (eol_lines (p :: q :: ps))
      with ((p ++ [NL]) :: eol_lines (q :: ps)).
    destruct idx as [|idx]; [done|]. cbn [lookup list_lookup take map].
    intros H Hne. f_equal. by apply IH.
Qed.

Lemma lockify_ends_nl q : nl_free q → ends_nl (lockify (q ++ [NL])).
Proof.
  intros H. rewrite lockify_line by done. destruct (is_zero_len q).
  - exists (LOCK_OPEN ++ q ++ LOCK_CLOSE). unfold lock_line.
    by rewrite <- !app_assoc.
  - by exists q.
Qed.

(** A line of a text that is not empty is the piece at its place, with
    or without its newline. *)
Lemma eol_lines_piece ps idx ln :
  Forall nl_free ps → eol_lines ps !! idx = Some ln → ln ≠ [] →
  ps !! idx = Some (rstrip_by is_nl ln).
Proof.
  revert idx; induction ps as [|p ps IH]; intros idx Hf; [done|].
  apply Forall_cons in Hf as [Hp Hf]. destruct ps as [|q ps].
  - destruct p as [|c p].
    + destruct idx as [|[|idx]]; cbn; intros [= <-]; done.
    + change (eol_lines [c :: p]) with [c :: p; []].
      destruct idx as [|[|idx]]; cbn [lookup list_lookup]; [| |done].
      * intros [= <-] _. by rewrite rstrip_nl_free.
      * intros [= <-]. done.
  - change (eol_lines (p :: q :: ps))
      with ((p ++ [NL]) :: eol_lines (q :: ps)).
    destruct idx as [|idx]; cbn [lookup list_lookup].
    + intros [= <-] _. by rewrite rstrip_nl_line.
    + by apply IH.
Qed.

(** A locked line stands in the locked text at the start of a line; when
    the text holds no sentinel, no lock span is open before it and the
    line holds no sentinel. *)
Lemma locked_text_shape md idx o :
  (idx, o) ∈ (_lock_zero_len_lines md).2 →
  is_zero_len o = true ∧ nl_free o
  ∧ ∃ pre0 post0,
      (_lock_zero_len_lines md).1 = pre0 ++ lock_line o ++ post0
      ∧ at_line_start pre0
      ∧ (occurs LOCK_OPEN md = false → occurs LOCK_CLOSE md = false →
         span_open pre0 = false ∧ occurs LOCK_CLOSE o = false).
Proof.
  intros Hin. rewrite lock_zero_len_lines_spec.
  change ((_lock_zero_len_lines md).2)
    with (find_zero_from 0 (_split_lines_keep_eol md)) in Hin.
  rewrite (split_lines_pieces md) in Hin |- *.
  pose proof (split_nl_pieces_free md) as Hfree.
  set (ps := split_nl md) in *.
  apply find_zero_from_spec in Hin as (ln & _ & Hln & Hz & ->).
  rewrite Nat.sub_0_r in Hln.
  assert (Hne : ln ≠ []) by (intros ->; done).
  split; [by rewrite is_zero_len_rstrip_nl|]. split.
  { apply (eol_lines_rstrip_free ps); [done|].
    apply list_elem_of_lookup. eauto. }
  exists (concat (map lockify (take idx (eol_lines ps)))),
         (concat (map lockify (drop (S idx) (eol_lines ps)))).
  split; [|split].
  - rewrite <- (take_drop_middle _ _ _ Hln) at 1.
    rewrite map_app, concat_app. cbn [map concat].
    unfold lockify at 2. by rewrite Hz.
  - rewrite (eol_lines_take _ _ _ Hln Hne), map_map.
    apply (concat_ends_nl (map (fun q => lockify (q ++ [NL])) (take idx ps))).
    apply Forall_map, Forall_forall. intros q Hq. apply lockify_ends_nl.
    apply (proj1 (Forall_forall _ _) Hfree).
    apply list_elem_of_lookup in Hq as [j Hj].
    apply lookup_take_Some in Hj as [Hj _].
    apply list_elem_of_lookup. eauto.
  - intros Ho Hc. split.
    + rewrite (eol_lines_take _ _ _ Hln Hne), map_map.
      apply span_open_lockified.
      * by apply Forall_take.
      * by apply Forall_take, occurs_pieces_false.
      * by apply Forall_take, occurs_pieces_false.
    + apply (proj1 (Forall_lookup _ _) (occurs_pieces_false _ _ Hc) idx).
      by apply eol_lines_piece.
Qed.

End LockedText.

(** ** The lines the dedup step keeps *)

Section SurvivingLines.

Import LockSpec LockLines.

Implicit Types (s p q o l k : str) (K L A B : list str).

Lemma lines_ok_eol ps : Forall nl_free ps → lines_ok (eol_lines ps).
Proof.
  induction ps as [|p ps IH]; [done|]. intros [Hp Hps]%Forall_cons.
  destruct ps as [|q ps].
  - destruct p as [|c p].
    + cbn. split; [|done]. exists []. split; [done|by right].
    + change (eol_lines [c :: p]) with [c :: p; []]. cbn [lines_ok].
      split; [exists (c :: p); split; [done|by right]|].
      split; [|done]. exists []. split; [done|by right].
  - change (eol_lines (p :: q :: ps))
      with ((p ++ [NL]) :: eol_lines (q :: ps)).
    cbn [lines_ok]. split; [|by apply IH].
    exists p. split; [done|by left].
Qed.

Lemma first_occurrences_subset earlier K l :
  l ∈ first_occurrences earlier K → l ∈ K.
Proof.
  revert earlier; induction K as [|x K IH]; intros earlier;
    cbn [first_occurrences]; [done|].
  intros [H|H]%elem_of_app.
  - destruct (is_zero_len x && repeats_key earlier x);
      [by apply elem_of_nil in H|].
    apply list_elem_of_singleton in H. subst. left.
  - right. by apply IH in H.
Qed.

Lemma concat_nil_first earlier K :
  concat K = [] → concat (first_occurrences earlier K) = [].
Proof.
  revert earlier; induction K as [|x K IH]; intros earlier; [done|].
  cbn [concat first_occurrences]. intros [-> HK]%app_eq_nil.
  rewrite concat_app, (IH _ HK), app_nil_r.
  by destruct (is_zero_len [] && repeats_key earlier []).
Qed.

Lemma lines_ok_first earlier K :
  lines_ok K → lines_ok (first_occurrences earlier K).
Proof.
  revert earlier; induction K as [|x K IH]; intros earlier; [done|].
  cbn [lines_ok first_occurrences]. intros [(p & Hp & Hx) HK].
  destruct (is_zero_len x && repeats_key earlier x); cbn [app];
    [by apply IH|].
  cbn [lines_ok]. split; [|by apply IH].
  exists p. split; [done|]. destruct Hx as [?|[? Hc]]; [by left|right].
  split; [done|]. by apply concat_nil_first.
Qed.

Lemma forallb_concat (f : char → bool) K :
  forallb f (concat K) = forallb (forallb f) K.
Proof.
  induction K as [|x K IH]; [done|]. cbn [concat forallb].
  by rewrite forallb_app, IH.
Qed.

Lemma rstrip_lines_nil K :
  rstrip_lines K = [] ↔ forallb (forallb isspace) K = true.
Proof.
  induction K as [|x K IH]; [done|]. cbn [rstrip_lines forallb].
  destruct (rstrip_lines K) as [|r R] eqn:E.
  - rewrite (proj1 IH eq_refl), andb_true_r.
    rewrite <- (rstrip_by_nil_iff isspace x). fold (rstrip x).
    by destruct (rstrip x).
  - split; [done|]. intros [_ H]%andb_prop. by apply IH in H.
Qed.

Lemma nl_free_rstrip p : nl_free p → nl_free (rstrip p).
Proof.
  unfold nl_free. destruct (rstrip_by_split isspace p) as (w & _ & E).
  fold (rstrip p) in E. rewrite E at 1. rewrite forallb_app.
  by intros [? _]%andb_prop.
Qed.

Lemma split_nl_line p z : nl_free p → split_nl (p ++ NL :: z) = p :: split_nl z.
Proof.
  unfold nl_free. induction p as [|c p IH]; [done|].
  cbn [forallb app split_nl]. intros [Hc Hp]%andb_prop.
  apply negb_true_iff in Hc. by rewrite Hc, IH.
Qed.

(** The pieces of the text of a list of lines, once trimmed at its end. *)
Lemma split_rstrip_concat K :
  lines_ok K →
  split_nl (rstrip (concat K))
  = match rstrip_lines K with [] => [[]] | R => R end.
Proof.
  induction K as [|x K IH]; [done|].
  cbn [lines_ok concat rstrip_lines]. intros [(p & Hp & Hx) HK].
  specialize (IH HK).
  destruct (rstrip_lines K) as [|r R] eqn:E.
  - assert (Hws : forallb isspace (concat K) = true).
    { rewrite forallb_concat. by apply rstrip_lines_nil. }
    unfold rstrip. rewrite rstrip_by_app_ws by done. fold (rstrip x).
    assert (Hr : rstrip x = rstrip p).
    { destruct Hx as [->|[-> _]]; [|done].
      unfold rstrip. by rewrite rstrip_by_app_ws. }
    rewrite Hr. pose proof (nl_free_rstrip p Hp) as Hf.
    destruct (rstrip p) as [|c rp]; [done|]. by apply split_nl_nl_free.
  - assert (Hr : rstrip (concat K) ≠ []).
    { intros H. apply rstrip_by_nil_iff in H. rewrite forallb_concat in H.
      apply rstrip_lines_nil in H. by rewrite H in E. }
    destruct Hx as [->|[_ Hc]]; [|by rewrite Hc in Hr].
    unfold rstrip. rewrite rstrip_by_app_keep by done.
    fold (rstrip (concat K)). rewrite <- app_assoc. cbn [app].
    rewrite split_nl_line by done. rewrite IH.
    by rewrite rstrip_nl_line.
Qed.

Lemma elem_rstrip_eol qs o :
  Forall nl_free qs → o ≠ [] →
  o ∈ map (rstrip_by is_nl) (eol_lines qs) ↔ o ∈ qs.
Proof.
  intros Hf Hne. split; [|by apply piece_in_lines].
  induction qs as [|p ps IH]; [done|].
  apply Forall_cons in Hf as [Hp Hf]. destruct ps as [|q ps].
  - destruct p as [|c p].
    + cbn. intros H%list_elem_of_singleton. done.
    + change (eol_lines [c :: p]) with [c :: p; []]. cbn [map].
      rewrite rstrip_nl_free by done.
      intros [->|H]%elem_of_cons; [left|].
      apply list_elem_of_singleton in H. done.
  - change (eol_lines (p :: q :: ps))
      with ((p ++ [NL]) :: eol_lines (q :: ps)).
    cbn [map]. rewrite rstrip_nl_line by done.
    intros [->|H]%elem_of_cons; [left|right]. by apply IH.
Qed.

Lemma rstrip_lines_elem K q :
  q ∈ rstrip_lines K →
  ∃ l, l ∈ K ∧ (q = rstrip_by is_nl l ∨ q = rstrip l).
Proof.
  induction K as [|x K IH]; cbn [rstrip_lines]; [by intros ?%elem_of_nil|].
  destruct (rstrip_lines K) as [|r R] eqn:E.
  - destruct (rstrip x) as [|c rx] eqn:Ex; [by intros ?%elem_of_nil|].
    intros ->%list_elem_of_singleton. exists x. split; [left|by right].
  - intros [->|H]%elem_of_cons.
    + exists x. split; [left|by left].
    + destruct (IH H) as (l & Hl & Hq). exists l. split; [by right|done].
Qed.

Lemma rstrip_lines_app K1 K2 :
  rstrip_lines K2 ≠ [] →
  rstrip_lines (K1 ++ K2) = map (rstrip_by is_nl) K1 ++ rstrip_lines K2.
Proof.
  intros H. induction K1 as [|x K1 IH]; [done|].
  cbn [app rstrip_lines map]. rewrite IH.
  destruct (map (rstrip_by is_nl) K1 ++ rstrip_lines K2) eqn:E; [|done].
  by apply app_eq_nil in E as [_ ?].
Qed.

Lemma rstrip_lines_cons F K2 :
  rstrip F ≠ [] →
  rstrip_lines (F :: K2)
  = if forallb (forallb isspace) K2 then [rstrip F]
    else rstrip_by is_nl F :: rstrip_lines K2.
Proof.
  intros HF. cbn [rstrip_lines].
  destruct (rstrip_lines K2) as [|r R] eqn:E.
  - rewrite (proj1 (rstrip_lines_nil K2) E). by destruct (rstrip F).
  - destruct (forallb (forallb isspace) K2) eqn:Eb; [|done].
    apply rstrip_lines_nil in Eb. by rewrite Eb in E.
Qed.

Lemma zero_len_not_blank F : is_zero_len F = true → rstrip F ≠ [].
Proof.
  intros Hz H. apply rstrip_by_nil_iff in H. unfold is_zero_len in Hz.
  by rewrite len_pat_search_ws in Hz.
Qed.

(** The first line that carries a key. *)
Lemma first_carrier k L :
  (∃ l, l ∈ L ∧ carries_key k l = true) →
  ∃ A F B, L = A ++ F :: B ∧ carries_key k F = true
           ∧ Forall (fun l => carries_key k l = false) A.
Proof.
  induction L as [|x L IH]; intros (l & Hl & Hk);
    [by apply elem_of_nil in Hl|].
  destruct (carries_key k x) eqn:Ex.
  - exists [], x, L. done.
  - destruct IH as (A & F & B & -> & HF & HA).
    { exists l. split; [|done].
      apply elem_of_cons in Hl as [->|?]; [congruence|done]. }
    exists (x :: A), F, B. split; [done|]. split; [done|].
    by constructor.
Qed.

Lemma repeats_key_carries A F :
  repeats_key A F = existsb (carries_key (dedup_key F)) A.
Proof. done. Qed.

Lemma carries_key_ws k o w :
  forallb isspace w = true → carries_key k (o ++ w) = carries_key k o.
Proof.
  intros H. unfold carries_key.
  by rewrite is_zero_len_app_ws, dedup_key_app_ws.
Qed.

Lemma carries_key_self o : is_zero_len o = true → carries_key (dedup_key o) o = true.
Proof.
  intros H. unfold carries_key. rewrite H. by apply bool_decide_eq_true.
Qed.

Lemma carries_key_spec k l :
  carries_key k l = true ↔ is_zero_len l = true ∧ dedup_key l = k.
Proof.
  unfold carries_key, str_eqb. rewrite andb_true_iff, bool_decide_eq_true.
  done.
Qed.

(** A line of a text that was trimmed at its end comes from a line of the
    text: it is that line without white space at its end. *)
Lemma trimmed_line_origin l o :
  o = rstrip_by is_nl l ∨ o = rstrip l →
  ∃ w, forallb isspace w = true ∧ l = o ++ w.
Proof.
  intros [->| ->].
  - destruct (rstrip_by_split is_nl l) as (w & Hw & E).
    exists w. split; [by apply nl_ws|done].
  - destruct (rstrip_by_split isspace l) as (w & Hw & E). by exists w.
Qed.

Lemma kept_split A F B :
  repeats_key A F = false →
  first_occurrences [] (A ++ F :: B)
  = first_occurrences [] A ++ F :: first_occurrences (A ++ [F]) B.
Proof.
  intros H. rewrite first_occurrences_app. cbn [first_occurrences app].
  by rewrite H, andb_false_r.
Qed.

(** Which lines are found in the result of the dedup step. A line [o]
    with a zero length hint is a line of the result exactly when the
    first line [F] that carries its key is [o]: [o] with its newline when
    a line that is not blank is kept after [F], and [o] followed by white
    space when none is, since the end of the result is trimmed. *)
Lemma survive_iff U o :
  is_zero_len o = true → nl_free o →
  o ∈ map (rstrip_by is_nl)
        (_split_lines_keep_eol
           (rstrip (concat (first_occurrences [] (_split_lines_keep_eol U)))))
  ↔ ∃ A F B,
      _split_lines_keep_eol U = A ++ F :: B
      ∧ is_zero_len F = true ∧ dedup_key F = dedup_key o
      ∧ repeats_key A F = false
      ∧ (if forallb (forallb isspace) (first_occurrences (A ++ [F]) B)
         then rstrip F = o else rstrip_by is_nl F = o).
Proof.
  intros Hz Hfree.
  assert (Hne : o ≠ []) by (intros ->; done).
  set (L := _split_lines_keep_eol U).
  assert (HokL : lines_ok L).
  { unfold L. rewrite split_lines_pieces.
    apply lines_ok_eol, split_nl_pieces_free. }
  rewrite (split_lines_pieces (rstrip _)).
  rewrite elem_rstrip_eol by (apply split_nl_pieces_free || done).
  rewrite split_rstrip_concat by by apply lines_ok_first.
  assert (Hmem : ∀ R : list str,
            o ∈ match R with [] => [[]] | r :: R' => r :: R' end ↔ o ∈ R).
  { intros [|r R]; [|done]. split; [|by intros ?%elem_of_nil].
    by intros ?%list_elem_of_singleton. }
  rewrite (Hmem (rstrip_lines (first_occurrences [] L))). clear Hmem.
  assert (Hcommon : ∀ A F B,
            L = A ++ F :: B → carries_key (dedup_key o) F = true →
            repeats_key A F = false →
            rstrip_lines (first_occurrences [] L)
            = map (rstrip_by is_nl) (first_occurrences [] A)
                ++ (if forallb (forallb isspace)
                         (first_occurrences (A ++ [F]) B)
                    then [rstrip F]
                    else rstrip_by is_nl F
                           :: rstrip_lines (first_occurrences (A ++ [F]) B))).
  { intros A F B -> [HzF _]%carries_key_spec Hrep.
    rewrite kept_split by done.
    pose proof (rstrip_lines_cons F (first_occurrences (A ++ [F]) B)
                  (zero_len_not_blank F HzF)) as Hc.
    rewrite rstrip_lines_app; rewrite Hc; [done|].
    by destruct (forallb _ _). }
  split.
  - intros Hin.
    pose proof Hin as Hin0.
    apply rstrip_lines_elem in Hin0 as (l & Hl & Hq).
    apply trimmed_line_origin in Hq as (w & Hw & ->).
    destruct (first_carrier (dedup_key o) L) as (A & F & B & EL & HF & HA).
    { exists (o ++ w). split; [by apply first_occurrences_subset in Hl|].
      rewrite carries_key_ws by done. by apply carries_key_self. }
    assert (Hrep : repeats_key A F = false).
    { rewrite repeats_key_carries.
      apply carries_key_spec in HF as [_ ->].
      apply not_true_is_false. intros (x & Hx & Hkx)%existsb_exists.
      apply list_elem_of_In in Hx.
      apply (proj1 (Forall_forall _ _) HA) in Hx. congruence. }
    exists A, F, B. split; [done|].
    pose proof HF as [HzF HkF]%carries_key_spec.
    split; [done|]. split; [done|]. split; [done|].
    rewrite (Hcommon A F B EL HF Hrep) in Hin.
    apply elem_of_app in Hin as [Hin|Hin].
    + exfalso. apply list_elem_of_fmap in Hin as (l1 & -> & Hl1).
      apply first_occurrences_subset in Hl1.
      apply (proj1 (Forall_forall _ _) HA) in Hl1.
      unfold carries_key in Hl1.
      rewrite <- is_zero_len_rstrip_nl, <- dedup_key_rstrip_nl in Hl1.
      fold (carries_key (dedup_key (rstrip_by is_nl l1)) (rstrip_by is_nl l1))
        in Hl1.
      by rewrite carries_key_self in Hl1.
    + destruct (forallb (forallb isspace) (first_occurrences (A ++ [F]) B)).
      * by apply list_elem_of_singleton in Hin.
      * apply elem_of_cons in Hin as [->|Hin]; [done|]. exfalso.
        apply rstrip_lines_elem in Hin as (l2 & Hl2 & Hq2).
        apply trimmed_line_origin in Hq2 as (w2 & Hw2 & ->).
        destruct (first_occurrences_NoDup (A ++ [F]) B) as [_ Hnd].
        apply (Hnd (dedup_key o)).
        -- apply elem_of_zero_keys. exists (o ++ w2). split; [done|].
           by rewrite is_zero_len_app_ws, dedup_key_app_ws.
        -- apply elem_of_zero_keys. exists F. split; [|done].
           apply elem_of_app. right. left.
  - intros (A & F & B & EL & HzF & HkF & Hrep & Hcond).
    rewrite (Hcommon A F B EL); [|by apply carries_key_spec|done].
    apply elem_of_app. right.
    destruct (forallb (forallb isspace) (first_occurrences (A ++ [F]) B));
      subst o; left.
Qed.

End SurvivingLines.

(** ** The lock round trip *)

Section LockRoundTripTheorem.

Import LockSpec LockLines Decks.

Lemma unlock_closed_ends n pre :
  length pre <= n → pre ≠ [] → at_line_start pre → span_open pre = false →
  ends_nl (unlock pre).
Proof.
  revert pre; induction n as [|n IH]; intros pre Hn Hne Hs Ho.
  { destruct pre; [done|cbn in Hn; lia]. }
  destruct pre as [|c t]; [done|].
  destruct (strip_prefix LOCK_OPEN (c :: t)) as [s1|] eqn:E1.
  - rewrite (span_open_some _ _ E1) in Ho.
    destruct (split_at_first LOCK_CLOSE s1) as [[g rest]|] eqn:E2; [|done].
    pose proof (strip_prefix_length _ _ _ E1) as Hl1.
    pose proof (split_at_first_length _ _ _ _ E2) as Hl2.
    change (length LOCK_OPEN) with 11 in Hl1.
    assert (Hm : lock_pat_match (c :: t) = Some (g, rest)).
    { unfold lock_pat_match. rewrite E1. done. }
    rewrite (unlock_some _ _ _ Hm).
    apply strip_prefix_Some in E1. apply split_at_first_eq in E2.
    assert (Hrest : rest ≠ []).
    { intros ->. destruct Hs as [?|[y Hy]]; [done|].
      rewrite E1, E2, app_nil_r in Hy.
      change LOCK_CLOSE with (lit "<!--/LOCK--" ++ [62%N]) in Hy.
      rewrite !app_assoc in Hy. by apply app_inj_tail in Hy as [_ ?]. }
    destruct (IH rest) as [y Hy]; [lia|done| |done|].
    + rewrite E1, E2 in Hs. rewrite !app_assoc in Hs.
      by apply at_line_start_suffix in Hs.
    + exists (g ++ y). by rewrite Hy, app_assoc.
  - rewrite (unlock_none c t) by by apply lock_match_none.
    destruct t as [|d t].
    + destruct Hs as [?|[y Hy]]; [done|].
      destruct y; [|by destruct y]. injection Hy as ->. by exists [].
    + destruct (IH (d :: t)) as [y Hy]; [cbn in Hn |- *; lia|done| | |].
      * by apply at_line_start_tail in Hs.
      * by rewrite <- (span_open_none c (d :: t)).
      * exists (c :: y). by rewrite Hy.
Qed.

(** C2, as amended. Let [origin] be a locked line of [md], a line with
    a zero length hint. (1) Unlocking puts the line back whatever stands
    around it: in every text in which its locked form stands at the start
    of a line, with no lock span left open before it and no closing
    sentinel inside it, the unlocked text has [origin] in its place, byte
    for byte, between the unlocked surroundings. (2) In the result of
    [_unlock_and_dedup] on any text, [origin] is found as a line exactly
    when the first line [F] of the unlocked text that carries its key is
    the line itself: [F] without its newline when a line that is not
    blank is kept after [F], and [F] without the white space at its end
    when none is, the end of the result being trimmed. (3) The locked
    text of [md] has the locked form of [origin] at the start of a line,
    and with [md] free of sentinels it meets the conditions of (1). *)
Theorem lock_round_trip (md : str) (idx : nat) (origin : str) :
  (idx, origin) ∈ (_lock_zero_len_lines md).2 →
  (∀ pre post,
     occurs LOCK_CLOSE origin = false →
     at_line_start pre → span_open pre = false →
     unlock (pre ++ lock_line origin ++ post)
     = unlock pre ++ origin ++ NL :: unlock post
     ∧ origin ∈ map (rstrip_by is_nl)
                  (_split_lines_keep_eol
                     (unlock (pre ++ lock_line origin ++ post))))
  ∧ (∀ raw zero_lines,
       origin ∈ map (rstrip_by is_nl)
                  (_split_lines_keep_eol
                     (_unlock_and_dedup raw zero_lines false))
       ↔ ∃ A F B,
           _split_lines_keep_eol (unlock raw) = A ++ F :: B
           ∧ is_zero_len F = true ∧ dedup_key F = dedup_key origin
           ∧ repeats_key A F = false
           ∧ (if forallb (forallb isspace) (first_occurrences (A ++ [F]) B)
              then rstrip F = origin else rstrip_by is_nl F = origin))
  ∧ ∃ pre0 post0,
      (_lock_zero_len_lines md).1 = pre0 ++ lock_line origin ++ post0
      ∧ at_line_start pre0
      ∧ (occurs LOCK_OPEN md = false → occurs LOCK_CLOSE md = false →
         span_open pre0 = false ∧ occurs LOCK_CLOSE origin = false).
Proof.
  intros Hin.
  destruct (locked_text_shape md idx origin Hin) as (Hz & Hfree & Hshape).
  split; [|split; [|done]].
  - intros pre post Hclose Hs Ho.
    assert (Hu : unlock (pre ++ lock_line origin ++ post)
                 = unlock pre ++ origin ++ NL :: unlock post)
      by by apply unlock_locked_line.
    split; [done|]. rewrite Hu, split_lines_pieces.
    apply piece_in_lines; [apply split_nl_pieces_free|].
    apply piece_between; [|right; by eexists|done].
    destruct (decide (pre = [])) as [->|Hne]; [by left|]. right.
    by apply (unlock_closed_ends (length pre)).
  - intros raw zero_lines.
    rewrite unlock_and_dedup_unfold. cbn [id]. by apply survive_iff.
Qed.

End LockRoundTripTheorem.


(** ** Where the claims about locking fail *)

Section LockCounterexamples.

Import LockSpec.

(** Two lines with a zero length hint carry the token of the same shape
    but differ in their markup: both stay. *)
Lemma dedup_by_token_counterexample :
  ¬ dedups_by_token
      (lit "### {{S1_P1}} <!--len:0-->" ++ [NL]
         ++ lit "- {{S1_P1}} <!--len:0-->").
Proof.
  intros H.
  apply (H 0 0 0 1 (lit "### {{S1_P1}} <!--len:0-->" ++ [NL])
           (lit "- {{S1_P1}} <!--len:0-->"));
    try reflexivity; [lia|].
  vm_compute. right. left.
Qed.

(** Two locked lines that differ only in the spacing before the length
    hint have the same key: the second one is lost. *)
Lemma lock_round_trip_counterexample :
  ¬ locked_lines_survive
      (lit "### {{S1_P1}} <!--len:0-->" ++ [NL]
         ++ lit "### {{S1_P1}}  <!--len:0-->").
Proof.
  intros H.
  specialize (H 1 (lit "### {{S1_P1}}  <!--len:0-->")).
  assert (Hin : (1, lit "### {{S1_P1}}  <!--len:0-->")
                ∈ (_lock_zero_len_lines
                     (lit "### {{S1_P1}} <!--len:0-->" ++ [NL]
                        ++ lit "### {{S1_P1}}  <!--len:0-->")).2).
  { vm_compute. right. left. }
  apply H in Hin. vm_compute in Hin.
  repeat (apply elem_of_cons in Hin as [Hin|Hin]; [discriminate Hin|]).
  by apply elem_of_nil in Hin.
Qed.

(** A lock span inside a lock span is opened one level at a time. *)
Lemma dedup_idempotence_counterexample :
  ¬ dedup_idempotent_at
      (LOCK_OPEN ++ LOCK_OPEN ++ lit "a" ++ LOCK_CLOSE ++ LOCK_CLOSE) false.
Proof. intros H. specialize (H []). vm_compute in H. discriminate H. Qed.

End LockCounterexamples.

(** ** The lock engine on sample texts *)

Section LockInstances.

Import LockSpec Decks.

Lemma lock_round_trip_witness :
  (lit "### {{S1_P1}} <!--len:0-->"
   ∈ map (rstrip_by is_nl)
       (_split_lines_keep_eol
          (_unlock_and_dedup
             (lit "## A new heading" ++ [NL]
                ++ lock_line (lit "### {{S1_P1}} <!--len:0-->")
                ++ lit "- a new body") [] false)))
  ∧ (lit "X <!--len:0--> "
     ∈ map (rstrip_by is_nl)
         (_split_lines_keep_eol
            (_unlock_and_dedup
               (lock_line (lit "X <!--len:0--> ") ++ lit "foo") [] false)))
  ∧ (lit "A <!--len:0-->"
     ∈ map (rstrip_by is_nl)
         (_split_lines_keep_eol
            (_unlock_and_dedup
               (lock_line (lit "A <!--len:0-->")
                  ++ lock_line (lit "A <!--len:0-->")) [] false)))
  ∧ unlock (lit "## A new heading" ++ [NL]
              ++ lock_line (lit "### {{S1_P1}} <!--len:0-->")
              ++ lit "- a new body")
    = lit "## A new heading" ++ [NL] ++ lit "### {{S1_P1}} <!--len:0-->"
        ++ NL :: lit "- a new body".
Proof.
  split; [|split; [|split]].
  - destruct (lock_round_trip sample_md 1 (lit "### {{S1_P1}} <!--len:0-->"))
      as (_ & H & _); [vm_compute; left|].
    apply H.
    exists [lit "## A new heading" ++ [NL]],
           (lit "### {{S1_P1}} <!--len:0-->" ++ [NL]),
           [lit "- a new body"; []].
    repeat split; reflexivity.
  - destruct (lock_round_trip (lit "X <!--len:0--> " ++ [NL] ++ lit "foo") 0
                (lit "X <!--len:0--> "))
      as (_ & H & _); [vm_compute; left|].
    apply H.
    exists [], (lit "X <!--len:0--> " ++ [NL]), [lit "foo"; []].
    repeat split; reflexivity.
  - destruct (lock_round_trip
                (lit "A <!--len:0-->" ++ [NL] ++ lit "A <!--len:0-->") 1
                (lit "A <!--len:0-->"))
      as (_ & H & _); [vm_compute; right; left|].
    apply H.
    exists [], (lit "A <!--len:0-->" ++ [NL]),
           [lit "A <!--len:0-->" ++ [NL]; []].
    repeat split; reflexivity.
  - destruct (lock_round_trip sample_md 1 (lit "### {{S1_P1}} <!--len:0-->"))
      as (H & _); [vm_compute; left|].
    apply (H (lit "## A new heading" ++ [NL]) (lit "- a new body")).
    + reflexivity.
    + right. by exists (lit "## A new heading").
    + reflexivity.
Defined.

Example lock_sample :
  (_lock_zero_len_lines sample_md).1
  = lit "## Slide 1" ++ [NL]
      ++ lit "<!--LOCK-->### {{S1_P1}} <!--len:0--><!--/LOCK-->" ++ [NL]
      ++ lit "- {{S1_P2}} <!--len:40-->" ++ [NL].
Proof. reflexivity. Qed.

Lemma dedup_keeps_first_by_key_witness :
  _unlock_and_dedup
    (lit "### {{S1_P1}} <!--len:0-->" ++ [NL]
       ++ lit "### {{S1_P1}}  <!--len:0-->" ++ [NL] ++ lit "text") [] false
  = lit "### {{S1_P1}} <!--len:0-->" ++ [NL] ++ lit "text".
Proof.
  rewrite (proj1 (dedup_keeps_first_by_key _ [] false)). reflexivity.
Defined.

Lemma dedup_idempotent_witness :
  _unlock_and_dedup (_unlock_and_dedup sample_md [] true) [] true
  = _unlock_and_dedup sample_md [] true.
Proof.
  apply (dedup_idempotent sample_md [] true); [reflexivity|].
  intros _ ln Hin. vm_compute in Hin.
  repeat (apply elem_of_cons in Hin as [->|Hin]; [reflexivity|]).
  by apply elem_of_nil in Hin.
Defined.

End LockInstances.

(** ** The shape of the extracted markdown *)

Section MarkdownShape.

Import ExtractorSpec SlideText LockSpec.

Implicit Types (sl : slide) (sls : list slide) (ls rest : list str).

Lemma extract_slides_lines k sls md_lines ph_map :
  (extract_slides k sls (md_lines, ph_map)).1
  = md_lines ++ concat (imap (fun i => slide_lines (k + i)) sls).
Proof.
  revert k md_lines ph_map; induction sls as [|sl sls IH];
    intros k md_lines ph_map; cbn [extract_slides imap concat].
  - by rewrite app_nil_r.
  - pose proof (extract_slide_lines k sl md_lines ph_map) as H.
    destruct (extract_slide k sl (md_lines, ph_map)) as [md' pm'].
    cbn [fst] in H. subst md'. rewrite IH, <- app_assoc, Nat.add_0_r.
    do 3 f_equal. apply imap_ext. intros i x _. cbn. f_equal. lia.
Qed.

Lemma pptx_to_markdown_lines prs :
  (pptx_to_markdown prs).1
  = join [NL] (concat (imap slide_lines (slides prs))).
Proof.
  unfold pptx_to_markdown.
  pose proof (extract_slides_lines 0 (slides prs) [] ∅) as H.
  destruct (extract_slides 0 (slides prs) ([], ∅)) as [md pm].
  cbn [fst] in *. by subst md.
Qed.

Lemma join_cons sep (x : str) ls :
  ls ≠ [] → join sep (x :: ls) = x ++ sep ++ join sep ls.
Proof. by destruct ls. Qed.

Lemma join_app sep ls rest :
  ls ≠ [] → rest ≠ [] →
  join sep (ls ++ rest) = join sep ls ++ sep ++ join sep rest.
Proof.
  intros Hl Hr. induction ls as [|x ls IH]; [done|].
  destruct ls as [|y ls].
  - cbn [app]. by rewrite join_cons.
  - rewrite <- app_comm_cons, !join_cons, IH, <- !app_assoc by done. done.
Qed.

(** The lines of a slide, joined, are its block and a newline; a second
    newline separates it from what follows. *)
Lemma join_slide_lines k sl rest :
  join [NL] (slide_lines k sl ++ rest)
  = block_text (block_of k sl)
      ++ NL :: match rest with [] => [] | _ => NL :: join [NL] rest end.
Proof.
  unfold slide_lines, block_of, block_text, core_lines; cbn [fst snd].
  destruct (text_items k 0 (shapes sl)) as [|it its].
  - rewrite <- app_comm_cons, join_cons by done. rewrite <- !app_assoc.
    f_equal. cbn [app]. f_equal. destruct rest as [|r rest].
    + done.
    + rewrite join_cons by done. cbn [join]. by rewrite <- !app_assoc.
  - rewrite <- app_comm_cons, join_cons by (by destruct its).
    rewrite <- !app_assoc. f_equal. cbn [app]. f_equal.
    set (cl := map item_line (it :: its)).
    assert (Hcl : cl ≠ []) by done.
    rewrite join_app by done. by destruct rest.
Qed.

Lemma markdown_blocks_from k sls :
  sls ≠ [] →
  join [NL] (concat (imap (fun i => slide_lines (k + i)) sls))
  = text_of_blocks (imap (fun i => block_of (k + i)) sls) ++ [NL].
Proof.
  revert k; induction sls as [|sl sls IH]; intros k Hne; [done|].
  cbn [imap concat]. rewrite Nat.add_0_r, join_slide_lines.
  assert (E1 : imap ((fun i => slide_lines (k + i)) ∘ S) sls
               = imap (fun i => slide_lines (S k + i)) sls).
  { apply imap_ext. intros i x _. cbn. f_equal. lia. }
  assert (E2 : imap ((fun i => block_of (k + i)) ∘ S) sls
               = imap (fun i => block_of (S k + i)) sls).
  { apply imap_ext. intros i x _. cbn. f_equal. lia. }
  rewrite E1, E2. destruct sls as [|sl' sls].
  - done.
  - specialize (IH (S k) ltac:(done)).
    destruct (concat (imap (fun i => slide_lines (S k + i)) (sl' :: sls)))
      as [|l ls] eqn:E.
    { exfalso. cbn [imap concat] in E. unfold slide_lines in E. done. }
    rewrite IH.
    destruct (imap (fun i => block_of (S k + i)) (sl' :: sls)) as [|b bs] eqn:Eb;
      [done|].
    change (text_of_blocks (block_of k sl :: b :: bs))
      with (block_text (block_of k sl) ++ NL :: NL :: text_of_blocks (b :: bs)).
    by rewrite <- !app_assoc.
Qed.

End MarkdownShape.

(** ** The slide pattern on the extracted markdown *)

Section SlidePattern.

Import ExtractorSpec SlideText LockSpec.

Implicit Types (l r rest D : str) (c : char).

Lemma nl_free_app a b : nl_free a → nl_free b → nl_free (a ++ b).
Proof. unfold nl_free. intros Ha Hb. by rewrite forallb_app, Ha, Hb. Qed.

Lemma digit_not_nl c : is_ascii_digit c = true → negb (is_nl c) = true.
Proof.
  unfold is_ascii_digit, is_nl, NL. intros [H1 H2]%andb_prop.
  apply N.leb_le in H1. apply negb_true_iff, N.eqb_neq. lia.
Qed.

Lemma digit_not_space c : is_ascii_digit c = true → isspace c = false.
Proof. intros H. by apply decimal_not_space, ascii_digit_decimal. Qed.

Lemma nl_free_digits D : forallb is_ascii_digit D = true → nl_free D.
Proof. apply forallb_impl, digit_not_nl. Qed.

Lemma nl_free_ph s i : nl_free (_make_ph_name s i).
Proof.
  unfold _make_ph_name.
  repeat apply nl_free_app; try done; apply nl_free_digits, str_of_nat_digits.
Qed.

Lemma nl_free_heading k : nl_free (slide_heading k).
Proof.
  unfold slide_heading. apply nl_free_app; [done|].
  apply nl_free_digits, str_of_nat_digits.
Qed.

Lemma core_line_nl_free l : core_line l → nl_free l.
Proof.
  intros [->|(s & i & ln & tag & -> & Htag)]; [done|].
  unfold item_line, segment; cbn [fst snd].
  assert (Hseg : nl_free
            (_make_ph_name s i
               ++ match tag with [] => [] | _ :: _ => lit " " ++ tag end
               ++ lit " <!--len:" ++ str_of_nat ln ++ lit "-->")).
  { apply nl_free_app; [apply nl_free_ph|].
    apply nl_free_app; [by destruct Htag as [->|[->| ->]]|].
    apply nl_free_app; [done|].
    apply nl_free_app; [apply nl_free_digits, str_of_nat_digits|done]. }
  destruct (ln <=? 10); by apply nl_free_app.
Qed.

(** A core line starts with a character that is not whitespace, no match
    of the slide pattern starts with it, and it ends with a character
    that is neither a dash nor a newline. *)
Lemma core_line_shape l :
  core_line l →
  plain l
  ∧ (∃ c l', l = c :: l' ∧ isspace c = false)
  ∧ (∃ l' c, l = l' ++ [c] ∧ is_dash c = false ∧ is_nl c = false
             ∧ isspace c = false).
Proof.
  intros [->|(s & i & ln & tag & -> & Htag)].
  - split; [done|]. split; [by eexists _, _|].
    by exists (lit "(No text on this slide"), 41%N.
  - unfold item_line, segment, _make_ph_name; cbn [fst snd].
    set (tl := str_of_nat (s + 1) ++ lit "_P" ++ str_of_nat (i + 1) ++ lit "}}").
    set (tg := match tag with [] => [] | _ :: _ => lit " " ++ tag end).
    split; [|split].
    + intros r. destruct (ln <=? 10); rewrite <- !app_assoc; reflexivity.
    + destruct (ln <=? 10); by eexists _, _.
    + destruct (ln <=? 10).
      * exists (lit "### " ++ (lit "{{S" ++ tl) ++ tg ++ lit " <!--len:"
                  ++ str_of_nat ln ++ lit "--"), 62%N.
        rewrite <- !app_assoc. by repeat split.
      * exists (lit "- " ++ (lit "{{S" ++ tl) ++ tg ++ lit " <!--len:"
                  ++ str_of_nat ln ++ lit "--"), 62%N.
        rewrite <- !app_assoc. by repeat split.
Qed.

Lemma drop_while_keep {A} (f : A → bool) (x : A) (t : list A) :
  f x = false → drop_while f (x :: t) = x :: t.
Proof. intros H. cbn. by rewrite H. Qed.

Lemma digit_not_separator c :
  is_ascii_digit c = true → ((c =? 45) || (c =? 95) || (c =? 32))%N = false.
Proof.
  unfold is_ascii_digit. intros [H1 H2]%andb_prop.
  apply N.leb_le in H1, H2.
  rewrite !orb_false_iff, !N.eqb_neq. lia.
Qed.

(** The heading of a slide, followed by a line that does not start with
    whitespace, is matched up to the end of its line. *)
Lemma slide_pat_match_heading D c rest :
  D ≠ [] → forallb is_ascii_digit D = true → isspace c = false →
  slide_pat_match (lit "## Slide " ++ D ++ NL :: c :: rest)
  = Some (lit "## Slide " ++ D, NL :: c :: rest).
Proof.
  intros Hne HD Hc. destruct D as [|d D']; [done|].
  pose proof HD as HD0. cbn [forallb] in HD0.
  apply andb_prop in HD0 as [Hd HD'].
  set (s := lit "## Slide " ++ (d :: D') ++ NL :: c :: rest).
  assert (Hdec : forallb isdecimal (d :: D') = true).
  { eapply forallb_impl; [apply ascii_digit_decimal|done]. }
  unfold slide_pat_match.
  change (take_while is_hash s) with [35%N; 35%N]. cbv iota.
  change (drop (length [35%N; 35%N] `min` 6) s)
    with (lit " Slide " ++ (d :: D') ++ NL :: c :: rest).
  change (drop_while isspace (lit " Slide " ++ (d :: D') ++ NL :: c :: rest))
    with (lit "Slide" ++ lit " " ++ (d :: D') ++ NL :: c :: rest).
  change (strip_prefix_ci (lit "slide")
            (lit "Slide" ++ lit " " ++ (d :: D') ++ NL :: c :: rest))
    with (Some (lit " " ++ (d :: D') ++ NL :: c :: rest)).
  cbn [mbind option_bind].
  change (drop_while isspace (lit " " ++ (d :: D') ++ NL :: c :: rest))
    with (drop_while isspace (d :: (D' ++ NL :: c :: rest))).
  rewrite drop_while_keep by by apply digit_not_space.
  rewrite (digit_not_separator d Hd).
  rewrite drop_while_keep by by apply digit_not_space.
  change (d :: D' ++ NL :: c :: rest) with ((d :: D') ++ NL :: c :: rest).
  rewrite take_while_app, drop_while_app by done.
  cbv iota.
  change (take_while isspace (NL :: c :: rest))
    with (NL :: take_while isspace (c :: rest)).
  change (drop_while isspace (NL :: c :: rest))
    with (drop_while isspace (c :: rest)).
  rewrite drop_while_keep by done. cbn [take_while]. rewrite Hc.
  cbn [split_last_nl]. change (is_nl NL) with true.
  cbn [mbind option_bind app]. f_equal. f_equal.
  unfold s. rewrite !length_app. cbn [length].
  rewrite app_assoc.
  replace (length (lit "## Slide ") + (S (length D') + S (S (length rest)))
           - S (S (length rest)))
    with (length (lit "## Slide " ++ d :: D'))
    by (rewrite length_app; cbn [length]; lia).
  by rewrite take_app_length.
Qed.

Lemma heading_last k : ∃ h c, slide_heading k = h ++ [c] ∧ is_nl c = false
                              ∧ is_dash c = false.
Proof.
  unfold slide_heading.
  pose proof (str_of_nat_nonempty (k + 1)) as Hne.
  pose proof (str_of_nat_digits (k + 1)) as Hd.
  destruct (str_of_nat (k + 1)) as [|d D _] using rev_ind; [done|].
  rewrite forallb_app in Hd. apply andb_prop in Hd as [_ Hd].
  cbn [forallb] in Hd. rewrite andb_true_r in Hd.
  exists (lit "## Slide " ++ D), d. rewrite <- app_assoc. split; [done|].
  unfold is_ascii_digit in Hd. apply andb_prop in Hd as [H1 H2].
  apply N.leb_le in H1, H2. unfold is_nl, is_dash, NL.
  split; apply N.eqb_neq; lia.
Qed.

(** The step of the search at a heading. *)
Lemma finditer_heading k fuel pos c rest :
  isspace c = false →
  slide_finditer (S fuel) pos true (slide_heading k ++ NL :: c :: rest)
  = (pos, pos + length (slide_heading k))
      :: slide_finditer fuel (pos + length (slide_heading k)) false
           (NL :: c :: rest).
Proof.
  intros Hc. cbn [slide_finditer]. unfold slide_heading at 1.
  rewrite <- app_assoc.
  rewrite slide_pat_match_heading
    by (apply str_of_nat_nonempty || apply str_of_nat_digits || done).
  fold (slide_heading k).
  destruct (heading_last k) as (h & d & E & Hd & _).
  by rewrite E at 3; rewrite last_snoc, Hd.
Qed.

(** The search passes over a line at which no match starts. *)
Lemma finditer_skip_line l r fuel pos bol :
  nl_free l →
  (bol = true → slide_pat_match (l ++ NL :: r) = None) →
  length (l ++ NL :: r) < fuel →
  slide_finditer fuel pos bol (l ++ NL :: r)
  = slide_finditer (fuel - length l - 1) (pos + length l + 1) true r.
Proof.
  revert fuel pos bol; induction l as [|c l IH]; intros fuel pos bol Hf Hm Hlen.
  - destruct fuel as [|fuel]; [cbn in Hlen; lia|].
    cbn [app slide_finditer length].
    assert (E : (if bol then slide_pat_match (NL :: r) else None) = None).
    { destruct bol; [by apply Hm|done]. }
    rewrite E. change (is_nl NL) with true.
    f_equal; lia.
  - destruct fuel as [|fuel]; [cbn in Hlen; lia|].
    unfold nl_free in Hf. cbn [forallb] in Hf.
    apply andb_prop in Hf as [Hc Hf]. apply negb_true_iff in Hc.
    cbn [app slide_finditer length].
    assert (E : (if bol then slide_pat_match (c :: l ++ NL :: r) else None)
                = None).
    { destruct bol; [by apply Hm|done]. }
    rewrite E, Hc. rewrite IH; [|done|done|cbn in Hlen; lia].
    f_equal; lia.
Qed.

Lemma finditer_last_line l fuel pos bol :
  nl_free l → (bol = true → slide_pat_match l = None) →
  slide_finditer fuel pos bol l = [].
Proof.
  revert fuel pos bol; induction l as [|c l IH]; intros fuel pos bol Hf Hm.
  - destruct fuel; [done|]. cbn [slide_finditer].
    by destruct bol; [rewrite Hm|].
  - destruct fuel; [done|]. cbn [slide_finditer].
    unfold nl_free in Hf. cbn [forallb] in Hf.
    apply andb_prop in Hf as [Hc Hf]. apply negb_true_iff in Hc.
    assert (E : (if bol then slide_pat_match (c :: l) else None) = None).
    { destruct bol; [by apply Hm|done]. }
    rewrite E, Hc. by apply IH.
Qed.

End SlidePattern.

(** ** Splitting the extracted markdown *)

Section SplitExtracted.

Import ExtractorSpec SlideText LockSpec.

Implicit Types (l r rest T : str) (c : char) (cl : list str)
  (b : str * list str) (bs : list (str * list str)).

Lemma core_join_head cl :
  cl ≠ [] → Forall core_line cl →
  ∃ c rest, join [NL] cl = c :: rest ∧ isspace c = false.
Proof.
  intros Hne Hf. destruct cl as [|l cl]; [done|].
  apply Forall_cons in Hf as [Hl _].
  destruct (core_line_shape l Hl) as (_ & (c & l' & -> & Hc) & _).
  destruct cl; cbn [join app]; by eexists _, _.
Qed.

Lemma core_join_last cl :
  cl ≠ [] → Forall core_line cl →
  ∃ t c, join [NL] cl = t ++ [c] ∧ isspace c = false.
Proof.
  induction cl as [|l cl IH]; [done|]. intros _ Hf.
  apply Forall_cons in Hf as [Hl Hf]. destruct cl as [|l' cl].
  - destruct (core_line_shape l Hl) as (_ & _ & (t & c & -> & _ & _ & Hc)).
    by exists t, c.
  - destruct IH as (t & c & E & Hc); [done|done|].
    rewrite join_cons, E by done. exists (l ++ [NL] ++ t), c.
    by rewrite <- !app_assoc.
Qed.

(** The search passes over the core lines of the last block. *)
Lemma finditer_core_last cl fuel pos :
  cl ≠ [] → Forall core_line cl → length (join [NL] cl) < fuel →
  slide_finditer fuel pos true (join [NL] cl) = [].
Proof.
  revert fuel pos; induction cl as [|l cl IH]; [done|].
  intros fuel pos _ Hf Hlen. apply Forall_cons in Hf as [Hl Hf].
  destruct (core_line_shape l Hl) as (Hplain & _ & _).
  destruct cl as [|l' cl].
  - apply finditer_last_line; [by apply core_line_nl_free|].
    intros _. rewrite <- (app_nil_r l). apply Hplain.
  - rewrite join_cons in Hlen |- * by done. cbn [app] in Hlen |- *.
    rewrite finditer_skip_line;
      [|by apply core_line_nl_free|by intros _|done].
    apply IH; [done|done|]. rewrite length_app in Hlen.
    cbn [length] in Hlen. lia.
Qed.

(** The search passes over the core lines of a block and the blank line
    after them. *)
Lemma finditer_core cl T fuel pos :
  cl ≠ [] → Forall core_line cl →
  length (join [NL] cl ++ NL :: NL :: T) < fuel →
  slide_finditer fuel pos true (join [NL] cl ++ NL :: NL :: T)
  = slide_finditer (fuel - length (join [NL] cl) - 2)
      (pos + length (join [NL] cl) + 2) true T.
Proof.
  revert fuel pos; induction cl as [|l cl IH]; [done|].
  intros fuel pos _ Hf Hlen. apply Forall_cons in Hf as [Hl Hf].
  destruct (core_line_shape l Hl) as (Hplain & _ & _).
  pose proof (core_line_nl_free l Hl) as Hfree.
  destruct cl as [|l' cl].
  - cbn [join] in *. rewrite length_app in Hlen. cbn [length] in Hlen.
    rewrite finditer_skip_line;
      [|done|by intros _|rewrite length_app; cbn [length]; lia].
    rewrite (finditer_skip_line [] T); [|done|by intros _|cbn [app length]; lia].
    cbn [length]. f_equal; lia.
  - rewrite join_cons in Hlen |- * by done.
    rewrite <- !app_assoc in Hlen |- *. cbn [app] in Hlen |- *.
    rewrite !length_app in Hlen |- *. cbn [length] in Hlen |- *.
    rewrite length_app in Hlen. cbn [length] in Hlen.
    rewrite finditer_skip_line;
      [|done|by intros _|rewrite !length_app; cbn [length];
                         rewrite length_app; cbn [length]; lia].
    rewrite IH; [|done|done|rewrite length_app; cbn [length]; lia].
    f_equal; lia.
Qed.

(** The matches of the slide pattern are the headings of the blocks. *)
Lemma finditer_blocks bs fuel pos :
  Forall block_ok bs → length (text_of_blocks bs) < fuel →
  slide_finditer fuel pos true (text_of_blocks bs) = matches_of pos bs.
Proof.
  revert fuel pos; induction bs as [|[H cl] bs IH]; intros fuel pos Hok Hlen.
  - destruct fuel; [cbn in Hlen; lia|]. done.
  - apply Forall_cons in Hok as [([k Hk] & Hne & Hcl) Hok].
    cbn [fst snd] in Hk, Hne, Hcl. subst H.
    destruct (core_join_head cl Hne Hcl) as (c & rest & Ej & Hc).
    assert (Hh : 0 < length (slide_heading k)).
    { unfold slide_heading. rewrite length_app.
      change (length (lit "## Slide ")) with 9. lia. }
    destruct fuel as [|fuel]; [cbn in Hlen; lia|].
    cbn [matches_of fst]. destruct bs as [|b' bs].
    + cbn [text_of_blocks matches_of] in *. unfold block_text in *.
      cbn [fst snd] in *. rewrite length_app in Hlen. cbn [length] in Hlen.
      rewrite Ej at 1. rewrite finditer_heading by done. f_equal.
      rewrite <- Ej. rewrite (finditer_skip_line [] (join [NL] cl));
        [|done|done|cbn [app length]; lia].
      apply finditer_core_last; [done|done|cbn [length]; lia].
    + change (text_of_blocks ((slide_heading k, cl) :: b' :: bs))
        with (block_text (slide_heading k, cl)
                ++ NL :: NL :: text_of_blocks (b' :: bs)) in *.
      unfold block_text in *. cbn [fst snd] in *.
      rewrite <- !app_assoc in Hlen |- *. cbn [app] in Hlen |- *.
      rewrite length_app in Hlen. cbn [length] in Hlen.
      rewrite length_app in Hlen. cbn [length] in Hlen.
      rewrite Ej at 1. cbn [app]. rewrite finditer_heading by done. f_equal.
      change (c :: rest ++ NL :: NL :: text_of_blocks (b' :: bs))
        with ((c :: rest) ++ NL :: NL :: text_of_blocks (b' :: bs)).
      rewrite <- Ej.
      rewrite (finditer_skip_line []
                 (join [NL] cl ++ NL :: NL :: text_of_blocks (b' :: bs)));
        [|done|done|
         cbn [app length]; rewrite length_app; cbn [length]; lia].
      rewrite finditer_core; [|done|done|
        rewrite length_app; cbn [length]; lia].
      rewrite IH; [|done|cbn [length]; lia].
      f_equal. rewrite length_app. cbn [length]. lia.
Qed.

(** Trimming a core between newlines gives the core. *)
Lemma strip_core cl w :
  cl ≠ [] → Forall core_line cl → forallb isspace w = true →
  strip (NL :: join [NL] cl ++ w) = join [NL] cl.
Proof.
  intros Hne Hcl Hw.
  destruct (core_join_head cl Hne Hcl) as (c & rest & Eh & Hc).
  destruct (core_join_last cl Hne Hcl) as (t & d & El & Hd).
  change (NL :: join [NL] cl ++ w) with ((NL :: join [NL] cl) ++ w).
  rewrite strip_app_ws by done. unfold strip, strip_by, lstrip_by.
  rewrite El. change (NL :: t ++ [d]) with ((NL :: t) ++ [d]).
  rewrite rstrip_by_snoc by done. cbn [app drop_while].
  change (isspace NL) with true. cbv iota. rewrite <- El, Eh.
  by apply drop_while_keep.
Qed.

Lemma slide_pages_cons (md : str) (a start : nat)
    (rest : list (nat * nat)) :
  slide_pages md ((a, start) :: rest)
  = (if nonempty (strip (slice md start
                           (match rest with
                            | (next_start, _) :: _ => next_start
                            | [] => length md
                            end)))
     then [strip (slice md start
                    (match rest with
                     | (next_start, _) :: _ => next_start
                     | [] => length md
                     end))]
     else [])
    ++ slide_pages md rest.
Proof. cbn [slide_pages]. by destruct (nonempty _). Qed.

(** The text between the end of a heading and the next heading, or the
    end of the text, trims to the core of the block. *)
Lemma block_body (P H : str) cl w X n :
  cl ≠ [] → Forall core_line cl → forallb isspace w = true →
  n = length P + length H + length (NL :: join [NL] cl ++ w) →
  strip (slice (P ++ (H ++ NL :: join [NL] cl) ++ w ++ X)
           (length P + length H) n)
  = join [NL] cl.
Proof.
  intros Hne Hcl Hw ->. unfold slice.
  replace (length P + length H) with (length (P ++ H))
    by by rewrite length_app.
  rewrite <- !app_assoc, (app_assoc P H), drop_app_length.
  replace (length (P ++ H) + length (NL :: join [NL] cl ++ w)
           - length (P ++ H))
    with (length (NL :: join [NL] cl ++ w)) by lia.
  cbn [app]. rewrite (app_assoc _ w X).
  change (NL :: (join [NL] cl ++ w) ++ X)
    with ((NL :: join [NL] cl ++ w) ++ X).
  rewrite take_app_length. by apply strip_core.
Qed.

(** The pages are the cores of the blocks. *)
Lemma slide_pages_blocks (P : str) bs :
  Forall block_ok bs →
  slide_pages (P ++ text_of_blocks bs) (matches_of (length P) bs)
  = map (fun b => join [NL] b.2) bs.
Proof.
  revert P; induction bs as [|[H cl] bs IH]; intros P Hok; [done|].
  apply Forall_cons in Hok as [([k Hk] & Hne & Hcl) Hok].
  cbn [fst snd] in Hk, Hne, Hcl. cbn [matches_of map fst snd].
  assert (Hnon : nonempty (join [NL] cl) = true).
  { destruct (core_join_head cl Hne Hcl) as (c & rest & -> & _). done. }
  rewrite slide_pages_cons. unfold block_text. cbn [fst snd].
  set (bt := H ++ NL :: join [NL] cl).
  destruct bs as [|b' bs].
  - cbn [text_of_blocks matches_of slide_pages]. unfold block_text.
    cbn [fst snd]. fold bt.
    pose proof (block_body P H cl [] [] (length (P ++ bt))
                  Hne Hcl eq_refl) as Hb.
    rewrite !app_nil_r in Hb. fold bt in Hb.
    rewrite Hb, Hnon; [done|].
    unfold bt. rewrite !length_app. cbn [length]. lia.
  - change (text_of_blocks ((H, cl) :: b' :: bs))
      with (bt ++ NL :: NL :: text_of_blocks (b' :: bs)).
    set (p := length P + length bt + 2).
    assert (Ep : p = length (P ++ bt ++ [NL; NL])).
    { unfold p. rewrite !length_app. cbn [length]. lia. }
    assert (Em : ∃ e ms, matches_of p (b' :: bs) = (p, e) :: ms)
      by (by eexists _, _).
    destruct Em as (e & ms & Em).
    specialize (IH (P ++ bt ++ [NL; NL]) Hok). rewrite <- Ep in IH.
    rewrite Em in IH |- *.
    pose proof (block_body P H cl [NL; NL] (text_of_blocks (b' :: bs)) p
                  Hne Hcl eq_refl) as Hb.
    fold bt in Hb.
    replace (P ++ bt ++ NL :: NL :: text_of_blocks (b' :: bs))
      with (P ++ bt ++ [NL; NL] ++ text_of_blocks (b' :: bs)) by done.
    rewrite Hb, Hnon.
    + cbn [app]. f_equal. rewrite <- IH. f_equal.
      by rewrite <- !app_assoc.
    + unfold p, bt. rewrite !length_app. cbn [length].
      rewrite !length_app. cbn [length]. lia.
Qed.

(** A rule needs a dash right before a newline. *)
Lemma rule_start_Some_nl s x :
  rule_start s = Some (NL :: x) →
  ∃ pre, s = pre ++ 45%N :: NL :: x.
Proof.
  unfold rule_start.
  set (s1 := match s with
             | c :: t => if is_nl c then t else s
             | [] => s
             end).
  assert (Es : ∃ o, s = o ++ s1).
  { unfold s1. destruct s as [|c t]; [by exists []|].
    destruct (is_nl c); [by exists [c]|by exists []]. }
  destruct Es as [o Es].
  destruct (3 <=? length (take_while is_dash s1)) eqn:E3; [|done].
  intros [= Ed]. apply Nat.leb_le in E3.
  pose proof (take_drop_while is_dash s1) as Etd. rewrite Ed in Etd.
  pose proof (forallb_take_while is_dash s1) as Hall.
  destruct (take_while is_dash s1) as [|d tw _] using rev_ind;
    [cbn in E3; lia|].
  rewrite forallb_app in Hall. apply andb_prop in Hall as [_ Hd].
  cbn [forallb] in Hd. rewrite andb_true_r in Hd. apply N.eqb_eq in Hd.
  subst d. exists (o ++ tw). rewrite Es, <- Etd, <- !app_assoc. done.
Qed.

Lemma rule_search_true s :
  rule_search s = true → ∃ pre post, s = pre ++ 45%N :: NL :: post.
Proof.
  induction s as [|c s IH].
  - cbn. done.
  - cbn [rule_search].
    assert (Hrec : rule_search s = true →
              ∃ pre post, c :: s = pre ++ 45%N :: NL :: post).
    { intros (pre & post & ->)%IH. by exists (c :: pre), post. }
    destruct (rule_start (c :: s)) as [[|d x]|] eqn:E; [done| |done].
    destruct (is_nl d) eqn:Hd; [|done]. intros _.
    apply N.eqb_eq in Hd. subst d.
    apply rule_start_Some_nl in E as [pre E]. by exists pre, x.
Qed.

Lemma dash_nl_free_line l R :
  nl_free l → (∀ l', l ≠ l' ++ [45%N]) → dash_nl_free R →
  dash_nl_free (l ++ NL :: R).
Proof.
  intros Hf Hl HR. induction l as [|c l IH]; intros pre post E.
  - destruct pre as [|d pre]; [done|]. injection E as _ E. by apply HR in E.
  - unfold nl_free in Hf. cbn [forallb] in Hf.
    apply andb_prop in Hf as [Hc Hf]. destruct pre as [|d pre].
    + injection E as -> E. destruct l as [|e l].
      * by apply (Hl []).
      * injection E as -> _. done.
    + injection E as _ E. revert E. apply IH; [done|].
      intros l' ->. by apply (Hl (c :: l')).
Qed.

Lemma dash_nl_free_last l : nl_free l → dash_nl_free l.
Proof.
  intros Hf pre post ->. unfold nl_free in Hf.
  rewrite forallb_app in Hf. apply andb_prop in Hf as [_ Hf].
  cbn in Hf. done.
Qed.

Lemma not_dash_last l' c : is_dash c = false → ∀ l'', l' ++ [c] ≠ l'' ++ [45%N].
Proof. intros Hc l'' E. apply app_inj_tail in E as [_ ->]. done. Qed.

Lemma core_dash_free cl R :
  Forall core_line cl → dash_nl_free R →
  dash_nl_free (join [NL] cl ++ NL :: R).
Proof.
  intros Hcl HR. induction Hcl as [|l cl Hl _ IH]; [|].
  - apply (dash_nl_free_line []); [done|by intros []|done].
  - destruct (core_line_shape l Hl) as (_ & _ & (l' & c & E & Hc & _)).
    pose proof (core_line_nl_free l Hl) as Hf.
    destruct cl as [|l2 cl].
    + cbn [join]. apply dash_nl_free_line; [done| |done].
      rewrite E. by apply not_dash_last.
    + rewrite join_cons, <- !app_assoc by done. cbn [app].
      apply dash_nl_free_line; [done| |done].
      rewrite E. by apply not_dash_last.
Qed.

Lemma core_dash_free_last cl :
  cl ≠ [] → Forall core_line cl → dash_nl_free (join [NL] cl).
Proof.
  intros Hne Hcl. induction Hcl as [|l cl Hl Hcl IH]; [done|].
  pose proof (core_line_nl_free l Hl) as Hf. destruct cl as [|l2 cl].
  - by apply dash_nl_free_last.
  - rewrite join_cons by done. cbn [app].
    destruct (core_line_shape l Hl) as (_ & _ & (l' & c & E & Hc & _)).
    apply dash_nl_free_line; [done| |by apply IH].
    rewrite E. by apply not_dash_last.
Qed.

Lemma blocks_dash_free bs : Forall block_ok bs → dash_nl_free (text_of_blocks bs).
Proof.
  induction bs as [|[H cl] bs IH]; intros Hok.
  - intros pre post E. by destruct pre.
  - apply Forall_cons in Hok as [([k Hk] & Hne & Hcl) Hok].
    cbn [fst snd] in Hk, Hne, Hcl. subst H.
    destruct (heading_last k) as (h & d & E & _ & Hd).
    assert (Hh : ∀ l', slide_heading k ≠ l' ++ [45%N])
      by (rewrite E; by apply not_dash_last).
    destruct bs as [|b' bs].
    + cbn [text_of_blocks]. unfold block_text. cbn [fst snd].
      apply dash_nl_free_line; [apply nl_free_heading|done|].
      by apply core_dash_free_last.
    + change (text_of_blocks ((slide_heading k, cl) :: b' :: bs))
        with (block_text (slide_heading k, cl)
                ++ NL :: NL :: text_of_blocks (b' :: bs)).
      unfold block_text. cbn [fst snd]. rewrite <- !app_assoc. cbn [app].
      apply dash_nl_free_line; [apply nl_free_heading|done|].
      apply core_dash_free; [done|].
      apply (dash_nl_free_line []); [done|by intros []|by apply IH].
Qed.

Lemma blocks_no_rule bs : Forall block_ok bs → rule_search (text_of_blocks bs) = false.
Proof.
  intros Hok. apply not_true_is_false.
  intros (pre & post & E)%rule_search_true.
  by apply (blocks_dash_free bs Hok) in E.
Qed.

End SplitExtracted.

(** ** The slides of a deck survive extraction and splitting *)

Section SlideCount.

Import ExtractorSpec SlideText LockSpec Decks.

Implicit Types (cl : list str) (b : str * list str)
  (bs : list (str * list str)) (sl : slide) (sls : list slide)
  (prs : presentation).

Lemma text_items_core s j shs :
  Forall core_line (map item_line (text_items s j shs)).
Proof.
  revert j. induction shs as [|sh shs IH]; intros j; cbn [text_items].
  - constructor.
  - destruct (has_text_frame sh); [|apply IH].
    cbn [map]. constructor; [|apply IH].
    right. exists s, j, (shape_length sh), (shape_tag sh).
    split; [done|]. unfold shape_tag. destruct (frame sh) as [|para ?].
    + by left.
    + unfold _paragraph_align_tag.
      destruct (alignment para) as [[]|]; auto.
Qed.

Lemma text_items_none s j shs :
  forallb (fun sh => negb (has_text_frame sh)) shs = true →
  text_items s j shs = [].
Proof.
  revert j. induction shs as [|sh shs IH]; intros j; [done|].
  cbn [forallb text_items]. intros [Hsh Hshs]%andb_prop.
  destruct (has_text_frame sh); [done|]. by apply IH.
Qed.

Lemma block_of_ok k sl : block_ok (block_of k sl).
Proof.
  unfold block_ok, block_of, core_lines. cbn [fst snd].
  split; [by exists k|].
  destruct (text_items k 0 (shapes sl)) as [|it its] eqn:E.
  - split; [done|]. constructor; [by left|constructor].
  - split; [done|]. rewrite <- E. apply text_items_core.
Qed.

Lemma blocks_of_ok sls : Forall block_ok (imap block_of sls).
Proof.
  apply Forall_forall. intros b (i & sl & -> & _)%elem_of_lookup_imap.
  apply block_of_ok.
Qed.

Lemma blocks_head bs :
  bs ≠ [] → Forall block_ok bs → ∃ rest, text_of_blocks bs = 35%N :: rest.
Proof.
  destruct bs as [|[H cl] bs]; [done|].
  intros _ [([k Hk] & _) _]%Forall_cons. cbn [fst] in Hk. subst H.
  destruct bs; cbn [text_of_blocks]; unfold block_text, slide_heading;
    cbn [fst]; change (lit "## Slide ") with (35%N :: lit "# Slide ");
    cbn [app]; by eexists.
Qed.

Lemma blocks_last bs :
  bs ≠ [] → Forall block_ok bs →
  ∃ t c, text_of_blocks bs = t ++ [c] ∧ isspace c = false.
Proof.
  induction bs as [|b bs IH]; [done|].
  intros _ [Hb Hok]%Forall_cons. destruct bs as [|b' bs].
  - cbn [text_of_blocks]. destruct Hb as (_ & Hne & Hcl).
    destruct (core_join_last _ Hne Hcl) as (t & c & E & Hc).
    exists (b.1 ++ NL :: t), c. unfold block_text.
    by rewrite E, <- app_assoc.
  - destruct IH as (t & c & E & Hc); [done|done|].
    exists (block_text b ++ NL :: NL :: t), c.
    change (text_of_blocks (b :: b' :: bs))
      with (block_text b ++ NL :: NL :: text_of_blocks (b' :: bs)).
    by rewrite E, <- app_assoc.
Qed.

(** The newline that ends the extracted text is all that the splitter
    trims. *)
Lemma strip_nl_blocks bs :
  bs ≠ [] → Forall block_ok bs →
  strip_by is_nl (text_of_blocks bs ++ [NL]) = text_of_blocks bs.
Proof.
  intros Hne Hok. unfold strip_by, lstrip_by.
  rewrite rstrip_by_app_ws by done.
  destruct (blocks_last bs Hne Hok) as (t & c & E & Hc).
  rewrite E, rstrip_by_snoc, <- E.
  - destruct (blocks_head bs Hne Hok) as [rest ->].
    by apply drop_while_keep.
  - destruct (is_nl c) eqn:X; [|done].
    apply N.eqb_eq in X. subst c. by vm_compute in Hc.
Qed.

(** The chunks of the extracted markdown are the cores of the slides, one
    for each slide and in the order of the slides. *)
Lemma split_extracted prs :
  slides prs ≠ [] →
  _split_markdown_slides (pptx_to_markdown prs).1
  = map (fun b => join [NL] b.2) (imap block_of (slides prs)).
Proof.
  intros Hne. rewrite pptx_to_markdown_lines.
  change (imap slide_lines (slides prs))
    with (imap (fun i => slide_lines (0 + i)) (slides prs)).
  rewrite markdown_blocks_from by done.
  change (imap (fun i => block_of (0 + i)) (slides prs))
    with (imap block_of (slides prs)).
  pose proof (blocks_of_ok (slides prs)) as Hok.
  assert (Hbs : imap block_of (slides prs) ≠ []).
  { intros E%(f_equal length). rewrite length_imap in E.
    by destruct (slides prs). }
  destruct (imap block_of (slides prs)) as [|b bs] eqn:Ebs; [done|].
  unfold _split_markdown_slides. cbv zeta.
  rewrite strip_nl_blocks by done.
  destruct (blocks_head (b :: bs) Hbs Hok) as [rest Eh].
  assert (Hn : nonempty (text_of_blocks (b :: bs)) = true)
    by by rewrite Eh.
  rewrite Hn, blocks_no_rule by done. cbn [negb].
  rewrite finditer_blocks by (done || lia).
  pose proof (slide_pages_blocks [] (b :: bs) Hok) as Hp.
  cbn [app length] in Hp. by rewrite <- Hp.
Qed.

(** C5. Slide-count preservation: for a deck with at least one slide,
    splitting the markdown that the extraction produces gives exactly as
    many chunks as the deck has slides; and a slide none of whose shapes
    has a text frame is not left out: its chunk, at the position of the
    slide, is the marker "(No text on this slide)". *)
Theorem slide_count_preserved prs :
  slides prs ≠ [] →
  let chunks := _split_markdown_slides (pptx_to_markdown prs).1 in
  length chunks = length (slides prs)
  ∧ ∀ i sl,
      slides prs !! i = Some sl →
      forallb (fun sh => negb (has_text_frame sh)) (shapes sl) = true →
      chunks !! i = Some (lit "(No text on this slide)").
Proof.
  intros Hne chunks. unfold chunks. rewrite split_extracted by done.
  split.
  - by rewrite length_map, length_imap.
  - intros i sl Hi Hsh.
    change (map (fun b => join [NL] b.2) (imap block_of (slides prs)))
      with ((fun b : str * list str => join [NL] b.2)
              <$> imap block_of (slides prs)).
    rewrite list_lookup_fmap, list_lookup_imap, Hi. cbn [fmap option_fmap option_map].
    unfold block_of, core_lines. cbn [snd].
    by rewrite text_items_none.
Qed.

Lemma slide_count_preserved_witness :
  length (_split_markdown_slides (pptx_to_markdown mixed_deck).1) = 2
  ∧ _split_markdown_slides (pptx_to_markdown mixed_deck).1 !! 1
    = Some (lit "(No text on this slide)").
Proof.
  destruct (slide_count_preserved mixed_deck) as [Hl Hm];
    [discriminate|].
  split; [exact Hl|exact (Hm 1 _ eq_refl eq_refl)].
Defined.

(** The chunks of the sample deck, by evaluation. *)
Example split_mixed_deck :
  _split_markdown_slides (pptx_to_markdown mixed_deck).1
  = [lit "### {{S1_P1}} <div align='center'> <!--len:5-->" ++ [NL]
       ++ lit "- {{S1_P3}} <!--len:26-->";
     lit "(No text on this slide)"].
Proof. vm_compute. reflexivity. Qed.

End SlideCount.

(** ** The placeholder map of the extraction *)

Section PlaceholderMapFacts.

Import ExtractorSpec.

Implicit Types (shs : list shape) (sl : slide) (sls : list slide)
  (pm : PlaceholderMap) (items : list item) (md_lines : list str).

Lemma make_ph_name_inj s i s' i' :
  _make_ph_name s i = _make_ph_name s' i' → s = s' ∧ i = i'.
Proof.
  intros Heq. pose proof (parseToken_make s i) as H.
  rewrite Heq, parseToken_make in H. by injection H as -> ->.
Qed.

Lemma collect_items_map s j shs items pm k s' i' :
  (∀ k s i, pm !! k = Some (s, i) → k = _make_ph_name s i) →
  (collect_items s j shs items pm).2 !! k = Some (s', i')
  ↔ pm !! k = Some (s', i')
    ∨ (k = _make_ph_name s' i' ∧ s' = s
       ∧ ∃ n sh, shs !! n = Some sh ∧ has_text_frame sh = true
                 ∧ i' = j + n).
Proof.
  revert j items pm. induction shs as [|sh shs IH]; intros j items pm Hpm;
    cbn [collect_items snd].
  - split; [by left|]. intros [H|(_ & _ & n & sh' & H & _)]; done.
  - destruct (has_text_frame sh) eqn:Htf; cbn [negb].
    + cbv zeta. rewrite IH.
      2: { change PlaceholderMap with (gmap str (nat * nat)) in *.
           intros k0 s0 i0.
           destruct (decide (k0 = _make_ph_name s j)) as [->|Hne].
           - rewrite lookup_insert_eq. by intros [= <- <-].
           - rewrite lookup_insert_ne by done. apply Hpm. }
      change PlaceholderMap with (gmap str (nat * nat)) in *.
      split.
      * intros [H|(-> & -> & n & sh' & Hn & Htf' & ->)].
        -- destruct (decide (k = _make_ph_name s j)) as [->|Hne].
           ++ rewrite lookup_insert_eq in H. injection H as <- <-.
              right. split; [done|]. split; [done|].
              exists 0, sh. cbn. split; [done|]. split; [done|lia].
           ++ rewrite lookup_insert_ne in H by done. by left.
        -- right. split; [done|]. split; [done|].
           exists (S n), sh'. cbn. split; [done|]. split; [done|lia].
      * intros [H|(-> & -> & n & sh' & Hn & Htf' & ->)].
        -- destruct (decide (k = _make_ph_name s j)) as [->|Hne].
           ++ apply Hpm in H. apply make_ph_name_inj in H as [-> ->].
              left. by rewrite lookup_insert_eq.
           ++ left. by rewrite lookup_insert_ne.
        -- destruct n as [|n]; cbn in Hn.
           ++ injection Hn as ->. left. rewrite Nat.add_0_r.
              by rewrite lookup_insert_eq.
           ++ right. split; [done|]. split; [done|].
              exists n, sh'. split; [done|]. split; [done|lia].
    + rewrite IH by done. split.
      * intros [H|(-> & -> & n & sh' & Hn & Htf' & ->)]; [by left|].
        right. split; [done|]. split; [done|].
        exists (S n), sh'. cbn. split; [done|]. split; [done|lia].
      * intros [H|(-> & -> & n & sh' & Hn & Htf' & ->)]; [by left|].
        destruct n as [|n]; cbn in Hn.
        -- injection Hn as ->. congruence.
        -- right. split; [done|]. split; [done|].
           exists n, sh'. split; [done|]. split; [done|lia].
Qed.

Lemma extract_slide_map s sl md_lines pm k s' i' :
  (∀ k s i, pm !! k = Some (s, i) → k = _make_ph_name s i) →
  (extract_slide s sl (md_lines, pm)).2 !! k = Some (s', i')
  ↔ pm !! k = Some (s', i')
    ∨ (k = _make_ph_name s' i' ∧ s' = s
       ∧ ∃ sh, shapes sl !! i' = Some sh ∧ has_text_frame sh = true).
Proof.
  intros Hpm. unfold extract_slide.
  pose proof (collect_items_map s 0 (shapes sl) [] pm k s' i' Hpm) as H.
  destruct (collect_items s 0 (shapes sl) [] pm) as [items pm'].
  cbn [snd] in H.
  assert (E : (match items with
               | [] => (( md_lines ++ [lit "## Slide " ++ str_of_nat (s + 1)])
                          ++ [lit "(No text on this slide)" ++ [NL]], pm')
               | _ :: _ =>
                   (emit_items (length items) items 0
                      (md_lines ++ [lit "## Slide " ++ str_of_nat (s + 1)])
                      ++ [[]], pm')
               end).2 = pm') by by destruct items.
  rewrite E, H. split.
  - intros [?|(-> & -> & n & sh & Hn & Htf & ->)]; [by left|].
    right. eauto.
  - intros [?|(-> & -> & sh & Hn & Htf)]; [by left|].
    right. split; [done|]. split; [done|]. by exists i', sh.
Qed.

Lemma extract_slide_consistent s sl md_lines pm :
  (∀ k s i, pm !! k = Some (s, i) → k = _make_ph_name s i) →
  ∀ k s' i, (extract_slide s sl (md_lines, pm)).2 !! k = Some (s', i) →
            k = _make_ph_name s' i.
Proof.
  intros Hpm k s' i H. apply extract_slide_map in H; [|done].
  destruct H as [H|(-> & _)]; [by apply Hpm|done].
Qed.

Lemma extract_slides_map n sls md_lines pm k s' i' :
  (∀ k s i, pm !! k = Some (s, i) → k = _make_ph_name s i) →
  (extract_slides n sls (md_lines, pm)).2 !! k = Some (s', i')
  ↔ pm !! k = Some (s', i')
    ∨ (k = _make_ph_name s' i'
       ∧ ∃ m sl sh, sls !! m = Some sl ∧ s' = n + m
                    ∧ shapes sl !! i' = Some sh ∧ has_text_frame sh = true).
Proof.
  revert n md_lines pm. induction sls as [|sl sls IH]; intros n md_lines pm Hpm;
    cbn [extract_slides].
  - split; [by left|]. by intros [?|(_ & m & ? & ? & ? & _)].
  - pose proof (extract_slide_map n sl md_lines pm k s' i' Hpm) as H1.
    pose proof (extract_slide_consistent n sl md_lines pm Hpm) as H2.
    destruct (extract_slide n sl (md_lines, pm)) as [md1 pm1].
    cbn [snd] in H1, H2. rewrite IH, H1 by done. split.
    + intros [[?|(-> & -> & sh & Hs & Htf)]|(-> & m & sl' & sh & Hm & -> & Hs & Htf)].
      * by left.
      * right. split; [done|]. exists 0, sl, sh. rewrite Nat.add_0_r. done.
      * right. split; [done|]. exists (S m), sl', sh. cbn.
        split; [done|]. split; [lia|done].
    + intros [?|(-> & m & sl' & sh & Hm & -> & Hs & Htf)]; [by left; left|].
      destruct m as [|m]; cbn in Hm.
      * injection Hm as ->. left. right. rewrite Nat.add_0_r. eauto.
      * right. split; [done|]. exists m, sl', sh.
        split; [done|]. split; [lia|done].
Qed.

(** The placeholder map has exactly one entry for every shape with a text
    frame: the token of the shape, mapped to the indices of its slide and
    of the shape. *)
Theorem placeholder_map_exact (prs : presentation) (k : str) (s i : nat) :
  (pptx_to_markdown prs).2 !! k = Some (s, i)
  ↔ k = _make_ph_name s i
    ∧ ∃ sl sh, slides prs !! s = Some sl ∧ shapes sl !! i = Some sh
               ∧ has_text_frame sh = true.
Proof.
  unfold pptx_to_markdown.
  pose proof (extract_slides_map 0 (slides prs) [] ∅ k s i) as H.
  destruct (extract_slides 0 (slides prs) ([], ∅)) as [md pm].
  cbn [snd] in *. change PlaceholderMap with (gmap str (nat * nat)) in *.
  rewrite H by (intros ? ? ?; by rewrite lookup_empty).
  rewrite lookup_empty. split.
  - intros [?|(-> & m & sl & sh & Hm & -> & Hs & Htf)]; [done|].
    split; [done|]. by exists sl, sh.
  - intros (-> & sl & sh & Hs & Hsh & Htf). right. split; [done|].
    by exists s, sl, sh.
Qed.

(** The pictures of a deck are exactly its image relationships: the index
    of the slide, the identifier of a relationship whose type ends in
    [/image], and the payload of the part it targets. *)
Theorem extract_pictures_exact (prs : presentation) (s : nat) (r : str)
    (b : bytes) :
  (s, r, b) ∈ extract_pictures prs
  ↔ ∃ sl rel, slides prs !! s = Some sl ∧ rels sl !! r = Some rel
              ∧ endswith (reltype rel) (lit "/image") = true
              ∧ b = blob_of prs rel.
Proof.
  unfold extract_pictures. rewrite elem_of_concat. split.
  - intros (l & Hl & Hin).
    apply elem_of_lookup_imap in Hl as (n & sl & -> & Hn).
    unfold slide_pictures in Hin. apply list_elem_of_omap in Hin.
    destruct Hin as ([r' rel] & Hin & H). unfold picture_of in H.
    destruct (endswith (reltype rel) (lit "/image")) eqn:E; [|done].
    injection H as <- <- <-. apply elem_of_map_to_list in Hin.
    by exists sl, rel.
  - intros (sl & rel & Hs & Hr & He & ->).
    exists (slide_pictures prs s sl). split.
    + apply elem_of_lookup_imap. by exists s, sl.
    + unfold slide_pictures. apply list_elem_of_omap. exists (r, rel).
      split; [by apply elem_of_map_to_list|].
      unfold picture_of. by rewrite He.
Qed.

End PlaceholderMapFacts.
(** ** Markdown fences *)

Section Fences.

Import LockSpec LlmCalls.

Implicit Types (s t r u pat body tail txt : str) (c : char)
  (p : char → bool).

Lemma drop_while_idem {A} (f : A → bool) (l : list A) :
  drop_while f (drop_while f l) = drop_while f l.
Proof.
  induction l as [|x l IH]; [done|]. cbn [drop_while].
  destruct (f x) eqn:E; [done|]. cbn [drop_while]. by rewrite E.
Qed.

(** Trimming on the left and on the right commute. *)
Lemma rstrip_lstrip_comm p s :
  rstrip_by p (drop_while p s) = drop_while p (rstrip_by p s).
Proof.
  induction s as [|c s IH]; [done|]. cbn [drop_while rstrip_by].
  destruct (p c) eqn:Hc.
  - rewrite IH. destruct (rstrip_by p s) as [|d s'] eqn:Es; [done|].
    cbn [drop_while]. by rewrite Hc.
  - cbn [rstrip_by].
    destruct (rstrip_by p s) as [|d s'] eqn:Es; cbn [drop_while];
      by rewrite Hc.
Qed.

Lemma strip_by_idem p s : strip_by p (strip_by p s) = strip_by p s.
Proof.
  unfold strip_by, lstrip_by.
  by rewrite (rstrip_lstrip_comm p (rstrip_by p s)), rstrip_by_idem,
    drop_while_idem.
Qed.

Lemma strip_idem s : strip (strip s) = strip s.
Proof. apply strip_by_idem. Qed.

(** After the white space is gone there is no newline to remove. *)
Lemma lstrip_nl_after_space s :
  lstrip_by is_nl (lstrip_by isspace s) = lstrip_by isspace s.
Proof.
  unfold lstrip_by. destruct (drop_while isspace s) as [|c t] eqn:E; [done|].
  apply drop_while_head in E. cbn [drop_while].
  destruct (is_nl c) eqn:Hc; [|done].
  apply N.eqb_eq in Hc. subst c. done.
Qed.

Lemma rstrip_lstrip_strip s :
  rstrip (lstrip_by is_nl (lstrip_by isspace s)) = strip s.
Proof.
  rewrite lstrip_nl_after_space. unfold rstrip, strip, strip_by, lstrip_by.
  apply rstrip_lstrip_comm.
Qed.

(** A character outside the pattern separates the occurrences. *)
Lemma occurs_sep_false pat a c b :
  c ∉ pat → occurs pat a = false → occurs pat b = false →
  occurs pat (a ++ c :: b) = false.
Proof.
  intros Hc Ha Hb. apply not_true_is_false.
  intros (pre & post & E)%occurs_spec.
  assert (Hpat : pat ≠ []) by (intros ->; by destruct a).
  assert (Hs : strip_prefix pat (drop (length pre) a ++ c :: b) = Some post
               ∨ ∃ k, pre = a ++ c :: k ∧ b = k ++ pat ++ post).
  { clear Ha Hb Hc. revert a E. induction pre as [|x pre IH]; intros a E.
    - left. cbn [length app] in *. rewrite drop_0, E.
      apply strip_prefix_app.
    - destruct a as [|y a].
      + right. cbn [app] in E. injection E as <- ->. by exists pre.
      + cbn [app] in E. injection E as <- E.
        destruct (IH a E) as [H|(k & -> & ->)]; [by left|].
        right. by exists k. }
  destruct Hs as [Hs|(k & -> & ->)].
  - apply strip_prefix_straddle in Hs as [Hs|(u & Hu & E' & Hx)].
    + unfold startswith in Hs. by rewrite occurs_drop_false in Hs.
    + destruct u as [|e u]; [done|]. cbn [strip_prefix] in Hx.
      destruct (N.eqb_spec e c) as [->|]; [|done].
      apply Hc. rewrite E'. apply elem_of_app. right. left.
  - apply not_true_iff_false in Hb. apply Hb, occurs_spec. by exists k, post.
Qed.

Lemma split_at_first_none pat s :
  pat ≠ [] → occurs pat s = false → split_at_first pat s = None.
Proof.
  intros Hne. induction s as [|c s IH]; intros H.
  - destruct pat; done.
  - rewrite split_at_first_unfold.
    rewrite (occurs_drop_false pat (c :: s) 0 Hne H : strip_prefix pat (c :: s) = None).
    cbn [occurs] in H. apply orb_false_elim in H as [_ H].
    by rewrite IH.
Qed.

Lemma fence_nonnil : FENCE ≠ [].
Proof. done. Qed.

(** The parts of a text that opens with a fence which is closed. *)
Lemma split_fenced body tail :
  occurs FENCE (body ++ lit "``") = false →
  ∃ last, split_max FENCE 2 (FENCE ++ body ++ FENCE ++ tail)
          = [[]; body; last].
Proof.
  intros H. cbn [split_max].
  rewrite split_at_first_unfold, strip_prefix_app.
  rewrite split_at_first_here.
  - by eexists.
  - intros i Hi.
    destruct (strip_prefix FENCE (drop i body ++ FENCE ++ tail)) as [x|] eqn:E;
      [|done].
    exfalso. apply not_true_iff_false in H. apply H, occurs_spec.
    apply strip_prefix_Some in E.
    exists (take i body), (drop 3 (drop i body ++ lit "``")).
    rewrite <- (take_drop i body) at 1. rewrite <- app_assoc. f_equal.
    assert (Hd : drop i body ≠ []).
    { intros Hd%(f_equal length). rewrite length_drop in Hd. cbn in Hd. lia. }
    change FENCE with [96; 96; 96]%N in *. change (lit "``") with [96; 96]%N.
    destruct (drop i body) as [|d1 [|d2 [|d3 d]]]; [done| | |];
      cbn [app] in E; injection E; clear E; intros; subst; reflexivity.
Qed.

Lemma strip_md_fence_fenced body tail :
  occurs FENCE (body ++ lit "``") = false →
  _strip_md_fence (FENCE ++ body ++ FENCE ++ tail)
  = strip (lstrip_by (in_chars (lit "markdown")) body).
Proof.
  intros H. unfold _strip_md_fence.
  rewrite (proj2 (startswith_true _ _)) by by eexists.
  destruct (split_fenced body tail H) as [last ->].
  apply rstrip_lstrip_strip.
Qed.

(** The text between the opening fence and the next one is what is
    kept: the characters of the word markdown at its start are removed,
    then it is trimmed; what follows the closing fence is dropped. The
    body holds no fence and does not end in a backquote. *)
Theorem strip_md_fence_body (body tail : str) :
  occurs FENCE (body ++ lit "``") = false →
  _strip_md_fence (FENCE ++ body ++ FENCE ++ tail)
  = strip (lstrip_by (in_chars (lit "markdown")) body).
Proof. apply strip_md_fence_fenced. Qed.

Lemma strip_md_fence_body_witness :
  _strip_md_fence (FENCE ++ lit "data" ++ FENCE ++ lit " and more")
  = lit "ta".
Proof.
  rewrite (strip_md_fence_body (lit "data") (lit " and more"));
    reflexivity.
Defined.

(** A text without a closing fence is only trimmed: one that does not
    open with a fence, or one that has no second fence. *)
Theorem strip_md_fence_unclosed (text : str) :
  (∀ r, text = FENCE ++ r → occurs FENCE r = false) →
  _strip_md_fence text = strip text.
Proof.
  intros H. unfold _strip_md_fence.
  destruct (startswith text FENCE) eqn:E; [|done].
  apply startswith_true in E as [r ->]. cbn [split_max].
  rewrite split_at_first_unfold, strip_prefix_app.
  by rewrite split_at_first_none by (done || by apply H).
Qed.

Lemma strip_md_fence_unclosed_witness :
  _strip_md_fence (lit "```md" ++ [NL] ++ lit "# Title ")
  = lit "```md" ++ [NL] ++ lit "# Title".
Proof.
  rewrite strip_md_fence_unclosed; [reflexivity|].
  intros r [= <-]. reflexivity.
Defined.

(** Whatever the text, the result has no white space at either end. *)
Lemma strip_md_fence_strip text :
  strip (_strip_md_fence text) = _strip_md_fence text.
Proof.
  unfold _strip_md_fence. destruct (startswith text FENCE);
    [|apply strip_idem].
  destruct (split_max FENCE 2 text) as [|? [|inner [|? ?]]];
    try apply strip_idem.
  rewrite rstrip_lstrip_strip. apply strip_idem.
Qed.

(** Unwrapping a text that was wrapped by [fence_md] gives the text back,
    trimmed, when the text holds no fence of its own. *)
Theorem fence_round_trip (txt : str) :
  occurs FENCE txt = false →
  _strip_md_fence (fence_md txt) = strip txt.
Proof.
  intros H. unfold fence_md.
  assert (E : lit "```md" ++ [NL] ++ txt ++ [NL] ++ FENCE
              = FENCE ++ (lit "md" ++ NL :: txt ++ [NL]) ++ FENCE ++ []).
  { rewrite app_nil_r. change (lit "```md") with (FENCE ++ lit "md").
    rewrite <- ?app_assoc. cbn [app]. by rewrite <- ?app_assoc. }
  rewrite E, strip_md_fence_fenced.
  - change (lstrip_by (in_chars (lit "markdown")) (lit "md" ++ NL :: txt ++ [NL]))
      with (NL :: txt ++ [NL]).
    change (NL :: txt ++ [NL]) with ([NL] ++ txt ++ [NL]).
    unfold strip, strip_by. rewrite app_assoc.
    rewrite rstrip_by_app_ws by done.
    rewrite <- !rstrip_lstrip_comm. unfold lstrip_by. f_equal.
  - rewrite <- !app_assoc. cbn [app]. rewrite <- !app_assoc. cbn [app].
    apply occurs_sep_false; [|done|].
    { by vm_compute; intros Hin; repeat (apply elem_of_cons in Hin as [Hin|Hin]; [done|]); apply elem_of_nil in Hin. }
    apply occurs_sep_false; [|done|done].
    by vm_compute; intros Hin; repeat (apply elem_of_cons in Hin as [Hin|Hin]; [done|]); apply elem_of_nil in Hin.
Qed.

Lemma fence_round_trip_witness :
  _strip_md_fence (fence_md (lit " ## Slide 1 ")) = lit "## Slide 1".
Proof. rewrite fence_round_trip; reflexivity. Defined.

End Fences.
(** ** Chat completions *)

Section ChatCompletion.

Import LockSpec LlmCalls LlmCallSpec.

Implicit Types (w : llm_world) (log : list llm_event) (r : reply)
  (key url model sys usr : str).

Lemma chat_completion_with_key w sys usr retries model key :
  _ensure_key w (lit "llm_key") = Done key →
  _chat_completion w sys usr retries model
  = attempts w key (_ensure_base_url w) model sys usr retries
      (Z.to_nat retries) 1 [].
Proof. unfold _chat_completion. by intros ->. Qed.

(** The first [except] clause cannot be tried: one of its classes is no
    exception class. *)
Lemma except_rate_limit_invalid (e : raised) :
  except_matches [cls_RateLimitError; cls_Timeout] e = None.
Proof. done. Qed.

(** An iteration of the loop is the last one: it returns the text of the
    response, or the first [except] clause raises. *)
Lemma attempts_first w key url model sys usr retries remaining attempt log :
  attempts w key url model sys usr retries (S remaining) attempt log
  = (reply_outcome (create w key url model sys usr attempt),
     log ++ [Create key url model sys usr]).
Proof.
  cbn [attempts].
  destruct (create w key url model sys usr attempt) as [[|c cs]|m|m|m];
    cbn [try_body reply_outcome]; by rewrite ?except_rate_limit_invalid.
Qed.

(** No retry. With a key and a limit of at least one, a call makes
    exactly one request, whatever the reply is, and never sleeps. When
    the response has a choice, the result is its unfenced content; when
    the request raises anything, a rate limit error included, or the
    response has no choice, the call raises the [TypeError] of its first
    [except] clause: no second request is made and no [LLMError] is
    raised. *)
Theorem chat_completion_no_retry (w : llm_world) (sys usr : str)
    (retries : Z) (model key : str) :
  _ensure_key w (lit "llm_key") = Done key →
  (1 <= retries)%Z →
  (_chat_completion w sys usr retries model).2
  = [Create key (_ensure_base_url w) model sys usr]
  ∧ (∀ content rest,
       create w key (_ensure_base_url w) model sys usr 1
       = Completion (content :: rest) →
       (_chat_completion w sys usr retries model).1
       = Done (_strip_md_fence (default [] content)))
  ∧ ((∀ content rest,
        create w key (_ensure_base_url w) model sys usr 1
        ≠ Completion (content :: rest)) →
     (_chat_completion w sys usr retries model).1 = Failed TypeError).
Proof.
  intros Hkey Hle.
  rewrite (chat_completion_with_key _ _ _ _ _ _ Hkey).
  destruct (Z.to_nat retries) as [|remaining] eqn:E; [lia|].
  rewrite attempts_first. cbn [fst snd app]. split; [done|]. split.
  - by intros content rest ->.
  - intros Hno.
    destruct (create w key (_ensure_base_url w) model sys usr 1)
      as [[|c cs]|m|m|m]; try done.
    by destruct (Hno c cs).
Qed.

Lemma chat_completion_no_retry_witness :
  chat throttled (lit "system") (lit "user")
  = (Failed TypeError,
     [Create (lit "sk-2") (lit "https://api.deepseek.com/v1")
        (lit "deepseek-chat") (lit "system") (lit "user")]).
Proof.
  pose proof (chat_completion_no_retry throttled (lit "system") (lit "user")
                3 (lit "deepseek-chat") (lit "sk-2") eq_refl) as (H1 & _ & H3);
    [lia|].
  unfold chat. rewrite (surjective_pairing (_chat_completion _ _ _ _ _)).
  rewrite H1, H3; [reflexivity|]. intros content rest. discriminate.
Defined.

Lemma requests_app log1 log2 :
  requests (log1 ++ log2) = requests log1 + requests log2.
Proof. unfold requests. by rewrite List.filter_app, length_app. Qed.

Lemma attempts_requests w key url model sys usr retries remaining attempt
    log :
  requests (attempts w key url model sys usr retries remaining attempt log).2
  <= requests log + remaining.
Proof.
  destruct remaining as [|remaining]; [cbn [attempts snd]; lia|].
  rewrite attempts_first. cbn [snd]. rewrite requests_app.
  change (requests [Create key url model sys usr]) with 1. lia.
Qed.

(** A call makes at most [retries] requests, none for a limit of zero or
    less; and without a key, in the environment variable [LLM_KEY] or
    under [llm_key] in the configuration, it makes no request at all and
    raises the error of type MissingKey. An empty value counts as no
    key. *)
Theorem chat_completion_request_bound (w : llm_world) (sys usr : str)
    (retries : Z) (model : str) :
  requests (_chat_completion w sys usr retries model).2 <= Z.to_nat retries
  ∧ (truthy (os_getenv w (lit "LLM_KEY")) = None →
     truthy (config_get w (lit "llm_key")) = None →
     _chat_completion w sys usr retries model
     = (Failed (LLMError (MISSING_PRE ++ lit "llm_key" ++ MISSING_POST)
                  (lit "MissingKey")), [])).
Proof.
  split.
  - unfold _chat_completion.
    destruct (_ensure_key w (lit "llm_key")) as [key|e]; cbn [snd].
    + etrans; [apply attempts_requests|]. cbn. lia.
    + cbn. lia.
  - intros He Hc. unfold _chat_completion, _ensure_key.
    change (upper (lit "llm_key")) with (lit "LLM_KEY").
    by rewrite He, Hc.
Qed.

Lemma chat_completion_request_bound_witness :
  chat keyless (lit "system") (lit "user")
  = (Failed (LLMError (MISSING_PRE ++ lit "llm_key" ++ MISSING_POST)
               (lit "MissingKey")), []).
Proof.
  apply (proj2 (chat_completion_request_bound keyless (lit "system")
                  (lit "user") 3 (lit "deepseek-chat"))); reflexivity.
Defined.

(** Inside the loop no [LLMError] is raised. *)
Lemma attempts_no_llm_error w key url model sys usr retries remaining
    attempt log msg type :
  (attempts w key url model sys usr retries (S remaining) attempt log).1
  ≠ Failed (LLMError msg type).
Proof.
  rewrite attempts_first. cbn [fst].
  by destruct (create w key url model sys usr attempt) as [[|c cs]|m|m|m].
Qed.

(** The error of type MaxRetryError, raised after the loop, is reached
    only when the limit is zero or negative, and then without any
    request: with a positive limit the loop always ends from the inside. *)
Theorem chat_completion_max_retry (w : llm_world) (sys usr : str)
    (retries : Z) (model key : str) :
  _ensure_key w (lit "llm_key") = Done key →
  ((∃ msg, (_chat_completion w sys usr retries model).1
           = Failed (LLMError msg (lit "MaxRetryError")))
   ↔ (retries <= 0)%Z)
  ∧ ((retries <= 0)%Z →
     _chat_completion w sys usr retries model
     = (Failed (LLMError MAX_RETRY_MSG (lit "MaxRetryError")), [])).
Proof.
  intros Hkey. rewrite (chat_completion_with_key _ _ _ _ _ _ Hkey).
  assert (H0 : (retries <= 0)%Z →
            attempts w key (_ensure_base_url w) model sys usr retries
              (Z.to_nat retries) 1 []
            = (Failed (LLMError MAX_RETRY_MSG (lit "MaxRetryError")), [])).
  { intros Hle. by replace (Z.to_nat retries) with 0 by lia. }
  split; [split|done].
  - intros [msg H]. destruct (Z.le_gt_cases retries 0) as [?|Hgt]; [done|].
    exfalso. revert H.
    destruct (Z.to_nat retries) as [|remaining] eqn:E; [lia|].
    apply attempts_no_llm_error.
  - intros Hle. rewrite H0 by done. by eexists.
Qed.

Lemma chat_completion_max_retry_witness :
  _chat_completion throttled (lit "system") (lit "user") 0
    (lit "deepseek-chat")
  = (Failed (LLMError MAX_RETRY_MSG (lit "MaxRetryError")), []).
Proof.
  apply (chat_completion_max_retry throttled (lit "system") (lit "user") 0
           (lit "deepseek-chat") (lit "sk-2")).
  - reflexivity.
  - lia.
Defined.

(** The errors a request raises are never wrapped. A call never sleeps,
    and an [LLMError] it raises is of type MissingKey or MaxRetryError:
    the types RateLimit/Timeout, APIError and UnexpectedError of the
    [except] clauses are never raised. *)
Theorem chat_completion_never_wraps (w : llm_world) (sys usr : str)
    (retries : Z) (model : str) :
  (∀ secs, Sleep secs ∉ (_chat_completion w sys usr retries model).2)
  ∧ ∀ msg type,
      (_chat_completion w sys usr retries model).1
      = Failed (LLMError msg type) →
      type = lit "MissingKey" ∨ type = lit "MaxRetryError".
Proof.
  unfold _chat_completion, _ensure_key.
  destruct (truthy (os_getenv w (upper (lit "llm_key")))) as [key|].
  2: destruct (truthy (config_get w (lit "llm_key"))) as [key|].
  3: { cbn [fst snd]. split; [by intros secs H%elem_of_nil|].
       intros msg type [= _ <-]. by left. }
  all: destruct (Z.to_nat retries) as [|remaining].
  all: try (cbn [attempts fst snd]; split; [by intros secs H%elem_of_nil|];
            intros msg type [= _ <-]; by right).
  all: split;
    [ rewrite attempts_first; cbn [snd app]; intros secs H;
      apply list_elem_of_singleton in H; discriminate H
    | intros msg type H; by apply attempts_no_llm_error in H ].
Qed.

Lemma chat_completion_never_wraps_witness :
  lit "MissingKey" = lit "MissingKey"
  ∨ lit "MissingKey" = lit "MaxRetryError".
Proof.
  apply (proj2 (chat_completion_never_wraps keyless (lit "system")
                  (lit "user") 3 (lit "deepseek-chat"))
           (MISSING_PRE ++ lit "llm_key" ++ MISSING_POST)).
  reflexivity.
Defined.

Lemma attempts_trimmed w key url model sys usr retries remaining attempt
    log s log' :
  attempts w key url model sys usr retries remaining attempt log
  = (Done s, log') →
  strip s = s.
Proof.
  destruct remaining as [|remaining]; [done|]. rewrite attempts_first.
  destruct (create w key url model sys usr attempt) as [[|c cs]|m|m|m];
    try done.
  intros [= <- _]. apply strip_md_fence_strip.
Qed.

(** The text a call returns has no white space at either end, whatever
    the model answered. *)
Theorem chat_completion_trimmed (w : llm_world) (sys usr : str)
    (retries : Z) (model s : str) (log : list llm_event) :
  _chat_completion w sys usr retries model = (Done s, log) →
  strip s = s.
Proof.
  unfold _chat_completion.
  destruct (_ensure_key w (lit "llm_key")) as [key|e]; [|done].
  apply attempts_trimmed.
Qed.

Lemma chat_completion_trimmed_witness :
  strip (lit "# Plan") = lit "# Plan".
Proof.
  apply (chat_completion_trimmed answering (lit "system") (lit "user") 3
           (lit "deepseek-chat") (lit "# Plan")
           [Create (lit "sk-3") (lit "https://api.deepseek.com/v1")
              (lit "deepseek-chat") (lit "system") (lit "user")]).
  reflexivity.
Defined.

End ChatCompletion.
(** ** Outline and content generation *)

Section Generation.

Import LockSpec LockLines LlmCalls LlmCallSpec.

Implicit Types (w : llm_world) (log : list llm_event)
  (key url model sys usr md : str) (prompts : gmap str str).

(** The events of the loop are those it was given, its requests and its
    sleeps. *)
Lemma attempts_events w key url model sys usr retries remaining attempt
    log e :
  e ∈ (attempts w key url model sys usr retries remaining attempt log).2 →
  e ∈ log ∨ e = Create key url model sys usr ∨ ∃ n, e = Sleep n.
Proof.
  destruct remaining as [|remaining]; [by left|].
  rewrite attempts_first. cbn [snd].
  intros [?|H]%elem_of_app; [by left|].
  apply list_elem_of_singleton in H. right. by left.
Qed.

Lemma chat_events w sys usr e :
  e ∈ (chat w sys usr).2 →
  (∃ key url, e = Create key url (lit "deepseek-chat") sys usr)
  ∨ ∃ n, e = Sleep n.
Proof.
  unfold chat, _chat_completion.
  destruct (_ensure_key w (lit "llm_key")) as [key|err]; cbn [snd].
  - intros [H|[->|?]]%attempts_events; [|left; by eexists _, _|by right].
    by apply elem_of_nil in H.
  - by intros H%elem_of_nil.
Qed.

Lemma chat_requests w sys usr : requests (chat w sys usr).2 <= 3.
Proof.
  unfold chat, _chat_completion.
  destruct (_ensure_key w (lit "llm_key")) as [key|err]; cbn [snd].
  - etrans; [apply attempts_requests|]. cbn. lia.
  - cbn. lia.
Qed.

(** What the model is sent when the content is generated: at most three
    requests, each with the fixed system prompt and, as the user prompt,
    the topic followed by the locked outline inside a fence. *)
Theorem gen_content_requests (w : llm_world) (outline_md : str)
    (prompts : gmap str str) (topic : str) :
  prompts !! lit "topic" = Some topic →
  requests (gen_content w outline_md prompts).2 <= 3
  ∧ ∀ key url model sys usr,
      Create key url model sys usr ∈ (gen_content w outline_md prompts).2 →
      model = lit "deepseek-chat" ∧ sys = CONTENT_SYS
      ∧ usr = TOPIC_PRE ++ topic ++ [NL; NL]
                ++ fence_md (_lock_zero_len_lines outline_md).1.
Proof.
  intros Ht. unfold gen_content.
  destruct (_lock_zero_len_lines outline_md) as [locked zero_lines].
  rewrite Ht. cbn [fst].
  pose proof (chat_requests w CONTENT_SYS (usr_prompt_of topic locked)) as Hr.
  pose proof (chat_events w CONTENT_SYS (usr_prompt_of topic locked)) as He.
  destruct (chat w CONTENT_SYS (usr_prompt_of topic locked)) as [[raw|err] log];
    cbn [snd] in *.
  - split; [done|]. intros key url model sys usr Hin.
    apply He in Hin as [(k & u & [= -> -> -> -> ->])|[n ?]]; done.
  - split; [done|]. intros key url model sys usr Hin.
    apply He in Hin as [(k & u & [= -> -> -> -> ->])|[n ?]]; done.
Qed.

Lemma gen_content_requests_witness :
  requests (gen_content busy (lit "## Slide 1")
              {[ lit "topic" := lit "Tides" ]}).2 <= 3.
Proof.
  apply (gen_content_requests busy (lit "## Slide 1")
           {[ lit "topic" := lit "Tides" ]} (lit "Tides")).
  reflexivity.
Defined.

(** A prompt dictionary without a topic: both generators raise the
    [KeyError] of the dictionary, not an [LLMError], and make no request.
    The content generator fails on the topic whatever else the dictionary
    holds. *)
Theorem gen_missing_topic (w : llm_world) (md : str)
    (prompts : gmap str str) :
  prompts !! lit "topic" = None →
  gen_content w md prompts = (Failed (PromptKeyError (lit "topic")), [])
  ∧ ∃ k, gen_outline w md prompts = (Failed (PromptKeyError k), []).
Proof.
  intros Ht. unfold gen_content, gen_outline.
  destruct (_lock_zero_len_lines md) as [locked zero_lines].
  rewrite Ht. split; [done|].
  destruct (prompts !! lit "ai_role"); [|by eexists].
  destruct (prompts !! lit "report_type"); by eexists.
Qed.

Lemma gen_missing_topic_witness :
  gen_content busy (lit "## Slide 1") {[ lit "ai_role" := lit "analyst" ]}
  = (Failed (PromptKeyError (lit "topic")), []).
Proof.
  apply (gen_missing_topic busy (lit "## Slide 1")
           {[ lit "ai_role" := lit "analyst" ]}).
  reflexivity.
Defined.

(** The base URL never ends in a slash: it is the value of
    [LLM_BASE_URL], or the default when the variable is not set, without
    the slashes at its end. *)
Theorem base_url_no_trailing_slash (w : llm_world) :
  (∀ t, _ensure_base_url w ≠ t ++ [47%N])
  ∧ (∃ k, default (lit "https://api.deepseek.com/v1")
            (os_getenv w (lit "LLM_BASE_URL"))
          = _ensure_base_url w ++ replicate k 47%N)
  ∧ (os_getenv w (lit "LLM_BASE_URL") = None →
     _ensure_base_url w = lit "https://api.deepseek.com/v1").
Proof.
  unfold _ensure_base_url. split; [|split].
  - intros t E.
    assert (H : is_slash 47%N = false); [|done].
    apply (rstrip_by_last is_slash
             (default (lit "https://api.deepseek.com/v1")
                (os_getenv w (lit "LLM_BASE_URL")))).
    rewrite E. apply last_snoc.
  - destruct (rstrip_by_split is_slash
                (default (lit "https://api.deepseek.com/v1")
                   (os_getenv w (lit "LLM_BASE_URL")))) as (x & Hx & E).
    exists (length x). rewrite E at 1. f_equal.
    clear E. induction x as [|c x IH]; [done|].
    cbn [forallb] in Hx. apply andb_prop in Hx as [Hc Hx].
    apply N.eqb_eq in Hc. subst c. cbn. f_equal. by apply IH.
  - by intros ->.
Qed.

End Generation.
(** ** Whole texts through locking and unlocking *)

Section LockTexts.

Import LockSpec LockLines.

Implicit Types (s md : str) (ps : list str) (lines : list str).

Lemma eol_lines_last ps : ps ≠ [] → last (eol_lines ps) = Some [].
Proof.
  induction ps as [|p ps IH]; [done|]. intros _. destruct ps as [|q ps].
  - by destruct p.
  - change (eol_lines (p :: q :: ps)) with ((p ++ [NL]) :: eol_lines (q :: ps)).
    rewrite last_cons, IH by done. done.
Qed.

Lemma eol_lines_shape ps l :
  Forall nl_free ps → l ∈ eol_lines ps →
  nl_free (rstrip_by is_nl l) ∧ (l = rstrip_by is_nl l
                                 ∨ l = rstrip_by is_nl l ++ [NL]).
Proof.
  induction ps as [|p ps IH]; [by intros _ H%elem_of_nil|].
  intros [Hp Hps]%Forall_cons Hin. destruct ps as [|q ps].
  - destruct p as [|c p].
    + apply list_elem_of_singleton in Hin. subst l. split; [done|by left].
    + change (eol_lines [c :: p]) with [c :: p; []] in Hin.
      apply elem_of_cons in Hin as [->|Hin].
      * rewrite rstrip_nl_free by done. split; [done|by left].
      * apply list_elem_of_singleton in Hin. subst l. split; [done|by left].
  - change (eol_lines (p :: q :: ps)) with ((p ++ [NL]) :: eol_lines (q :: ps))
      in Hin.
    apply elem_of_cons in Hin as [->|Hin]; [|by apply IH].
    rewrite rstrip_nl_line by done. split; [done|by right].
Qed.

Lemma eol_lines_nonempty ps i l :
  eol_lines ps !! i = Some l → S i < length (eol_lines ps) → l ≠ [].
Proof.
  revert i; induction ps as [|p ps IH]; intros i Hi Hlt; [done|].
  destruct ps as [|q ps].
  - destruct p as [|c p]; [cbn in Hlt; lia|].
    change (eol_lines [c :: p]) with [c :: p; []] in Hi, Hlt.
    destruct i as [|[|i]]; cbn in Hi, Hlt; [by injection Hi as <-|lia|lia].
  - change (eol_lines (p :: q :: ps)) with ((p ++ [NL]) :: eol_lines (q :: ps))
      in Hi, Hlt.
    destruct i as [|i]; cbn [length] in Hlt.
    + injection Hi as <-. by destruct p.
    + apply (IH i); [done|lia].
Qed.

(** The lines of a text: put together they give the text back; each is
    free of newlines but for one that may end it; every line but the last
    is non-empty, and the last one is always the empty string. *)
Theorem split_lines_keep_eol_shape (txt : str) :
  concat (_split_lines_keep_eol txt) = txt
  ∧ last (_split_lines_keep_eol txt) = Some []
  ∧ (∀ l, l ∈ _split_lines_keep_eol txt →
       nl_free (rstrip_by is_nl l)
       ∧ (l = rstrip_by is_nl l ∨ l = rstrip_by is_nl l ++ [NL]))
  ∧ (∀ i l, _split_lines_keep_eol txt !! i = Some l →
       S i < length (_split_lines_keep_eol txt) → l ≠ []).
Proof.
  split; [apply concat_split_lines|]. rewrite split_lines_pieces.
  split; [apply eol_lines_last, split_nl_nonnil|]. split.
  - intros l. apply eol_lines_shape, split_nl_pieces_free.
  - apply eol_lines_nonempty.
Qed.

Lemma split_lines_keep_eol_shape_witness :
  concat (_split_lines_keep_eol Decks.sample_md) = Decks.sample_md
  ∧ lit "## Slide 1" ++ [NL] ≠ [].
Proof.
  split; [apply (split_lines_keep_eol_shape Decks.sample_md)|].
  apply (proj2 (proj2 (proj2 (split_lines_keep_eol_shape Decks.sample_md)))
           0); [reflexivity|vm_compute; lia].
Defined.

Lemma zero_key_relined ln : zero_key (relined ln) = zero_key ln.
Proof.
  unfold zero_key. by rewrite is_zero_len_relined, dedup_key_relined.
Qed.

Lemma zero_keys_relined lines : zero_keys (map relined lines) = zero_keys lines.
Proof.
  induction lines as [|ln lines IH]; [done|].
  cbn [map]. by rewrite !zero_keys_cons, zero_key_relined, IH.
Qed.

Lemma find_zero_keys k lines :
  map (fun z => dedup_key z.2) (find_zero_from k lines) = zero_keys lines.
Proof.
  revert k; induction lines as [|ln lines IH]; intros k; [done|].
  cbn [find_zero_from]. rewrite zero_keys_cons. unfold zero_key.
  destruct (is_zero_len ln); [|apply IH].
  cbn [map snd]. by rewrite dedup_key_rstrip_nl, IH.
Qed.

(** Unlocking adds at most the newline of a locked last line. *)
Lemma concat_relined ps :
  ps ≠ [] → Forall nl_free ps →
  ∃ x, forallb isspace x = true
       ∧ concat (map relined (eol_lines ps)) = concat (eol_lines ps) ++ x.
Proof.
  induction ps as [|p ps IH]; [done|]. intros _ [Hp Hps]%Forall_cons.
  destruct ps as [|q ps].
  - destruct p as [|c p]; [by exists []|].
    change (eol_lines [c :: p]) with [c :: p; []]. cbn [map concat].
    rewrite relined_nil, !app_nil_r. unfold relined.
    rewrite rstrip_nl_free by done.
    destruct (is_zero_len (c :: p)); [by exists [NL]|].
    exists []. by rewrite app_nil_r.
  - change (eol_lines (p :: q :: ps)) with ((p ++ [NL]) :: eol_lines (q :: ps)).
    cbn [map concat]. rewrite relined_line by done.
    destruct IH as (x & Hx & ->); [done|done|].
    exists x. by rewrite <- !app_assoc.
Qed.

(** Locking a text and unlocking the result gives the text back, without
    the white space at its end, when the text holds neither sentinel and
    no two of its lines with a zero length hint have the same key. *)
Theorem lock_unlock_text (md : str) (zero_lines : list (nat * str)) :
  occurs LOCK_OPEN md = false →
  occurs LOCK_CLOSE md = false →
  NoDup (map (fun z => dedup_key z.2) (_find_zero_len_lines md)) →
  _unlock_and_dedup (_lock_zero_len_lines md).1 zero_lines false = rstrip md.
Proof.
  intros Hopen Hclose Hnd.
  unfold _find_zero_len_lines in Hnd. rewrite find_zero_keys in Hnd.
  rewrite unlock_and_dedup_unfold, lock_zero_len_lines_spec. cbn [id].
  rewrite (split_lines_pieces md) in Hnd |- *.
  pose proof (split_nl_nonnil md) as Hne.
  pose proof (split_nl_pieces_free md) as Hfree.
  rewrite unlock_lockified by (done || by apply occurs_pieces_false).
  destruct (relined_eol (split_nl md) Hne Hfree) as (ps' & Hne' & Hfree' & Erel).
  rewrite Erel, split_concat_eol, <- Erel by done.
  rewrite first_occurrences_id.
  - destruct (concat_relined (split_nl md) Hne Hfree) as (x & Hx & ->).
    unfold rstrip. rewrite rstrip_by_app_ws by done.
    by rewrite <- split_lines_pieces, concat_split_lines.
  - by rewrite zero_keys_relined.
  - intros k _ H. by apply elem_of_nil in H.
Qed.

Lemma lock_unlock_text_witness :
  _unlock_and_dedup (_lock_zero_len_lines Decks.sample_md).1 [] false
  = rstrip Decks.sample_md.
Proof.
  apply (lock_unlock_text Decks.sample_md []).
  - reflexivity.
  - reflexivity.
  - vm_compute. apply NoDup_cons. split; [|apply NoDup_nil_2].
    intros H. by apply elem_of_nil in H.
Defined.

(** A text without a lock span in which no two lines with a zero length
    hint have the same key passes the unlock and dedup step unchanged,
    but for the white space at its end. *)
Theorem unlock_and_dedup_plain (md : str) (zero_lines : list (nat * str)) :
  occurs LOCK_OPEN md = false →
  NoDup (map (fun z => dedup_key z.2) (_find_zero_len_lines md)) →
  _unlock_and_dedup md zero_lines false = rstrip md.
Proof.
  intros Hopen Hnd.
  unfold _find_zero_len_lines in Hnd. rewrite find_zero_keys in Hnd.
  rewrite unlock_and_dedup_unfold, unlock_plain_last by done. cbn [id].
  rewrite first_occurrences_id; [by rewrite concat_split_lines|done|].
  intros k _ H. by apply elem_of_nil in H.
Qed.

Lemma unlock_and_dedup_plain_witness :
  _unlock_and_dedup Decks.sample_md [] false = rstrip Decks.sample_md.
Proof.
  apply (unlock_and_dedup_plain Decks.sample_md []).
  - reflexivity.
  - vm_compute. apply NoDup_cons. split; [|apply NoDup_nil_2].
    intros H. by apply elem_of_nil in H.
Defined.

End LockTexts.
(** ** Chunks and lines of a markdown text *)

Section MarkdownText.

Import LockSpec.

Implicit Types (s t md line : str) (c : char) (p : char → bool)
  (lines : list str).

Lemma drop_while_nil {A} (f : A → bool) (l : list A) :
  drop_while f l = [] → forallb f l = true.
Proof.
  induction l as [|x l IH]; [done|]. cbn [drop_while forallb].
  destruct (f x); [|done]. apply IH.
Qed.

Lemma strip_by_nil p s : strip_by p s = [] → forallb p s = true.
Proof.
  unfold strip_by, lstrip_by. intros H%drop_while_nil.
  destruct (rstrip_by_split p s) as (x & Hx & E).
  rewrite E, forallb_app. by rewrite H, Hx.
Qed.

Lemma strip_by_all p s : forallb p s = true → strip_by p s = [].
Proof.
  intros H. unfold strip_by. by rewrite (proj2 (rstrip_by_nil_iff p s) H).
Qed.

(** A text is its trimmed text between two runs of trimmed characters. *)
Lemma strip_by_split p s :
  ∃ a b, forallb p a = true ∧ forallb p b = true
         ∧ s = a ++ strip_by p s ++ b.
Proof.
  destruct (rstrip_by_split p s) as (b & Hb & E).
  exists (take_while p (rstrip_by p s)), b.
  split; [apply forallb_take_while|]. split; [done|].
  unfold strip_by, lstrip_by. by rewrite app_assoc, take_drop_while.
Qed.

Lemma slide_pages_elem md ms x :
  x ∈ slide_pages md ms → strip x = x ∧ x ≠ [].
Proof.
  induction ms as [|[a start] ms IH]; [by intros H%elem_of_nil|].
  rewrite slide_pages_cons. intros [H|H]%elem_of_app; [|by apply IH].
  destruct (strip (slice md start _)) as [|c t] eqn:E; cbn [nonempty] in H.
  - by apply elem_of_nil in H.
  - apply list_elem_of_singleton in H. subst x. rewrite <- E.
    split; [apply strip_idem|by rewrite E].
Qed.

(** The chunks of a text have no white space at either end; an empty
    chunk is given only for a text of white space; and a text of newlines
    alone, or the empty text, has no chunk. *)
Theorem split_markdown_chunks (md : str) :
  (∀ x, x ∈ _split_markdown_slides md →
     strip x = x ∧ (x = [] → forallb isspace md = true))
  ∧ (forallb is_nl md = true → _split_markdown_slides md = []).
Proof.
  unfold _split_markdown_slides. cbv zeta. split.
  - intros x. destruct (nonempty (strip_by is_nl md)); cbn [negb];
      [|by intros H%elem_of_nil].
    destruct (rule_search (strip_by is_nl md)).
    { intros (y & _ & Hy)%list_elem_of_omap.
      destruct (strip y) as [|c t] eqn:E; [done|].
      cbn [nonempty] in Hy. injection Hy as <-. rewrite <- E.
      split; [apply strip_idem|by rewrite E]. }
    destruct (slide_finditer _ 0 true (strip_by is_nl md)) as [|m ms].
    + intros ->%list_elem_of_singleton. split; [apply strip_idem|].
      intros H%strip_by_nil.
      destruct (strip_by_split is_nl md) as (a & b & Ha & Hb & ->).
      rewrite !forallb_app, H. by rewrite !nl_ws.
    + intros [? ?]%slide_pages_elem. by split.
  - intros H. by rewrite strip_by_all.
Qed.

Lemma split_markdown_chunks_witness :
  _split_markdown_slides [NL; NL] = [].
Proof. by apply (split_markdown_chunks [NL; NL]). Defined.

End MarkdownText.
(** ** Cleaning a line *)

Section CleanLine.

Import LockSpec MarkdownSpec.

Implicit Types (s t m ws line rest : str) (c : char) (p : char → bool).

Lemma rstrip_strip s : rstrip (strip s) = strip s.
Proof.
  unfold rstrip, strip, strip_by, lstrip_by.
  by rewrite rstrip_lstrip_comm, rstrip_by_idem.
Qed.

Lemma strip_rstrip s : strip (rstrip s) = strip s.
Proof. unfold rstrip, strip, strip_by. by rewrite rstrip_by_idem. Qed.

(** A trimmed text that is not empty starts and ends with a character
    that is no white space. *)
Lemma rstrip_fix_last s :
  rstrip s = s → s ≠ [] → ∃ t c, s = t ++ [c] ∧ isspace c = false.
Proof.
  intros H Hne. destruct s as [|d s _] using rev_ind; [done|].
  exists s, d. split; [done|].
  apply (rstrip_by_last isspace (s ++ [d])). unfold rstrip in H.
  rewrite H. apply last_snoc.
Qed.

Lemma strip_fix_head s c t : strip s = c :: t → isspace c = false.
Proof. unfold strip, strip_by, lstrip_by. apply drop_while_head. Qed.

Lemma strip_keep c s d :
  isspace c = false → isspace d = false →
  strip (c :: s ++ [d]) = c :: s ++ [d].
Proof.
  intros Hc Hd. unfold strip, strip_by, lstrip_by.
  change (c :: s ++ [d]) with ((c :: s) ++ [d]).
  rewrite rstrip_by_snoc by done. cbn [app drop_while]. by rewrite Hc.
Qed.

Lemma strip_fix s : strip s = s → s ≠ [] →
  (∃ c t, s = c :: t ∧ isspace c = false)
  ∧ (∃ t d, s = t ++ [d] ∧ isspace d = false).
Proof.
  intros H Hne. split.
  - destruct s as [|c s]; [done|]. exists c, s. split; [done|].
    by apply (strip_fix_head _ _ _ H).
  - apply rstrip_fix_last; [|done]. rewrite <- H. apply rstrip_strip.
Qed.

Lemma bullet_mark_suffix s t :
  bullet_mark s = Some t → ∃ m, m ≠ [] ∧ s = m ++ t.
Proof.
  unfold bullet_mark. destruct s as [|c s']; [done|].
  destruct ((c =? 45) || (c =? 42))%N.
  - intros [= <-]. by exists [c].
  - pose proof (take_drop_while is_ascii_digit (c :: s')) as E.
    destruct (take_while is_ascii_digit (c :: s')) as [|x xs] eqn:Et; [done|].
    destruct (drop_while is_ascii_digit (c :: s')) as [|d t'] eqn:Ed; [done|].
    destruct ((d =? 46) || (d =? 41))%N; [|done]. intros [= <-].
    exists ((x :: xs) ++ [d]). split; [by destruct xs|].
    by rewrite <- E, <- app_assoc.
Qed.

(** The text after a bullet, in a trimmed line, is not blank. *)
Lemma bullet_rest_not_blank line rest :
  rstrip line = line → bullet_pat_match line = Some rest →
  strip rest ≠ [].
Proof.
  intros Hr. unfold bullet_pat_match.
  pose proof (take_drop_while isspace line) as E0.
  destruct (bullet_mark (drop_while isspace line)) as [s1|] eqn:Em; [|done].
  cbn [mbind option_bind].
  pose proof (take_drop_while isspace s1) as E1.
  destruct (take_while isspace s1) as [|x xs] eqn:Et; [done|].
  intros [= <-] Hs.
  apply bullet_mark_suffix in Em as (m & Hm & Em).
  apply (strip_by_nil isspace) in Hs.
  assert (Hws : forallb isspace s1 = true).
  { rewrite <- E1, forallb_app, Hs, andb_true_r. rewrite <- Et.
    apply forallb_take_while. }
  assert (El : line = (take_while isspace line ++ m) ++ s1)
    by (by rewrite <- app_assoc, <- Em).
  rewrite El in Hr. unfold rstrip in Hr.
  rewrite rstrip_by_app_ws in Hr by done.
  destruct (rstrip_by_split isspace (take_while isspace line ++ m))
    as (y & _ & Ey).
  apply (f_equal length) in Hr, Ey, E1. rewrite !length_app in *.
  cbn [length] in *. lia.
Qed.

(** A cleaned line has no white space at either end. *)
Lemma clean_md_line_strip line :
  strip (_clean_md_line line) = _clean_md_line line.
Proof.
  unfold _clean_md_line.
  destruct (startswith (strip line) (lit "#")); [apply strip_idem|].
  destruct (bullet_pat_match (strip line)) as [rest|] eqn:E;
    [|apply strip_idem].
  pose proof (bullet_rest_not_blank _ _ (rstrip_strip line) E) as Hne.
  destruct (strip_fix (strip rest) (strip_idem rest) Hne)
    as (_ & t & d & -> & Hd).
  change (BULLET :: 32%N :: t ++ [d]) with (BULLET :: (32%N :: t) ++ [d]).
  by apply strip_keep.
Qed.

Lemma startswith_hash_ne c s :
  c ≠ 35%N → startswith (c :: s) (lit "#") = false.
Proof.
  intros H. unfold startswith. change (lit "#") with [35%N].
  cbn [strip_prefix]. by rewrite (proj2 (N.eqb_neq 35 c)) by done.
Qed.

Lemma is_marker_mark m r :
  is_marker m = true → (∀ c r', r = c :: r' → is_ascii_digit c = false) →
  bullet_mark (m ++ r) = Some r
  ∧ ∃ c m', m = c :: m' ∧ isspace c = false ∧ c ≠ 35%N.
Proof.
  unfold is_marker. intros [H|H]%orb_prop Hr.
  - destruct m as [|c [|? ?]]; try done. split.
    + cbn [app bullet_mark]. by rewrite H.
    + exists c, []. split; [done|].
      apply orb_prop in H as [->%N.eqb_eq| ->%N.eqb_eq]; done.
  - pose proof (take_drop_while is_ascii_digit m) as E.
    pose proof (forallb_take_while is_ascii_digit m) as Hd.
    destruct (take_while is_ascii_digit m) as [|x xs] eqn:Et; [done|].
    destruct (drop_while is_ascii_digit m) as [|d [|? ?]] eqn:Ed; try done.
    subst m. cbn [forallb] in Hd. apply andb_prop in Hd as [Hx Hxs].
    assert (Hnd : is_ascii_digit d = false).
    { apply orb_prop in H as [->%N.eqb_eq| ->%N.eqb_eq]; done. }
    split.
    + rewrite <- app_assoc. cbn [app]. unfold bullet_mark.
      assert (Hx' : ((x =? 45) || (x =? 42))%N = false).
      { unfold is_ascii_digit in Hx. apply andb_prop in Hx as [H1 H2].
        apply N.leb_le in H1, H2. apply orb_false_intro; apply N.eqb_neq; lia. }
      rewrite Hx'.
      change (x :: xs ++ d :: r) with ((x :: xs) ++ d :: r).
      rewrite take_while_app, drop_while_app;
        [|by cbn; rewrite Hx, Hxs|by cbn; rewrite Hnd
         |by cbn; rewrite Hx, Hxs|by cbn; rewrite Hnd].
      by rewrite H.
    + exists x, (xs ++ [d]). split; [done|].
      unfold is_ascii_digit in Hx. apply andb_prop in Hx as [H1 H2].
      apply N.leb_le in H1, H2. split.
      * apply (digit_not_space x). unfold is_ascii_digit.
        by rewrite (proj2 (N.leb_le _ _) H1), (proj2 (N.leb_le _ _) H2).
      * lia.
Qed.

Lemma clean_md_line_marker m ws t :
  is_marker m = true →
  ws ≠ [] → forallb isspace ws = true →
  t ≠ [] → strip t = t →
  _clean_md_line (m ++ ws ++ t) = BULLET :: 32%N :: t.
Proof.
  intros Hm Hws Hsp Ht Hst.
  assert (Hwd : ∀ c r', ws ++ t = c :: r' → is_ascii_digit c = false).
  { intros c r' E. destruct ws as [|x ws']; [done|]. injection E as <- _.
    cbn [forallb] in Hsp. apply andb_prop in Hsp as [Hx _].
    destruct (is_ascii_digit x) eqn:Hd; [|done].
    apply digit_not_space in Hd. congruence. }
  destruct (is_marker_mark m (ws ++ t) Hm Hwd) as (Hbm & c & m' & -> & Hc & Hh).
  destruct (strip_fix t Hst Ht) as ((x & t' & Ex & Hx) & (u & d & Eu & Hd)).
  assert (El : c :: m' ++ ws ++ t = c :: (m' ++ ws ++ u) ++ [d])
    by (by rewrite Eu, <- !app_assoc).
  unfold _clean_md_line. cbn [app]. rewrite El, strip_keep by done.
  rewrite startswith_hash_ne by done. rewrite <- El.
  unfold bullet_pat_match. cbn [drop_while]. rewrite Hc.
  change (c :: m' ++ ws ++ t) with ((c :: m') ++ ws ++ t).
  rewrite Hbm. cbn [mbind option_bind].
  assert (Htw : take_while isspace (ws ++ t) = ws
                ∧ drop_while isspace (ws ++ t) = t).
  { rewrite Ex.
    split; [apply take_while_app|apply drop_while_app];
      by (done || cbn; rewrite Hx). }
  destruct Htw as [-> ->]. destruct ws; [done|]. by rewrite Hst.
Qed.

(** Every list marker becomes the same bullet: a line that is a marker,
    white space and a trimmed text is cleaned to the bullet character, a
    space and the text. *)
Theorem clean_md_line_bullet (m ws t : str) :
  is_marker m = true →
  ws ≠ [] → forallb isspace ws = true →
  t ≠ [] → strip t = t →
  _clean_md_line (m ++ ws ++ t) = BULLET :: 32%N :: t.
Proof. apply clean_md_line_marker. Qed.

Lemma clean_md_line_bullet_witness :
  _clean_md_line (lit "12)" ++ lit "  " ++ lit "second point")
  = BULLET :: 32%N :: lit "second point".
Proof.
  apply (clean_md_line_bullet (lit "12)") (lit "  ") (lit "second point"));
    reflexivity || discriminate.
Defined.

Lemma clean_md_line_hashes n t :
  (∀ r, t ≠ 35%N :: r) →
  _clean_md_line (replicate (S n) 35%N ++ t) = strip t.
Proof.
  intros Ht. unfold _clean_md_line.
  assert (Hh : forallb is_hash (replicate (S n) 35%N) = true).
  { induction n as [|n IH]; [done|]. by cbn [replicate forallb] in *. }
  assert (Hr : rstrip (replicate (S n) 35%N ++ t)
               = replicate (S n) 35%N ++ rstrip t).
  { unfold rstrip. destruct (rstrip_by isspace t) as [|c r] eqn:E.
    - rewrite rstrip_by_app_ws by by apply rstrip_by_nil_iff.
      rewrite app_nil_r. rewrite replicate_S_end.
      by rewrite rstrip_by_snoc, <- replicate_S_end by done.
    - rewrite rstrip_by_app_keep by by rewrite E. by rewrite E. }
  assert (Es : strip (replicate (S n) 35%N ++ t)
               = replicate (S n) 35%N ++ rstrip t).
  { unfold strip, strip_by, lstrip_by. fold (rstrip (replicate (S n) 35%N ++ t)).
    rewrite Hr. by cbn [replicate app drop_while]. }
  rewrite Es. cbn [replicate app].
  change (startswith (35%N :: replicate n 35%N ++ rstrip t) (lit "#"))
    with true. cbv iota.
  change (35%N :: replicate n 35%N ++ rstrip t)
    with (replicate (S n) 35%N ++ rstrip t).
  unfold lstrip_by. rewrite drop_while_app; [apply strip_rstrip|done|].
  destruct (rstrip_by_split isspace t) as (x & _ & E).
  unfold rstrip. destruct (rstrip_by isspace t) as [|c r] eqn:Er; [done|].
  cbn. destruct (is_hash c) eqn:Hc; [|done].
  apply N.eqb_eq in Hc. subst c. exfalso. apply (Ht (r ++ x)).
  by rewrite E.
Qed.

(** A heading loses all its number signs, however many, and is trimmed. *)
Theorem clean_md_line_heading (n : nat) (t : str) :
  (∀ r, t ≠ 35%N :: r) →
  _clean_md_line (replicate (S n) 35%N ++ t) = strip t.
Proof. apply clean_md_line_hashes. Qed.

Lemma clean_md_line_heading_witness :
  _clean_md_line (lit "####### " ++ lit "Deep title ") = lit "Deep title".
Proof.
  apply (clean_md_line_heading 6 (lit " Deep title ")).
  intros r. discriminate.
Defined.

End CleanLine.
(** ** The lines of the extraction as the renderer reads them *)

Section ExtractedLines.

Import LockSpec ExtractorSpec MarkdownSpec.

Implicit Types (t l r rest tag : str) (c : char) (s i ln : nat).

Lemma ph_name_shape s i :
  ∃ body, _make_ph_name s i = 123%N :: body ++ [125%N]
          ∧ forallb (fun c => negb (c =? 33)%N) body = true.
Proof.
  exists (123%N :: 83%N :: str_of_nat (s + 1) ++ lit "_P"
            ++ str_of_nat (i + 1) ++ [125%N]).
  split.
  - unfold _make_ph_name. change (lit "{{S") with [123; 123; 83]%N.
    change (lit "}}") with [125; 125]%N. cbn [app].
    by rewrite <- !app_assoc.
  - assert (Hd : ∀ n, forallb (fun c => negb (c =? 33)%N) (str_of_nat n) = true).
    { intros n. apply (forallb_impl is_ascii_digit); [|apply str_of_nat_digits].
      intros c [H1 _]%andb_prop. apply N.leb_le in H1.
      apply negb_true_iff, N.eqb_neq. lia. }
    cbn [forallb]. rewrite !forallb_app, !Hd. done.
Qed.

Lemma segment_parts s i ln tag :
  segment (_make_ph_name s i, ln, tag)
  = _make_ph_name s i ++ tag_part tag ++ lit " " ++ len_hint ln.
Proof.
  unfold segment, tag_part, len_hint.
  change (lit " <!--len:") with (lit " " ++ lit "<!--len:").
  by rewrite <- !app_assoc.
Qed.

Lemma align_tag_cases tag :
  is_align_tag tag = true →
  tag = [] ∨ tag = lit "<div align='center'>" ∨ tag = lit "<div align='right'>".
Proof.
  unfold is_align_tag.
  intros [[H|H]%orb_prop|H]%orb_prop; apply str_eqb_eq in H; auto.
Qed.

(** The placeholder pattern on a token, with or without the bullet the
    cleaning puts before it. *)
Lemma placeholder_only_token (bullet : bool) s i rest :
  _is_placeholder_only
    ((if bullet then [BULLET; 32%N] else []) ++ _make_ph_name s i ++ rest)
  = tag_or_nothing rest.
Proof.
  destruct (ph_name_shape s i) as (body & E & _).
  pose proof (token_match_make s i rest) as Ht. rewrite E in *.
  unfold _is_placeholder_only, tag_or_nothing. destruct bullet; cbn [app].
  - change (drop_while isspace (BULLET :: 32%N :: 123%N :: (body ++ [125%N]) ++ rest))
      with (BULLET :: 32%N :: 123%N :: (body ++ [125%N]) ++ rest).
    cbv beta iota zeta. rewrite N.eqb_refl.
    change (drop_while isspace (32%N :: 123%N :: (body ++ [125%N]) ++ rest))
      with (123%N :: (body ++ [125%N]) ++ rest).
    cbn [app] in Ht. by rewrite Ht.
  - change (drop_while isspace (123%N :: (body ++ [125%N]) ++ rest))
      with (123%N :: (body ++ [125%N]) ++ rest).
    cbv beta iota zeta. change (123 =? BULLET)%N with false. cbv iota.
    change (bullet_mark (123%N :: (body ++ [125%N]) ++ rest)) with (@None str).
    change (default (123%N :: (body ++ [125%N]) ++ rest) None)
      with (123%N :: (body ++ [125%N]) ++ rest).
    change (drop_while isspace (123%N :: (body ++ [125%N]) ++ rest))
      with (123%N :: (body ++ [125%N]) ++ rest).
    cbn [app] in Ht. by rewrite Ht.
Qed.

Lemma digits_not_gt n : forallb not_gt (str_of_nat n) = true.
Proof.
  apply (forallb_impl is_ascii_digit); [|apply str_of_nat_digits].
  intros c [H1 H2]%andb_prop. apply N.leb_le in H1, H2.
  unfold not_gt. apply negb_true_iff, N.eqb_neq. lia.
Qed.

Lemma tag_or_nothing_hint ln :
  tag_or_nothing (lit " " ++ len_hint ln) = true.
Proof.
  unfold tag_or_nothing, len_hint.
  change (lit " " ++ lit "<!--len:" ++ str_of_nat ln ++ lit "-->")
    with (32%N :: 60%N :: lit "!--len:" ++ str_of_nat ln ++ lit "-->").
  cbn [drop_while]. change (isspace 32) with true. cbv iota.
  change (isspace 60) with false. cbv iota. rewrite N.eqb_refl.
  assert (E : lit "!--len:" ++ str_of_nat ln ++ lit "-->"
              = (lit "!--len:" ++ str_of_nat ln ++ lit "--") ++ [62%N]).
  { change (lit "-->") with (lit "--" ++ [62%N]). by rewrite <- !app_assoc. }
  rewrite E.
  assert (Hf : forallb not_gt (lit "!--len:" ++ str_of_nat ln ++ lit "--") = true)
    by (by rewrite !forallb_app, digits_not_gt).
  rewrite take_while_app, drop_while_app by done.
  by destruct (lit "!--len:" ++ str_of_nat ln ++ lit "--").
Qed.

Lemma tag_or_nothing_tagged tag ln :
  tag = lit "<div align='center'>" ∨ tag = lit "<div align='right'>" →
  tag_or_nothing (tag_part tag ++ lit " " ++ len_hint ln) = false
  ∧ tag_or_nothing (tag_part tag) = true.
Proof.
  intros [-> | ->]; split; reflexivity.
Qed.

Lemma len_pat_match_hint ln r :
  len_pat_match (len_hint ln ++ r) = Some (str_of_nat ln, r).
Proof.
  unfold len_pat_match, len_hint.
  change (lit "<!--len:") with (lit "<!--" ++ lit "len:").
  rewrite <- !app_assoc, strip_prefix_app. cbn [mbind option_bind].
  change (drop_while isspace (lit "len:" ++ str_of_nat ln ++ lit "-->" ++ r))
    with (lit "len:" ++ str_of_nat ln ++ lit "-->" ++ r).
  rewrite strip_prefix_app. cbn [mbind option_bind].
  rewrite take_while_app, drop_while_app
    by (apply str_of_nat_decimal || done).
  destruct (str_of_nat ln) eqn:E; [by apply str_of_nat_nonempty in E|].
  change (drop_while isspace (lit "-->" ++ r)) with (lit "-->" ++ r).
  by rewrite strip_prefix_app.
Qed.

(** No length hint starts in a text without exclamation mark that ends
    in a space. *)
Lemma no_hint_before l r i :
  forallb (fun c => negb (c =? 33)%N) (l ++ [32%N]) = true →
  i < length (l ++ [32%N]) →
  len_pat_match (drop i (l ++ [32%N]) ++ r) = None.
Proof.
  intros Hf Hi. unfold len_pat_match.
  assert (E : strip_prefix (lit "<!--") (drop i (l ++ [32%N]) ++ r) = None);
    [|by rewrite E].
  change (lit "<!--") with (60%N :: 33%N :: lit "--").
  destruct (drop i (l ++ [32%N])) as [|x [|y rest]] eqn:Ed.
  - apply (f_equal length) in Ed. rewrite length_drop in Ed. cbn in Ed. lia.
  - assert (x = 32%N); [|by subst x].
    assert (Hl : i = length l).
    { apply (f_equal length) in Ed. rewrite length_drop, length_app in Ed.
      cbn in Ed. lia. }
    subst i. rewrite drop_app_length in Ed. by injection Ed.
  - assert (Hy : (y =? 33)%N = false).
    { apply negb_true_iff. rewrite <- (take_drop i (l ++ [32%N])), Ed in Hf.
      rewrite forallb_app in Hf. apply andb_prop in Hf as [_ Hf].
      cbn [forallb] in Hf. apply andb_prop in Hf as [_ Hf].
      by apply andb_prop in Hf as [Hf _]. }
    cbn [app strip_prefix]. destruct (60 =? x)%N; [|done].
    rewrite N.eqb_sym in Hy. by rewrite Hy.
Qed.

Lemma len_pat_strip_hint l ln :
  forallb (fun c => negb (c =? 33)%N) (l ++ [32%N]) = true →
  len_pat_strip ((l ++ [32%N]) ++ len_hint ln) = l ++ [32%N].
Proof.
  intros Hf. unfold len_pat_strip. rewrite re_sub_skip.
  - rewrite (re_sub_Some _ _ [] [] len_strip_consuming).
    + by rewrite app_nil_r.
    + pose proof (len_pat_match_hint ln []) as H. rewrite app_nil_r in H.
      by rewrite H.
  - intros i Hi. by rewrite no_hint_before.
Qed.

(** The line of an item without its length hint. *)
Lemma item_line_stripped s i ln tag :
  is_align_tag tag = true →
  len_pat_strip (item_line (_make_ph_name s i, ln, tag))
  = (if ln <=? 10 then lit "### " else lit "- ")
      ++ _make_ph_name s i ++ tag_part tag ++ lit " ".
Proof.
  intros Htag. unfold item_line. cbn [fst snd].
  rewrite segment_parts.
  set (head := if ln <=? 10 then lit "### " else lit "- ").
  assert (E : (if ln <=? 10
               then lit "### " ++ _make_ph_name s i ++ tag_part tag
                      ++ lit " " ++ len_hint ln
               else lit "- " ++ _make_ph_name s i ++ tag_part tag
                      ++ lit " " ++ len_hint ln)
              = ((head ++ _make_ph_name s i ++ tag_part tag) ++ [32%N])
                  ++ len_hint ln).
  { unfold head. change (lit " ") with [32%N].
    destruct (ln <=? 10); by rewrite <- !app_assoc. }
  rewrite E, len_pat_strip_hint.
  - change (lit " ") with [32%N]. by rewrite <- !app_assoc.
  - destruct (ph_name_shape s i) as (body & -> & Hb).
    rewrite !forallb_app. cbn [forallb]. rewrite forallb_app, Hb.
    assert (Hh : forallb (fun c => negb (c =? 33)%N) head = true)
      by (unfold head; by destruct (ln <=? 10)).
    rewrite Hh.
    by destruct (align_tag_cases tag Htag) as [-> | [-> | ->]].
Qed.

Lemma tag_part_last tag :
  is_align_tag tag = true → tag ≠ [] → ∃ t, tag_part tag = t ++ [62%N].
Proof.
  intros Htag Hne.
  destruct (align_tag_cases tag Htag) as [-> | [-> | ->]]; [done| |].
  - by exists (lit " <div align='center'").
  - by exists (lit " <div align='right'").
Qed.

(** The token and its tag form a trimmed text. *)
Lemma token_tag_shape s i tag :
  is_align_tag tag = true →
  ∃ body d, _make_ph_name s i ++ tag_part tag = 123%N :: body ++ [d]
            ∧ isspace d = false.
Proof.
  intros Htag. destruct (ph_name_shape s i) as (body & E & _).
  destruct tag as [|c tag'] eqn:Et.
  - exists body, 125%N. by rewrite app_nil_r.
  - destruct (tag_part_last (c :: tag') Htag) as [t Ep]; [done|].
    exists (body ++ [125%N] ++ t), 62%N. rewrite E, Ep. cbn [app].
    by rewrite <- !app_assoc.
Qed.

Lemma strip_app_l_ws (w t : str) :
  forallb isspace w = true → strip (w ++ t) = strip t.
Proof.
  intros Hw. unfold strip, strip_by, lstrip_by.
  rewrite <- !rstrip_lstrip_comm. f_equal.
  induction w as [|c w IH]; [done|]. cbn [forallb] in Hw.
  apply andb_prop in Hw as [Hc Hw]. cbn [app drop_while]. rewrite Hc.
  by apply IH.
Qed.

(** Cleaning the line of an item: the token and what follows it, with a
    bullet for a long item. *)
Lemma clean_item_line (short : bool) (T b : str) d :
  T = 123%N :: b ++ [d] → isspace d = false →
  _clean_md_line ((if short then lit "### " else lit "- ") ++ T)
  = (if short then [] else [BULLET; 32%N]) ++ T.
Proof.
  intros Et Hd.
  assert (Hs : strip T = T) by (rewrite Et; by apply strip_keep).
  destruct short.
  - change (lit "### ") with (replicate 3 35%N ++ [32%N]).
    rewrite <- app_assoc. rewrite clean_md_line_hashes by done.
    rewrite <- Hs at 2. apply (strip_app_l_ws [32%N]). done.
  - cbn [app]. change (lit "- ") with ([45%N] ++ [32%N]).
    rewrite <- app_assoc. apply clean_md_line_marker; try done.
    by rewrite Et.
Qed.

(** A line of the extracted markdown, with its length hint, is read as
    a placeholder that is not to be written exactly when the item has no
    alignment tag: with a tag before the hint the line is taken for
    text. *)
Theorem item_line_placeholder_only (s i ln : nat) (tag : str) :
  is_align_tag tag = true →
  _is_placeholder_only
    (_clean_md_line (item_line (_make_ph_name s i, ln, tag)))
  = str_eqb tag [].
Proof.
  intros Htag. unfold item_line. cbn [fst snd]. rewrite segment_parts.
  destruct (ph_name_shape s i) as (body & Ep & _).
  assert (E : _make_ph_name s i ++ tag_part tag ++ lit " " ++ len_hint ln
              = 123%N :: (body ++ [125%N] ++ tag_part tag ++ lit " "
                            ++ lit "<!--len:" ++ str_of_nat ln ++ lit "--")
                  ++ [62%N]).
  { rewrite Ep. unfold len_hint. change (lit "-->") with (lit "--" ++ [62%N]).
    rewrite <- !app_assoc. cbn [app]. by rewrite <- ?app_assoc. }
  assert (Hc : ∀ short : bool,
            _is_placeholder_only
              (_clean_md_line ((if short then lit "### " else lit "- ")
                 ++ _make_ph_name s i ++ tag_part tag ++ lit " "
                 ++ len_hint ln))
            = tag_or_nothing (tag_part tag ++ lit " " ++ len_hint ln)).
  { intros short. rewrite (clean_item_line short _ _ _ E) by done.
    pose proof (placeholder_only_token (negb short) s i) as H.
    destruct short; cbn [negb] in H; apply H. }
  assert (Hr : tag_or_nothing (tag_part tag ++ lit " " ++ len_hint ln)
               = str_eqb tag []).
  { destruct (align_tag_cases tag Htag) as [-> | [-> | ->]].
    - apply tag_or_nothing_hint.
    - apply (tag_or_nothing_tagged (lit "<div align='center'>")). by left.
    - apply (tag_or_nothing_tagged (lit "<div align='right'>")). by right. }
  rewrite <- Hr.
  destruct (ln <=? 10); [apply (Hc true)|apply (Hc false)].
Qed.

Lemma item_line_placeholder_only_witness :
  _is_placeholder_only
    (_clean_md_line
       (lit "### {{S1_P1}} <div align='center'> <!--len:5-->"))
  = false.
Proof.
  apply (item_line_placeholder_only 0 0 5 (lit "<div align='center'>")).
  reflexivity.
Defined.

(** Once the length hints are stripped, as the content stage does, every
    line of the extracted markdown is read as a placeholder that is not
    to be written, with or without an alignment tag. *)
Theorem stripped_item_line_placeholder_only (s i ln : nat) (tag : str) :
  is_align_tag tag = true →
  _is_placeholder_only
    (_clean_md_line
       (len_pat_strip (item_line (_make_ph_name s i, ln, tag))))
  = true.
Proof.
  intros Htag. rewrite item_line_stripped by done.
  destruct (token_tag_shape s i tag Htag) as (body & d & E & Hd).
  assert (Hc : ∀ short : bool,
            _is_placeholder_only
              (_clean_md_line ((if short then lit "### " else lit "- ")
                 ++ _make_ph_name s i ++ tag_part tag ++ lit " "))
            = tag_or_nothing (tag_part tag)).
  { intros short.
    assert (Ec : _clean_md_line ((if short then lit "### " else lit "- ")
                   ++ _make_ph_name s i ++ tag_part tag ++ lit " ")
                 = (if short then [] else [BULLET; 32%N])
                     ++ _make_ph_name s i ++ tag_part tag).
    { unfold _clean_md_line at 1.
      rewrite !app_assoc, strip_app_ws by done. rewrite <- !app_assoc.
      fold (_clean_md_line ((if short then lit "### " else lit "- ")
              ++ _make_ph_name s i ++ tag_part tag)).
      by apply (clean_item_line short _ body d). }
    rewrite Ec.
    pose proof (placeholder_only_token (negb short) s i (tag_part tag)) as H.
    destruct short; cbn [negb] in H; apply H. }
  assert (Hr : tag_or_nothing (tag_part tag) = true).
  { destruct (align_tag_cases tag Htag) as [-> | [-> | ->]]; [done| |].
    - apply (tag_or_nothing_tagged (lit "<div align='center'>") 0). by left.
    - apply (tag_or_nothing_tagged (lit "<div align='right'>") 0). by right. }
  destruct (ln <=? 10); [rewrite (Hc true)|rewrite (Hc false)]; exact Hr.
Qed.

Lemma stripped_item_line_placeholder_only_witness :
  _is_placeholder_only
    (_clean_md_line
       (len_pat_strip
          (lit "### {{S1_P1}} <div align='center'> <!--len:5-->")))
  = true.
Proof.
  apply (stripped_item_line_placeholder_only 0 0 5
           (lit "<div align='center'>")).
  reflexivity.
Defined.

End ExtractedLines.
(** ** The lines of a page and the slides of a rendered deck *)

Section Pages.

Import LockSpec ExtractorSpec SlideText PageSpec.

Implicit Types (l r cur md : str) (c : char) (lines pages : list str)
  (prs : presentation) (sl blank : slide).

Lemma nl_split_free fuel cur l :
  nl_free l → length l <= fuel →
  re_split (fun s => match s with
                     | c :: t => if is_nl c then Some (drop_while is_nl t)
                                 else None
                     | [] => None
                     end) fuel cur l = [cur ++ l].
Proof.
  revert fuel cur. induction l as [|c l IH]; intros fuel cur Hf Hl.
  - destruct fuel; cbn [re_split]; by rewrite ?app_nil_r.
  - destruct fuel as [|fuel]; [cbn in Hl; lia|]. cbn [re_split].
    unfold nl_free in Hf. cbn [forallb] in Hf.
    apply andb_prop in Hf as [Hc Hf]. apply negb_true_iff in Hc. rewrite Hc.
    rewrite IH; [|done|cbn in Hl; lia]. by rewrite <- app_assoc.
Qed.

Lemma nl_split_line fuel cur l r :
  nl_free l → length (l ++ NL :: r) <= fuel →
  (∀ r', r ≠ NL :: r') →
  re_split (fun s => match s with
                     | c :: t => if is_nl c then Some (drop_while is_nl t)
                                 else None
                     | [] => None
                     end) fuel cur (l ++ NL :: r)
  = (cur ++ l)
      :: re_split (fun s => match s with
                            | c :: t => if is_nl c
                                        then Some (drop_while is_nl t)
                                        else None
                            | [] => None
                            end) (fuel - length l - 1) [] r.
Proof.
  revert fuel cur. induction l as [|c l IH]; intros fuel cur Hf Hl Hr.
  - destruct fuel as [|fuel]; [cbn in Hl; lia|]. cbn [app re_split length].
    change (is_nl NL) with true. cbv iota. rewrite app_nil_r.
    replace (S fuel - 0 - 1) with fuel by lia. do 2 f_equal.
    destruct r as [|x r']; [done|]. cbn [drop_while].
    destruct (is_nl x) eqn:Hx; [|done].
    apply N.eqb_eq in Hx. subst x. by destruct (Hr r').
  - destruct fuel as [|fuel]; [cbn in Hl; lia|]. cbn [app re_split].
    unfold nl_free in Hf. cbn [forallb] in Hf.
    apply andb_prop in Hf as [Hc Hf]. apply negb_true_iff in Hc. rewrite Hc.
    rewrite IH; [|done|cbn in Hl; lia|done].
    rewrite <- app_assoc. cbn [length app]. do 2 f_equal.
Qed.

Lemma page_line_head l :
  page_line l = true → nl_free l ∧ ∃ c t, l = c :: t ∧ is_nl c = false.
Proof.
  unfold page_line. intros [Hf Hn]%andb_prop. split; [done|].
  destruct l as [|c t]; [done|]. exists c, t. split; [done|].
  cbn [forallb] in Hf. apply andb_prop in Hf as [Hc _].
  by apply negb_true_iff.
Qed.

Lemma nl_split_join fuel lines :
  lines ≠ [] → forallb page_line lines = true →
  length (join [NL] lines) <= fuel →
  re_split (fun s => match s with
                     | c :: t => if is_nl c then Some (drop_while is_nl t)
                                 else None
                     | [] => None
                     end) fuel [] (join [NL] lines) = lines.
Proof.
  revert fuel. induction lines as [|l lines IH]; intros fuel Hne Hall Hl;
    [done|].
  cbn [forallb] in Hall. apply andb_prop in Hall as [Hp Hall].
  destruct (page_line_head l Hp) as [Hf _].
  destruct lines as [|l2 lines].
  - cbn [join] in *. by rewrite nl_split_free.
  - rewrite join_cons in * by done. cbn [app] in *.
    rewrite nl_split_line; [|done|done|].
    + cbn [app]. f_equal. apply IH; [done|done|].
      rewrite length_app in Hl. cbn [length] in Hl. lia.
    + cbn [forallb] in Hall. apply andb_prop in Hall as [Hp2 _].
      destruct (page_line_head l2 Hp2) as (_ & c & t & -> & Hc).
      intros r' E. destruct lines; cbn [join app] in E;
        injection E as -> _; done.
Qed.

Lemma nl_split_pieces fuel cur s :
  nl_free cur → length s <= fuel →
  Forall nl_free
    (re_split (fun s => match s with
                        | c :: t => if is_nl c then Some (drop_while is_nl t)
                                    else None
                        | [] => None
                        end) fuel cur s).
Proof.
  revert cur s. induction fuel as [|fuel IH]; intros cur s Hc Hl.
  - destruct s; [|cbn in Hl; lia]. cbn [re_split]. rewrite app_nil_r.
    by repeat constructor.
  - destruct s as [|c t]; cbn [re_split]; [by repeat constructor|].
    cbn [length] in Hl. destruct (is_nl c) eqn:E.
    + constructor; [done|]. apply IH; [done|].
      pose proof (drop_while_length is_nl t). lia.
    + apply IH; [|lia]. apply nl_free_app; [done|].
      unfold nl_free. cbn [forallb]. by rewrite E.
Qed.

(** The lines of a page hold no newline and none is blank; and the lines
    of a text that was joined from such lines are these lines. *)
Theorem page_lines_join (md : str) (lines : list str) :
  forallb page_line (page_lines md) = true
  ∧ (forallb page_line lines = true → page_lines (join [NL] lines) = lines).
Proof.
  unfold page_lines. split.
  - apply forallb_forall. intros l [Hin Hb]%filter_In.
    unfold page_line. rewrite Hb, andb_true_r.
    pose proof (nl_split_pieces (length md) [] md eq_refl (le_n _)) as H.
    rewrite Forall_forall in H. by apply H, list_elem_of_In.
  - intros Hall. destruct lines as [|l lines]; [done|].
    rewrite nl_split_join by done.
    apply forallb_filter_id, forallb_forall. intros x Hx.
    rewrite forallb_forall in Hall. specialize (Hall x Hx).
    unfold page_line in Hall. by apply andb_prop in Hall as [_ ?].
Qed.

Lemma page_lines_join_witness :
  page_lines (join [NL] Decks.sample_page) = Decks.sample_page.
Proof. by apply (page_lines_join [] Decks.sample_page). Defined.

Lemma write_pages_slides blank idx pages prs prs' :
  1 <= idx → idx - 1 <= length (slides prs) →
  write_pages blank idx pages prs = Ok prs' →
  length (slides prs') = max (length (slides prs)) (idx - 1 + length pages)
  ∧ slide_layouts prs' = slide_layouts prs
  ∧ ∀ s, s < idx - 1 ∨ idx - 1 + length pages <= s →
         slides prs' !! s = slides prs !! s.
Proof.
  revert idx prs. induction pages as [|md pages IH]; intros idx prs H1 Hidx;
    cbn [write_pages].
  - intros [= <-]. split; [cbn; lia|]. done.
  - set (prs0 := if idx - 1 <? length (slides prs) then prs
                 else Presentation (slides prs ++ [blank]) (slide_layouts prs)
                        (parts prs)).
    assert (Hlen : length (slides prs0)
                   = max (length (slides prs)) (S (idx - 1))).
    { unfold prs0. destruct (idx - 1 <? length (slides prs)) eqn:E.
      - apply Nat.ltb_lt in E. lia.
      - apply Nat.ltb_ge in E. cbn [slides]. rewrite length_app. cbn. lia. }
    assert (Hlay : slide_layouts prs0 = slide_layouts prs)
      by (unfold prs0; by destruct (idx - 1 <? length (slides prs))).
    assert (Hold : ∀ s, s ≠ idx - 1 →
              s < idx - 1 ∨ idx - 1 + S (length pages) <= s →
              slides prs0 !! s = slides prs !! s).
    { intros s Hne Hs. unfold prs0.
      destruct (idx - 1 <? length (slides prs)) eqn:E; [done|].
      apply Nat.ltb_ge in E. cbn [slides].
      destruct Hs as [Hs|Hs].
      - by rewrite lookup_app_l by lia.
      - rewrite !lookup_ge_None_2; [done|lia|].
        rewrite length_app. cbn. lia. }
    destruct (slides prs0 !! (idx - 1)) as [sl|] eqn:Esl; [|done].
    destruct (_write_page_to_slide sl (page_lines md)) as [sl'|e]; [|done].
    intros H. apply IH in H; [|lia|].
    2: { cbn [slides]. rewrite length_insert. lia. }
    cbn [slides slide_layouts] in H. rewrite length_insert in H.
    destruct H as (H4 & H2 & H3). split; [|split].
    + rewrite H4, Hlen. cbn [length]. lia.
    + by rewrite H2.
    + intros s Hs. cbn [length] in Hs. rewrite H3 by lia.
      rewrite list_lookup_insert_ne by lia. apply Hold; lia.
Qed.

(** The rendered deck has the slides of the template and, when the text
    has more chunks, one new slide for every further chunk: as many
    slides as the larger of the two numbers. The slides after the last
    chunk are as they were, and so are the layouts. *)
Theorem render_ppt_slide_count (prs prs' : presentation) (markdown : str)
    (user_choices : list (nat * str * option bytes)) :
  render_ppt prs markdown user_choices = Ok prs' →
  length (slides prs')
  = max (length (slides prs)) (length (_split_markdown_slides markdown))
  ∧ slide_layouts prs' = slide_layouts prs
  ∧ ∀ s, length (_split_markdown_slides markdown) <= s →
         slides prs' !! s = slides prs !! s.
Proof.
  unfold render_ppt.
  destruct (slide_layouts prs !! 1) as [blank|]; [|done].
  destruct (write_pages blank 1 (_split_markdown_slides markdown) prs)
    as [prs1|e] eqn:E; [|done].
  intros [= <-]. apply write_pages_slides in E as (H1 & H2 & H3);
    [|lia|cbn; lia].
  rewrite replace_chosen_slides. split; [by rewrite H1|].
  split.
  - rewrite <- H2. clear. revert prs1.
    induction user_choices as [|[[s r] [[|b c]|]] choices IH]; intros prs1;
      cbn [replace_chosen]; try done.
    rewrite IH. destruct (slides prs1 !! s) as [sl|]; [|done].
    unfold _replace_picture. by destruct (rels sl !! r).
  - intros s Hs. apply H3. right. cbn. lia.
Qed.

Lemma render_ppt_slide_count_witness :
  ∃ prs', render_ppt RenderSpec.shared_deck Decks.sample_md [] = Ok prs'
          ∧ length (slides prs') = 2.
Proof.
  eexists. split; [reflexivity|].
  by apply (render_ppt_slide_count RenderSpec.shared_deck _ Decks.sample_md []).
Defined.




End Pages.
(** ** What writing a page keeps *)

Section WriteKeeps.

Import WriteSpec SlideSpec.

Implicit Types (sl : slide) (bf : list nat) (lines : list str)
  (f : text_frame → text_frame).

Lemma keeps_shapes_refl sl : keeps_shapes sl sl.
Proof. split; [done|]. split; [done|]. intros i sh H. by exists sh. Qed.

Lemma keeps_shapes_trans sl1 sl2 sl3 :
  keeps_shapes sl1 sl2 → keeps_shapes sl2 sl3 → keeps_shapes sl1 sl3.
Proof.
  intros (Ht1 & Hr1 & H1) (Ht2 & Hr2 & H2). split; [congruence|].
  split; [congruence|]. intros i sh Hi.
  destruct (H1 i sh Hi) as (sh2 & Hi2 & Hk2 & Hs2).
  destruct (H2 i sh2 Hi2) as (sh3 & Hi3 & Hk3 & Hs3).
  exists sh3. split; [done|]. split; [congruence|]. intros Hf Hne.
  rewrite <- (Hs2 Hf Hne). apply Hs3; congruence.
Qed.

Lemma keeps_shapes_update i f sl :
  (∀ sh, shapes sl !! i = Some sh →
         has_text_frame sh = true ∨ title sl = Some i) →
  keeps_shapes sl (update_frame i f sl)
  ∧ length (shapes (update_frame i f sl)) = length (shapes sl).
Proof.
  intros H. unfold update_frame, keeps_shapes. cbn [shapes title rels]. split.
  - split; [done|]. split; [done|]. intros j sh Hj.
    destruct (decide (j = i)) as [->|Hne].
    + rewrite list_lookup_alter_eq, Hj. cbn. eexists. split; [done|].
      split; [done|]. intros Hf Ht. destruct (H sh Hj); congruence.
    + rewrite list_lookup_alter_ne by done. by exists sh.
  - apply length_alter.
Qed.

Lemma keeps_shapes_app sl extra :
  keeps_shapes sl (Slide (shapes sl ++ extra) (title sl) (rels sl)).
Proof.
  unfold keeps_shapes. cbn [shapes title rels].
  split; [done|]. split; [done|]. intros i sh Hi. exists sh.
  by rewrite (lookup_app_l_Some _ _ _ _ Hi).
Qed.

Lemma text_frames_keeps bf sl sl' :
  keeps_shapes sl sl' → text_frames bf sl → text_frames bf sl'.
Proof.
  intros (_ & _ & H) Hbf i Hi. destruct (Hbf i Hi) as (sh & Hs & Hf).
  destruct (H i sh Hs) as (sh' & Hs' & Hk & _). exists sh'.
  split; [done|congruence].
Qed.

Lemma text_frames_update i f bf sl :
  i ∈ bf → text_frames bf sl →
  keeps_shapes sl (update_frame i f sl)
  ∧ length (shapes (update_frame i f sl)) = length (shapes sl).
Proof.
  intros Hi Hbf. apply keeps_shapes_update. intros sh Hs.
  destruct (Hbf i Hi) as (sh' & Hs' & Hf). left. congruence.
Qed.

Lemma write_body_lines_keeps bf lines k sl sl' :
  text_frames bf sl →
  write_body_lines bf lines k sl = Ok sl' →
  keeps_shapes sl sl' ∧ length (shapes sl') = length (shapes sl).
Proof.
  revert k sl. induction lines as [|raw lines IH]; intros k sl Hbf;
    cbn [write_body_lines].
  - intros [= <-]. split; [apply keeps_shapes_refl|done].
  - destruct (_is_placeholder_only (_clean_md_line raw)); [by apply IH|].
    destruct (length bf <=? k); [by apply IH|].
    destruct (bf !! k) as [i|] eqn:Ei; [|done].
    destruct (write_body (_clean_md_line raw) (frame_at i sl)) as [tf|e];
      [|done].
    assert (Hin : i ∈ bf) by (apply list_elem_of_lookup; eauto).
    destruct (text_frames_update i (fun _ => tf) bf sl Hin Hbf) as [Hk Hl].
    intros H. apply IH in H as [Hk' Hl'];
      [|by apply (text_frames_keeps bf sl)].
    split; [by apply (keeps_shapes_trans _ _ _ Hk)|congruence].
Qed.

Lemma foldl_clear_keeps bf bf' sl :
  (∀ i, i ∈ bf' → i ∈ bf) → text_frames bf sl →
  keeps_shapes sl (foldl (fun sl i => update_frame i tf_clear sl) sl bf')
  ∧ length (shapes (foldl (fun sl i => update_frame i tf_clear sl) sl bf'))
    = length (shapes sl).
Proof.
  revert sl. induction bf' as [|i bf' IH]; intros sl Hsub Hbf; cbn [foldl].
  - split; [apply keeps_shapes_refl|done].
  - assert (Hin : i ∈ bf) by (apply Hsub; left).
    destruct (text_frames_update i tf_clear bf sl Hin Hbf) as [Hk Hl].
    destruct (IH (update_frame i tf_clear sl)) as [Hk' Hl'].
    + intros j Hj. apply Hsub. by right.
    + by apply (text_frames_keeps bf sl).
    + split; [by apply (keeps_shapes_trans _ _ _ Hk)|congruence].
Qed.

Lemma body_frames_text sl : text_frames (body_frames_of sl) sl.
Proof.
  intros i. unfold body_frames_of. rewrite list_elem_of_omap.
  intros ([j sh] & Hin & H).
  apply elem_of_lookup_imap in Hin as (j' & sh' & Heq & Hl).
  injection Heq as -> ->.
  destruct (has_text_frame sh') eqn:Hf; [|done]. cbn [andb] in H.
  destruct (negb _); [|done]. injection H as <-. by exists sh'.
Qed.

Lemma body_frames_not_title sl i :
  i ∈ body_frames_of sl → title sl ≠ Some i.
Proof.
  unfold body_frames_of. rewrite list_elem_of_omap.
  intros ([j sh] & Hin & H).
  apply elem_of_lookup_imap in Hin as (j' & sh' & Heq & Hl).
  injection Heq as -> ->.
  destruct (has_text_frame sh'); [|done]. cbn [andb] in H.
  case_bool_decide as Ht; [done|]. cbn in H. by injection H as <-.
Qed.

(** The frames the page is written into, and the slide with its body
    frames cleared. *)
Lemma write_page_start sl :
  ∃ sl1 bf1,
    (match body_frames_of sl with
     | [] => (add_textbox sl, [length (shapes sl)])
     | _ => (sl, body_frames_of sl)
     end) = (sl1, bf1)
    ∧ keeps_shapes sl sl1 ∧ text_frames bf1 sl1
    ∧ length (shapes sl1)
      = length (shapes sl)
        + (match body_frames_of sl with [] => 1 | _ => 0 end).
Proof.
  pose proof (body_frames_text sl) as Hbf.
  destruct (body_frames_of sl) as [|i0 bf0] eqn:E.
  - exists (add_textbox sl), [length (shapes sl)]. split; [done|].
    split; [apply keeps_shapes_app|]. split.
    + intros i ->%list_elem_of_singleton. exists EMPTY_TEXTBOX.
      unfold add_textbox. cbn [shapes]. rewrite lookup_app_r by lia.
      by rewrite Nat.sub_diag.
    + unfold add_textbox. cbn [shapes]. rewrite length_app. done.
  - exists sl, (i0 :: bf0). split; [done|].
    split; [apply keeps_shapes_refl|]. split; [done|lia].
Qed.

(** Writing a page keeps the shapes of the slide in their places: the
    title position and the relationships stay, every shape is still with
    or without a text frame, and a shape without a text frame, a picture
    for one, is left as it is. At most two text boxes are added: one for
    the body when the slide has no body frame, one for the title when it
    has no title. *)
Theorem write_page_keeps_shapes (sl sl' : slide) (lines : list str) :
  _write_page_to_slide sl lines = Ok sl' →
  keeps_shapes sl sl'
  ∧ length (shapes sl) <= length (shapes sl') <= length (shapes sl) + 2.
Proof.
  unfold _write_page_to_slide. destruct lines as [|line0 body].
  { intros [= <-]. split; [apply keeps_shapes_refl|lia]. }
  destruct (write_page_start sl) as (sl1 & bf1 & -> & Hk1 & Hbf1 & Hl1).
  destruct (foldl_clear_keeps bf1 bf1 sl1 (fun _ H => H) Hbf1) as [Hk2 Hl2].
  set (sl2 := foldl (fun sl i => update_frame i tf_clear sl) sl1 bf1) in *.
  pose proof (text_frames_keeps _ _ _ Hk2 Hbf1) as Hbf2.
  set (sl3 := if negb (_is_placeholder_only (_clean_md_line line0))
              then match title sl with
                   | Some t =>
                       update_frame t
                         (fun tf => tf_set_text tf (_clean_md_line line0)) sl2
                   | None =>
                       Slide (shapes sl2 ++ [new_title_box (_clean_md_line line0)])
                         (title sl2) (rels sl2)
                   end
              else sl2).
  assert (H3 : keeps_shapes sl2 sl3
               ∧ length (shapes sl2) <= length (shapes sl3)
                 <= length (shapes sl2) + 1).
  { unfold sl3. destruct (negb _); [|split; [apply keeps_shapes_refl|lia]].
    destruct (title sl) as [t|] eqn:Et.
    - destruct (keeps_shapes_update t
                  (fun tf => tf_set_text tf (_clean_md_line line0)) sl2)
        as [Hk Hl]; [|split; [done|lia]].
      intros sh _. right.
      destruct Hk1 as (T1 & _). destruct Hk2 as (T2 & _). congruence.
    - split; [apply keeps_shapes_app|]. cbn [shapes]. rewrite length_app.
      cbn. lia. }
  destruct H3 as [Hk3 Hl3]. intros H.
  apply write_body_lines_keeps in H as [Hk4 Hl4];
    [|by apply (text_frames_keeps bf1 sl2)].
  split.
  - apply (keeps_shapes_trans _ _ _ Hk1), (keeps_shapes_trans _ _ _ Hk2).
    by apply (keeps_shapes_trans _ _ _ Hk3).
  - destruct (body_frames_of sl); lia.
Qed.

Lemma write_page_keeps_shapes_witness :
  ∃ sl', _write_page_to_slide Decks.titled_slide Decks.sample_page = Ok sl'
         ∧ shapes sl' !! 1 = Some (Shape false []).
Proof.
  eexists. split; [reflexivity|].
  destruct (write_page_keeps_shapes Decks.titled_slide _ Decks.sample_page
              eq_refl) as [(_ & _ & H) _].
  destruct (H 1 (Shape false []) eq_refl) as (sh' & Hs & _ & Hk).
  rewrite Hs. f_equal. by apply Hk.
Defined.

Lemma write_body_lines_placeholders bf lines k sl :
  forallb placeholder_line lines = true →
  write_body_lines bf lines k sl = Ok sl.
Proof.
  revert k. induction lines as [|raw lines IH]; intros k H; [done|].
  cbn [forallb] in H. apply andb_prop in H as [Hp H].
  cbn [write_body_lines]. unfold placeholder_line in Hp. rewrite Hp.
  by apply IH.
Qed.

Lemma tf_text_clear tf : tf_text (tf_clear tf) = [].
Proof. by destruct tf. Qed.

Lemma foldl_clear_text bf sl i :
  i ∈ bf ∨ tf_text (frame_at i sl) = [] →
  tf_text (frame_at i (foldl (fun sl i => update_frame i tf_clear sl) sl bf))
  = [].
Proof.
  revert sl. induction bf as [|j bf IH]; intros sl H; cbn [foldl].
  - destruct H as [H|H]; [by apply elem_of_nil in H|done].
  - apply IH. rewrite frame_at_update.
    destruct (decide (i = j)) as [->|Hne].
    + right. destruct (shapes sl !! j); [apply tf_text_clear|done].
    + destruct H as [[?|H]%elem_of_cons|H]; [done|by left|by right].
Qed.

Lemma foldl_clear_other bf sl i :
  i ∉ bf →
  shapes (foldl (fun sl i => update_frame i tf_clear sl) sl bf) !! i
  = shapes sl !! i.
Proof.
  revert sl. induction bf as [|j bf IH]; intros sl H; cbn [foldl]; [done|].
  apply not_elem_of_cons in H as [Hne H]. rewrite IH by done.
  unfold update_frame. cbn [shapes]. by rewrite list_lookup_alter_ne.
Qed.

(** A page of placeholders alone writes nothing: every body frame of the
    slide is left without text, and every other shape, the title among
    them, is as it was. *)
Theorem write_page_placeholders (sl : slide) (lines : list str) :
  lines ≠ [] → forallb placeholder_line lines = true →
  ∃ sl', _write_page_to_slide sl lines = Ok sl'
         ∧ (∀ i, i ∈ body_frames_of sl → tf_text (frame_at i sl') = [])
         ∧ (∀ i sh, shapes sl !! i = Some sh → i ∉ body_frames_of sl →
                    shapes sl' !! i = Some sh).
Proof.
  intros Hne Hall. destruct lines as [|line0 body]; [done|].
  cbn [forallb] in Hall. apply andb_prop in Hall as [Hp Hall].
  unfold placeholder_line in Hp. unfold _write_page_to_slide.
  destruct (body_frames_of sl) as [|i0 bf0] eqn:E.
  - rewrite Hp. cbn [negb foldl].
    rewrite write_body_lines_placeholders by done.
    eexists. split; [done|]. split; [by intros i H%elem_of_nil|].
    intros i sh Hi _. unfold update_frame, add_textbox. cbn [shapes].
    pose proof (lookup_lt_Some _ _ _ Hi) as Hlt.
    rewrite list_lookup_alter_ne by lia.
    by rewrite (lookup_app_l_Some _ _ _ _ Hi).
  - rewrite Hp. cbn [negb].
    rewrite write_body_lines_placeholders by done.
    eexists. split; [done|]. split.
    + intros i Hi. apply foldl_clear_text. by left.
    + intros i sh Hi Hni. by rewrite foldl_clear_other.
Qed.

Lemma write_page_placeholders_witness :
  ∃ sl', _write_page_to_slide Decks.titled_slide
           [lit "### {{S1_P1}}"; lit "- {{S1_P3}}"] = Ok sl'
         ∧ shapes sl' !! 0
           = Some (Shape true [Paragraph (lit "Title") (Some CENTER) None]).
Proof.
  destruct (write_page_placeholders Decks.titled_slide
              [lit "### {{S1_P1}}"; lit "- {{S1_P3}}"])
    as (sl' & E & _ & H); [discriminate|reflexivity|].
  exists sl'. split; [exact E|]. apply H; [reflexivity|].
  vm_compute. intros Hin. apply elem_of_cons in Hin as [Hin|Hin];
    [discriminate|]. by apply elem_of_nil in Hin.
Defined.

End WriteKeeps.
(** ** Searching for pictures *)

Section ImageDownloads.

Import Samples ImageSpec.

Implicit Types (w : world) (results : list photo) (blobs : list bytes)
  (log : list event).

Lemma fetched_cons w size timeout (item : photo) results :
  fetched w size timeout (item :: results)
  = match item size with
    | None => fetched w size timeout results
    | Some img_url =>
        match image_get w img_url timeout with
        | Ok content => content :: fetched w size timeout results
        | Raise _ => fetched w size timeout results
        end
    end.
Proof.
  unfold fetched. rewrite omap_cons. destruct (item size) as [url|]; [|done].
  by destruct (image_get w url timeout).
Qed.

Lemma fetches_cons size (item : photo) results :
  fetches size (item :: results)
  = match item size with
    | None => fetches size results
    | Some img_url => HttpGet img_url :: fetches size results
    end.
Proof. unfold fetches. rewrite omap_cons. by destruct (item size). Qed.

Lemma download_fetchable w size timeout results blobs log :
  forallb (fetchable w size timeout) results = true →
  download w size timeout results blobs log
  = (Ok (blobs ++ fetched w size timeout results),
     log ++ fetches size results).
Proof.
  revert blobs log. induction results as [|item results IH];
    intros blobs log H.
  - cbn. by rewrite !app_nil_r.
  - cbn [forallb] in H. apply andb_prop in H as [Hi H].
    unfold fetchable in Hi. rewrite fetched_cons, fetches_cons.
    cbn [download]. destruct (item size) as [url|]; [|done].
    destruct (image_get w url timeout) as [content|[]]; try done.
    + rewrite IH by done. by rewrite <- !app_assoc.
    + rewrite IH by done. by rewrite <- !app_assoc.
Qed.

(** What a successful search returns: the pictures of the results that
    could be downloaded, shuffled; a picture whose download fails is left
    out, not raised. One request is made for the search and one for every
    result. *)
Theorem unsplash_search_downloads (w : world) (query : str) (per_page : Z)
    (limit : option Z) (orientation size order_by : str) (timeout : Z)
    (client_id : str) (klog : list event) (results : list photo) :
  (0 < match limit with Some l => l | None => per_page end)%Z →
  valid_params orientation size order_by = true →
  _ensure_key w (lit "unsplash_key") = (Ok client_id, klog) →
  search_get w query (lower orientation)
    (match limit with Some l => l | None => per_page end)
    (lower order_by) client_id timeout = Ok results →
  results ≠ [] →
  forallb (fetchable w (lower size) timeout) results = true →
  unsplash_search w query per_page limit orientation size order_by timeout
  = (Ok (shuffle w (fetched w (lower size) timeout results)),
     klog ++ [HttpGet SEARCH_URL] ++ fetches (lower size) results
       ++ [Shuffled]).
Proof.
  intros Hpos Hv Hk Hs Hne Hf. unfold unsplash_search.
  rewrite (proj2 (Z.leb_gt _ _) Hpos).
  unfold valid_params in Hv.
  apply andb_prop in Hv as [[-> ->]%andb_prop ->]. cbn [negb].
  rewrite Hk, Hs. destruct results as [|item results]; [done|].
  rewrite download_fetchable by done. cbn [app].
  by rewrite <- !app_assoc.
Qed.

Lemma unsplash_search_downloads_witness :
  unsplash_search online (lit "cat") 2 None (lit "Landscape") (lit "SMALL")
    (lit "latest") 8
  = (Ok [[Byte.x02]],
     [ReadEnv (lit "UNSPLASH_KEY"); HttpGet SEARCH_URL; HttpGet (lit "u1");
      HttpGet (lit "u2"); Shuffled]).
Proof.
  apply (unsplash_search_downloads online (lit "cat") 2 None
           (lit "Landscape") (lit "SMALL") (lit "latest") 8 (lit "key")
           [ReadEnv (lit "UNSPLASH_KEY")]
           [fun _ => Some (lit "u1"); fun _ => Some (lit "u2")]);
    reflexivity || discriminate.
Defined.

(** Before any request. With a positive page size, a parameter that is
    not among the accepted values is refused with an [UnsplashError]
    before any key source is read; and with accepted parameters but no
    key in any source the search is skipped: the result is the empty list
    and no request is made. *)
Theorem unsplash_search_before_request (w : world) (query : str)
    (per_page : Z) (limit : option Z) (orientation size order_by : str)
    (timeout : Z) :
  (0 < match limit with Some l => l | None => per_page end)%Z →
  (valid_params orientation size order_by = false →
   unsplash_search w query per_page limit orientation size order_by timeout
   = (Raise UnsplashError, []))
  ∧ (valid_params orientation size order_by = true →
     truthy (getenv w (lit "UNSPLASH_KEY")) = None →
     truthy (config_get w (lit "unsplash_key")) = None →
     llm_ensure_key w (lit "unsplash_key") = None →
     unsplash_search w query per_page limit orientation size order_by timeout
     = (Ok [], [ReadEnv (lit "UNSPLASH_KEY"); ReadConfig (lit "unsplash_key");
                ReadLlmKey (lit "unsplash_key")])).
Proof.
  intros Hpos. unfold unsplash_search, valid_params.
  rewrite (proj2 (Z.leb_gt _ _) Hpos). split.
  - intros Hv.
    destruct (mem (lower orientation) _); [|done].
    destruct (mem (lower size) _); [|done].
    destruct (mem (lower order_by) _); done.
  - intros [[-> ->]%andb_prop ->]%andb_prop He Hc Hl. cbn [negb].
    unfold _ensure_key.
    change (upper (lit "unsplash_key")) with (lit "UNSPLASH_KEY").
    by rewrite He, Hc, Hl.
Qed.

Lemma unsplash_search_before_request_witness :
  unsplash_search offline (lit "cat") 3 None (lit "landscape") (lit "tiny")
    (lit "relevant") 8
  = (Raise UnsplashError, []).
Proof.
  apply (unsplash_search_before_request offline (lit "cat") 3 None
           (lit "landscape") (lit "tiny") (lit "relevant") 8);
    reflexivity.
Defined.

End ImageDownloads.
(** ** The pictures the user chose *)

Section ChosenPictures.

Import Pictures RenderSpec.

Implicit Types (prs : presentation) (sl : slide).

Lemma replace_chosen_app (l1 l2 : list (nat * str * option bytes)) prs :
  replace_chosen (l1 ++ l2) prs = replace_chosen l2 (replace_chosen l1 prs).
Proof.
  revert prs. induction l1 as [|[[s r] [[|b c]|]] l1 IH]; intros prs;
    cbn [app replace_chosen]; by rewrite ?IH.
Qed.



(** A choice that cannot be applied is skipped, not raised: one with
    empty bytes, one for a slide the rendered deck does not have, and one
    for a relationship its slide does not have all leave the result as it
    is without them. *)
Theorem unusable_choice_ignored (prs : presentation) (markdown : str)
    (l1 l2 : list (nat * str * option bytes)) (s : nat) (r : str)
    (blob : bytes) :
  blob = []
  ∨ (length (slides prs) <= s
     ∧ length (_split_markdown_slides markdown) <= s)
  ∨ (∃ sl, slides prs !! s = Some sl ∧ rels sl !! r = None) →
  render_ppt prs markdown (l1 ++ (s, r, Some blob) :: l2)
  = render_ppt prs markdown (l1 ++ l2).
Proof.
  intros H. unfold render_ppt.
  destruct (slide_layouts prs !! 1) as [blank|]; [|done].
  destruct (write_pages_frame blank 1 (_split_markdown_slides markdown) prs)
    as (prs1 & Hw & Hparts & Hrels); [cbn; lia|].
  rewrite Hw. f_equal. rewrite !replace_chosen_app.
  destruct blob as [|b c]; [done|]. cbn [replace_chosen].
  rewrite replace_chosen_slides.
  destruct H as [?|[[H1 H2]|(sl & Hs & Hr)]]; [done| |].
  - apply write_pages_slides in Hw as (Hlen & _); [|lia|cbn; lia].
    rewrite lookup_ge_None_2; [done|]. rewrite Hlen. cbn. lia.
  - destruct (Hrels _ _ Hs) as (sl1 & -> & Hr1).
    unfold _replace_picture. by rewrite Hr1, Hr.
Qed.

Lemma unusable_choice_ignored_witness :
  render_ppt shared_deck [] [(5, lit "rId2", Some [Byte.x09])]
  = render_ppt shared_deck [] [].
Proof.
  apply (unusable_choice_ignored shared_deck [] [] [] 5 (lit "rId2")
           [Byte.x09]).
  right. left. split; cbn; lia.
Defined.

End ChosenPictures.
(** ** Pages between rules *)

Section RulePages.

Import LockSpec RuleSpec.

Implicit Types (a b p q r X md cur : str) (c : char)
  (pages : list str).

Lemma take_while_stop {A} (f : A → bool) (l : list A) (x : A) (r : list A) :
  f x = false → take_while f (l ++ x :: r) = take_while f l.
Proof.
  intros Hx. induction l as [|y l IH]; cbn [app take_while].
  - by rewrite Hx.
  - destruct (f y); [by rewrite IH|done].
Qed.

Lemma drop_while_stop {A} (f : A → bool) (l : list A) (x : A) (r : list A) :
  f x = false → drop_while f (l ++ x :: r) = drop_while f l ++ x :: r.
Proof.
  intros Hx. induction l as [|y l IH]; cbn [app drop_while].
  - by rewrite Hx.
  - by destruct (f y).
Qed.

Lemma rule_search_cons c a :
  rule_search (c :: a) = rule_at (c :: a) || rule_search a.
Proof.
  cbn [rule_search]. unfold rule_at.
  destruct (rule_start (c :: a)) as [[|d x]|]; [done| |done].
  by destruct (is_nl d).
Qed.

Lemma rule_search_nil : rule_search [] = false.
Proof. done. Qed.

Lemma rule_search_drop a i :
  rule_search a = false → rule_at (drop i a) = false.
Proof.
  revert i. induction a as [|c a IH]; intros i H.
  - by rewrite drop_nil.
  - rewrite rule_search_cons in H. apply orb_false_elim in H as [H1 H2].
    destruct i as [|i]; [done|]. by apply IH.
Qed.

Lemma rule_search_app a b : rule_search b = true → rule_search (a ++ b) = true.
Proof.
  intros H. induction a as [|c a IH]; [done|].
  cbn [app]. rewrite rule_search_cons, IH. apply orb_true_r.
Qed.

(** The start of the two rule patterns on a text that is followed by a
    newline. *)
Lemma rule_start_before_nl a X :
  a ≠ [] →
  rule_start (a ++ NL :: X)
  = (if 3 <=? length (take_while is_dash
                        (match a with
                         | c :: t => if is_nl c then t else a
                         | [] => a
                         end))
     then Some (drop_while is_dash
                  (match a with
                   | c :: t => if is_nl c then t else a
                   | [] => a
                   end) ++ NL :: X)
     else None).
Proof.
  intros Ha. destruct a as [|c a']; [done|]. unfold rule_start.
  cbn [app]. destruct (is_nl c).
  - by rewrite take_while_stop, drop_while_stop.
  - change (c :: a' ++ NL :: X) with ((c :: a') ++ NL :: X).
    by rewrite take_while_stop, drop_while_stop.
Qed.

Lemma rule_at_before_nl a X :
  a ≠ [] → rule_at (a ++ NL :: X) = rule_at (a ++ [NL]).
Proof.
  intros Ha. unfold rule_at. rewrite !rule_start_before_nl by done.
  destruct (3 <=? _); [|done].
  by destruct (drop_while is_dash _).
Qed.

Lemma rule_at_mono a : rule_at a = true → rule_at (a ++ [NL]) = true.
Proof.
  destruct a as [|c a'] eqn:Ea; [done|]. rewrite <- Ea.
  assert (Ha : a ≠ []) by by rewrite Ea.
  unfold rule_at at 2. rewrite rule_start_before_nl by done.
  unfold rule_at, rule_start.
  destruct (3 <=? _); [|done].
  by destruct (drop_while is_dash _).
Qed.

Lemma rule_split_match_at a : rule_at a = false → rule_split_match a = None.
Proof.
  unfold rule_at, rule_split_match.
  destruct (rule_start a) as [[|c x]|]; [done| |done]. by intros ->.
Qed.

(** No rule starts inside a plain page that is followed by a newline, or
    by nothing. *)
Lemma plain_page_inside p X i :
  rule_search (p ++ [NL]) = false → i < length p →
  rule_split_match (drop i p ++ NL :: X) = None
  ∧ rule_split_match (drop i p) = None.
Proof.
  intros H Hi. apply (rule_search_drop _ i) in H.
  rewrite drop_app_le in H by lia.
  assert (Hd : drop i p ≠ []).
  { intros E%(f_equal length). rewrite length_drop in E. cbn in E. lia. }
  split; apply rule_split_match_at.
  - by rewrite rule_at_before_nl.
  - destruct (rule_at (drop i p)) eqn:E; [|done].
    apply rule_at_mono in E. congruence.
Qed.

Lemma rule_split_match_rule r :
  rule_split_match (RULE ++ r) = Some (drop_while is_nl r)
  ∧ rule_at (RULE ++ r) = true.
Proof. done. Qed.

Lemma rule_search_rule a r : rule_search (a ++ RULE ++ r) = true.
Proof.
  apply rule_search_app. change (RULE ++ r) with (NL :: (lit "---" ++ [NL]) ++ r).
  rewrite rule_search_cons.
  change (NL :: (lit "---" ++ [NL]) ++ r) with (RULE ++ r).
  by rewrite (proj2 (rule_split_match_rule r)).
Qed.

Lemma re_split_skip (m : str → option str) fuel cur l r :
  (∀ i, i < length l → m (drop i l ++ r) = None) →
  length (l ++ r) <= fuel →
  re_split m fuel cur (l ++ r) = re_split m (fuel - length l) (cur ++ l) r.
Proof.
  revert fuel cur. induction l as [|c l IH]; intros fuel cur H Hl.
  - cbn [app length]. by rewrite app_nil_r, Nat.sub_0_r.
  - destruct fuel as [|fuel]; [cbn in Hl; lia|]. cbn [app re_split length].
    rewrite (H 0 ltac:(cbn; lia) : m (c :: l ++ r) = None).
    rewrite IH.
    + by rewrite <- app_assoc.
    + intros i Hi. apply (H (S i)). cbn. lia.
    + cbn in Hl. lia.
Qed.

Lemma re_split_end (m : str → option str) fuel cur l :
  (∀ i, i < length l → m (drop i l) = None) →
  length l <= fuel →
  re_split m fuel cur l = [cur ++ l].
Proof.
  intros H Hl. rewrite <- (app_nil_r l) at 1. rewrite re_split_skip.
  - by destruct (fuel - length l); cbn [re_split]; rewrite ?app_nil_r.
  - intros i Hi. rewrite app_nil_r. by apply H.
  - by rewrite app_nil_r.
Qed.

Lemma re_split_match (m : str → option str) fuel cur c t rest :
  m (c :: t) = Some rest →
  re_split m (S fuel) cur (c :: t) = cur :: re_split m fuel [] rest.
Proof. intros H. cbn [re_split]. by rewrite H. Qed.

Lemma plain_page_parts p :
  plain_page p = true →
  nonempty (strip p) = true ∧ rule_search (p ++ [NL]) = false.
Proof.
  unfold plain_page. intros [H1 H2]%andb_prop.
  by apply negb_true_iff in H2.
Qed.

Lemma nonblank_head p :
  nonempty (strip p) = true →
  ∃ c t, drop_while is_nl p = c :: t ∧ is_nl c = false.
Proof.
  intros H. destruct (drop_while is_nl p) as [|c t] eqn:E.
  - apply drop_while_nil, nl_ws in E. unfold strip in H.
    by rewrite (strip_by_all isspace p E) in H.
  - exists c, t. split; [done|]. by apply drop_while_head in E.
Qed.

Lemma nonblank_last p :
  nonempty (strip p) = true → rstrip_by is_nl p ≠ [].
Proof.
  intros H E. apply rstrip_by_nil_iff, nl_ws in E. unfold strip in H.
  by rewrite (strip_by_all isspace p E) in H.
Qed.

Lemma drop_while_nl_app p Y :
  nonempty (strip p) = true →
  drop_while is_nl (p ++ Y) = drop_while is_nl p ++ Y.
Proof.
  intros (c & t & E & Hc)%nonblank_head.
  rewrite <- (take_drop_while is_nl p) at 1. rewrite E, <- app_assoc.
  cbn [app]. rewrite drop_while_stop by done.
  by rewrite drop_while_all by apply forallb_take_while.
Qed.

Lemma join_rule_cons p q pages :
  join RULE (p :: q :: pages) = p ++ RULE ++ join RULE (q :: pages).
Proof. done. Qed.

Lemma lstrip_join p pages :
  nonempty (strip p) = true →
  drop_while is_nl (join RULE (p :: pages))
  = join RULE (drop_while is_nl p :: pages).
Proof.
  intros H. destruct pages as [|q pages]; [done|].
  by rewrite !join_rule_cons, drop_while_nl_app.
Qed.

Lemma strip_lstrip_nl p : strip (drop_while is_nl p) = strip p.
Proof.
  transitivity (strip (take_while is_nl p ++ drop_while is_nl p));
    [|by rewrite take_drop_while].
  symmetry. apply strip_app_l_ws, nl_ws, forallb_take_while.
Qed.

Lemma strip_rstrip_nl p : strip (rstrip_by is_nl p) = strip p.
Proof.
  destruct (rstrip_by_split is_nl p) as (x & Hx & E).
  transitivity (strip (rstrip_by is_nl p ++ x)); [|by rewrite <- E].
  symmetry. by apply strip_app_ws, nl_ws.
Qed.

Lemma rule_search_before_nl a X :
  rule_search (a ++ [NL]) = true → rule_search (a ++ NL :: X) = true.
Proof.
  induction a as [|c a IH]; [done|]. cbn [app].
  rewrite !rule_search_cons.
  change (c :: a ++ NL :: X) with ((c :: a) ++ NL :: X).
  change (c :: a ++ [NL]) with ((c :: a) ++ [NL]).
  rewrite (rule_at_before_nl (c :: a) X) by done.
  intros [->|H]%orb_prop; [done|]. rewrite IH by done. apply orb_true_r.
Qed.

Lemma plain_lstrip p :
  plain_page p = true → plain_page (drop_while is_nl p) = true.
Proof.
  intros [H1 H2]%plain_page_parts. unfold plain_page.
  rewrite strip_lstrip_nl, H1. cbn [andb]. apply negb_true_iff.
  apply not_true_is_false. intros H.
  apply (rule_search_app (take_while is_nl p)) in H.
  rewrite app_assoc, take_drop_while in H. congruence.
Qed.

Lemma plain_rstrip p :
  plain_page p = true → plain_page (rstrip_by is_nl p) = true.
Proof.
  intros [H1 H2]%plain_page_parts. unfold plain_page.
  rewrite strip_rstrip_nl, H1. cbn [andb]. apply negb_true_iff.
  apply not_true_is_false. intros H.
  destruct (rstrip_by_split is_nl p) as (x & Hx & E).
  rewrite E in H2. destruct x as [|c x].
  - rewrite app_nil_r in H2. congruence.
  - cbn [forallb] in Hx. apply andb_prop in Hx as [Hc _].
    apply N.eqb_eq in Hc. subst c.
    apply (rule_search_before_nl _ (x ++ [NL])) in H.
    rewrite <- app_assoc in H2. cbn [app] in H2. congruence.
Qed.

(** The pieces between the rules of a text that was joined from plain
    pages, without the blank ones and trimmed, are the trimmed pages. *)
Lemma split_plain_pages p pages fuel :
  forallb plain_page (p :: pages) = true →
  length (join RULE (p :: pages)) <= fuel →
  omap (fun p => if nonempty (strip p) then Some (strip p) else None)
    (re_split rule_split_match fuel [] (join RULE (p :: pages)))
  = map strip (p :: pages).
Proof.
  revert p fuel. induction pages as [|q pages IH]; intros p fuel Hall Hl;
    cbn [forallb] in Hall; apply andb_prop in Hall as [Hp Hall];
    destruct (plain_page_parts p Hp) as [Hb Hr].
  - cbn [join] in *. rewrite re_split_end; [|intros i Hi|done].
    + cbn [app map]. rewrite omap_cons. by rewrite Hb.
    + by apply (plain_page_inside p []).
  - rewrite join_rule_cons in *. rewrite re_split_skip; [|intros i Hi|done].
    2: { change (RULE ++ join RULE (q :: pages))
           with (NL :: (lit "---" ++ [NL]) ++ join RULE (q :: pages)).
         by apply plain_page_inside. }
    rewrite !length_app in Hl. change (length RULE) with 5 in Hl.
    destruct (fuel - length p) as [|f] eqn:Ef; [lia|].
    change (RULE ++ join RULE (q :: pages))
      with (NL :: (lit "---" ++ [NL]) ++ join RULE (q :: pages)).
    rewrite (re_split_match _ _ _ _ _ (drop_while is_nl (join RULE (q :: pages)))).
    2: { apply (rule_split_match_rule (join RULE (q :: pages))). }
    cbn [app map]. rewrite omap_cons, Hb. f_equal.
    pose proof Hall as Hall'.
    cbn [forallb] in Hall. apply andb_prop in Hall as [Hq Hall].
    destruct (plain_page_parts q Hq) as [Hqb _].
    rewrite lstrip_join by done.
    rewrite IH.
    + cbn [map]. by rewrite strip_lstrip_nl.
    + cbn [forallb]. by rewrite plain_lstrip, Hall.
    + rewrite <- lstrip_join by done.
      pose proof (drop_while_length is_nl (join RULE (q :: pages))). lia.
Qed.

(** Trimming the newlines at the end of the joined text trims the last
    page. *)
Lemma rstrip_join pages :
  pages ≠ [] → forallb plain_page pages = true →
  ∃ pages', rstrip_by is_nl (join RULE pages) = join RULE pages'
            ∧ map strip pages' = map strip pages
            ∧ forallb plain_page pages' = true
            ∧ length pages' = length pages.
Proof.
  induction pages as [|p pages IH]; [done|]. intros _ Hall.
  cbn [forallb] in Hall. apply andb_prop in Hall as [Hp Hall].
  destruct pages as [|q pages].
  - exists [rstrip_by is_nl p]. cbn [join map forallb length].
    by rewrite strip_rstrip_nl, plain_rstrip.
  - destruct IH as (ps & E & Hs & Hps & Hlen); [done|done|].
    exists (p :: ps). rewrite join_rule_cons.
    destruct ps as [|x ps]; [done|].
    assert (Hx : join RULE (x :: ps) ≠ []).
    { cbn [forallb] in Hps. apply andb_prop in Hps as [Hx _].
      apply plain_page_parts in Hx as [Hx _].
      destruct x; [done|]. by destruct ps. }
    rewrite app_assoc, rstrip_by_app_keep by by rewrite E.
    rewrite E, <- app_assoc. split; [done|].
    cbn [map forallb length] in *. by rewrite Hs, Hp, Hps, Hlen.
Qed.

(** Pages between rules. A text joined from at least two plain pages
    with a rule line between them is split at the rules, whatever
    headings the pages hold: the chunks are the pages, trimmed. *)
Theorem rule_pages_round_trip (pages : list str) :
  2 <= length pages → forallb plain_page pages = true →
  _split_markdown_slides (join RULE pages) = map strip pages.
Proof.
  intros Hlen Hall.
  destruct (rstrip_join pages) as (ps & E & Hs & Hps & Hl);
    [intros ->; cbn in Hlen; lia|done|].
  unfold _split_markdown_slides. cbv zeta.
  unfold strip_by, lstrip_by. rewrite E.
  destruct ps as [|x [|y ps]]; [cbn in Hl; lia|cbn in Hl; lia|].
  cbn [forallb] in Hps. apply andb_prop in Hps as [Hx Hps].
  destruct (plain_page_parts x Hx) as [Hxb _].
  rewrite lstrip_join by done. rewrite join_rule_cons.
  assert (Hn : nonempty (drop_while is_nl x ++ RULE ++ join RULE (y :: ps))
               = true) by by destruct (drop_while is_nl x).
  rewrite Hn, rule_search_rule. cbn [negb].
  rewrite <- join_rule_cons, split_plain_pages.
  - rewrite <- Hs. cbn [map]. by rewrite strip_lstrip_nl.
  - cbn [forallb]. by rewrite plain_lstrip, Hps.
  - done.
Qed.

Lemma rule_pages_round_trip_witness :
  _split_markdown_slides
    (join RULE [lit "# One" ++ [NL] ++ lit "- a"; lit "## Slide 2 " ++ [NL]])
  = [lit "# One" ++ [NL] ++ lit "- a"; lit "## Slide 2"].
Proof.
  apply (rule_pages_round_trip
           [lit "# One" ++ [NL] ++ lit "- a"; lit "## Slide 2 " ++ [NL]]).
  - cbn. lia.
  - reflexivity.
Defined.

End RulePages.
